(** * l2hmc-qcd: annealing schedules, run-data persistence, the inference
      runner, the PyTorch trainer, the Gaussian-mixture model and the
      Metropolis-Hastings acceptance stage.

    Conventions of the embedding.

    - Floating-point numbers of the Python sources are modelled as real
      numbers ([R]); rounding is not modelled.  Where the sources can
      meet non-finite values, an explicit extended type is used.
    - Tensors are flattened to lists of reals.
    - Python dictionaries are finite maps ([gmap]) keyed by strings.
    - Exceptions are results of a sum type; mutable state is passed
      explicitly. *)

From Stdlib Require Import Reals Lra Lia List String Ascii Bool Sorted.
From stdpp Require Import gmap strings pretty.
Import ListNotations.

(* ===================================================================== *)
(** * utils/annealing_schedules.py                                        *)
(* ===================================================================== *)

Module AnnealingSchedules.
Local Open Scope R_scope.

(** [exp_mult_cooling(step, t0, t1, num_steps, alpha=None)]:
    [alpha] defaults to [exp((log t1 - log t0) / num_steps)]; the result
    is [t0 * alpha ** step] (the cast to [TF_FLOAT] is the identity on
    reals). *)
Definition exp_mult_cooling
    (step : nat) (t0 t1 : R) (num_steps : nat) (alpha : option R) : R :=
  let alpha :=
    match alpha with
    | None => exp ((ln t1 - ln t0) / INR num_steps)
    | Some a => a
    end in
  t0 * alpha ^ step.

(** [linear_multiplicative_cooling]. *)
Definition linear_multiplicative_cooling
    (step : nat) (t0 t1 : R) (num_steps : nat) (alpha : option R) : R :=
  let alpha :=
    match alpha with
    | None => (t1 - t0) / (INR num_steps * t1)
    | Some a => a
    end in
  t0 / (1 + alpha * INR step).

(** [linear_additive_cooling]. *)
Definition linear_additive_cooling
    (step : nat) (t0 t1 : R) (num_steps : nat) : R :=
  t1 + (t0 - t1) * (INR num_steps - INR step) / INR num_steps.

(** [quadratic_additive_cooling]. *)
Definition quadratic_additive_cooling
    (step : nat) (t0 t1 : R) (num_steps : nat) : R :=
  t1 + (t0 - t1) * ((INR num_steps - INR step) / INR num_steps) ^ 2.

(** A cooling function as [get_betas] calls it: four positional
    arguments, [alpha] left at its default. *)
Definition cooling := nat -> R -> R -> nat -> R.

Definition default_cooling : cooling :=
  fun i t0 t1 n => exp_mult_cooling i t0 t1 n None.

(** [range(steps)]. *)
Definition range (n : nat) : list nat := seq 0 n.

(** [get_betas(steps, beta_init, beta_final, cooling_fn, discrete)].
    With [discrete = True] the source iterates
    [range(beta_init, beta_final)], which raises [TypeError] on the
    floating-point temperatures modelled here: that branch is [None].
    Otherwise the temperatures [cooling_fn(i, 1/beta_init, 1/beta_final,
    steps)] for [i in range(steps)] are inverted elementwise. *)
Definition get_betas
    (steps : nat) (beta_init beta_final : R)
    (cooling_fn : cooling) (discrete : bool) : option (list R) :=
  if discrete then None
  else
    let t_init := 1 / beta_init in
    let t_final := 1 / beta_final in
    let t_arr := map (fun i => cooling_fn i t_init t_final steps) (range steps) in
    Some (map (fun t => 1 / t) t_arr).

(** The copy in utils/training_utils.py: same computation with the
    cooling function fixed. *)
Definition training_utils_get_betas
    (steps : nat) (beta_init beta_final : R) : list R :=
  let t_init := 1 / beta_init in
  let t_final := 1 / beta_final in
  map (fun t => 1 / t)
      (map (fun i => exp_mult_cooling i t_init t_final steps None) (range steps)).

(** The i-th inverse temperature produced by the default schedule. *)
Definition beta_at (steps : nat) (beta_init beta_final : R) (i : nat) : R :=
  1 / default_cooling i (1 / beta_init) (1 / beta_final) steps.

(** ** Properties *)

Lemma get_betas_default_eq steps bi bf :
  get_betas steps bi bf default_cooling false
  = Some (map (beta_at steps bi bf) (range steps)).
Proof.
  unfold get_betas, beta_at. by rewrite map_map.
Qed.

Lemma training_utils_get_betas_eq steps bi bf :
  Some (training_utils_get_betas steps bi bf)
  = get_betas steps bi bf default_cooling false.
Proof. reflexivity. Qed.

Lemma nth_beta_at steps bi bf i :
  (i < steps)%nat ->
  nth i (map (beta_at steps bi bf) (range steps)) 0 = beta_at steps bi bf i.
Proof.
  intros Hi. unfold range.
  rewrite (nth_indep _ 0 (beta_at steps bi bf 0%nat)).
  2:{ rewrite length_map, length_seq. exact Hi. }
  rewrite (map_nth (beta_at steps bi bf)). rewrite seq_nth by exact Hi.
  reflexivity.
Qed.

(** The default multiplicative factor lies in (0, 1] when the schedule
    heats [beta] up, i.e. cools the temperature down. *)
Lemma alpha_range steps bi bf :
  (1 <= steps)%nat -> 0 < bi < bf ->
  0 < exp ((ln (1 / bf) - ln (1 / bi)) / INR steps) <= 1.
Proof.
  intros Hs [Hbi Hlt]. split; [apply exp_pos|].
  assert (Hn : 0 < INR steps) by (apply lt_0_INR; lia).
  assert (Hbf : 0 < bf) by lra.
  assert (Hln : ln (1 / bf) < ln (1 / bi)).
  { apply ln_increasing.
    - apply Rdiv_lt_0_compat; lra.
    - unfold Rdiv. rewrite !Rmult_1_l. apply Rinv_lt_contravar; [nra|lra]. }
  set (d := ln (1 / bf) - ln (1 / bi)) in *.
  assert (Hd : d < 0) by (unfold d; lra).
  assert (Hi : 0 < / INR steps) by (apply Rinv_0_lt_compat; exact Hn).
  assert (He : exp (d / INR steps) < exp 0).
  { apply exp_increasing. unfold Rdiv. nra. }
  rewrite exp_0 in He. lra.
Qed.

Lemma pow_antitone a i :
  0 < a <= 1 -> a ^ S i <= a ^ i.
Proof.
  intros [H0 H1]. simpl.
  assert (0 < a ^ i) by (apply pow_lt; exact H0). nra.
Qed.

Lemma beta_at_step steps bi bf i :
  (1 <= steps)%nat -> 0 < bi < bf ->
  beta_at steps bi bf i <= beta_at steps bi bf (S i).
Proof.
  intros Hs Hb. pose proof (alpha_range steps bi bf Hs Hb) as Ha.
  unfold beta_at, default_cooling, exp_mult_cooling.
  set (a := exp _) in *.
  assert (Ht0 : 0 < 1 / bi) by (apply Rdiv_lt_0_compat; lra).
  assert (Hpi : 0 < a ^ i) by (apply pow_lt; lra).
  assert (HpS : 0 < a ^ S i) by (apply pow_lt; lra).
  pose proof (pow_antitone a i Ha) as Hle.
  unfold Rdiv at 1 3. rewrite !Rmult_1_l.
  apply Rinv_le_contravar; [nra|].
  apply Rmult_le_compat_l; lra.
Qed.

Lemma beta_at_0 steps bi bf :
  0 < bi -> beta_at steps bi bf 0 = bi.
Proof.
  intros Hbi. unfold beta_at, default_cooling, exp_mult_cooling. simpl.
  field. lra.
Qed.

Lemma pow_antitone_le a i j :
  0 < a <= 1 -> (i <= j)%nat -> a ^ j <= a ^ i.
Proof.
  intros Ha Hij. induction Hij as [|j Hij IH]; [lra|].
  pose proof (pow_antitone a j Ha). lra.
Qed.

Lemma exp_pow_nat x n : exp x ^ n = exp (INR n * x).
Proof.
  induction n as [|n IH].
  - simpl. by rewrite Rmult_0_l, exp_0.
  - rewrite S_INR. simpl pow. rewrite IH, <- exp_plus. f_equal. lra.
Qed.

(** After [steps] factors the temperature would have reached the final
    one. *)
Lemma alpha_pow_steps steps t0 t1 :
  (1 <= steps)%nat -> 0 < t0 -> 0 < t1 ->
  t0 * exp ((ln t1 - ln t0) / INR steps) ^ steps = t1.
Proof.
  intros Hs H0 H1.
  assert (Hn : 0 < INR steps) by (apply lt_0_INR; lia).
  rewrite exp_pow_nat.
  replace (INR steps * ((ln t1 - ln t0) / INR steps)) with (ln t1 - ln t0)
    by (field; lra).
  unfold Rminus. rewrite exp_plus, exp_Ropp, !exp_ln by lra. field. lra.
Qed.

Lemma beta_at_le_final steps bi bf i :
  (1 <= steps)%nat -> 0 < bi < bf -> (i <= steps)%nat ->
  beta_at steps bi bf i <= bf.
Proof.
  intros Hs Hb Hi. pose proof (alpha_range steps bi bf Hs Hb) as Ha.
  assert (Ht0 : 0 < 1 / bi) by (apply Rdiv_lt_0_compat; lra).
  assert (Ht1 : 0 < 1 / bf) by (apply Rdiv_lt_0_compat; lra).
  pose proof (alpha_pow_steps steps (1 / bi) (1 / bf) Hs Ht0 Ht1) as Hend.
  unfold beta_at, default_cooling, exp_mult_cooling.
  set (a := exp _) in *.
  pose proof (pow_antitone_le a i steps Ha Hi) as Hle.
  assert (Hpi : 0 < a ^ i) by (apply pow_lt; lra).
  assert (Hti : 1 / bf <= 1 / bi * a ^ i) by nra.
  set (X := 1 / bi * a ^ i) in *.
  assert (Hinv : / X <= / (1 / bf)) by (apply Rinv_le_contravar; lra).
  assert (Hbf : / (1 / bf) = bf) by (field; lra).
  unfold Rdiv at 1. lra.
Qed.

(** C9. For [steps >= 1] and [0 < beta_init < beta_final], [get_betas]
    with the default exponential-multiplicative cooling (no custom
    alpha, [discrete = False]) returns a list of length [steps] whose
    first element is [beta_init], in which every element is at most its
    successor, and which stays at or below [beta_final]. *)
Theorem get_betas_monotone (steps : nat) (beta_init beta_final : R) :
  (1 <= steps)%nat ->
  0 < beta_init < beta_final ->
  exists betas,
    get_betas steps beta_init beta_final default_cooling false = Some betas
    /\ length betas = steps
    /\ nth 0 betas 0 = beta_init
    /\ (forall i, (S i < steps)%nat -> nth i betas 0 <= nth (S i) betas 0)
    /\ (forall i, (i < steps)%nat -> nth i betas 0 <= beta_final).
Proof.
  intros Hs Hb. eexists. split; [apply get_betas_default_eq|].
  split; [|split; [|split]].
  - unfold range. by rewrite length_map, length_seq.
  - rewrite nth_beta_at by lia. apply beta_at_0. lra.
  - intros i Hi. rewrite !nth_beta_at by lia. by apply beta_at_step.
  - intros i Hi. rewrite nth_beta_at by lia. apply beta_at_le_final; [done..|lia].
Qed.

Lemma get_betas_monotone_witness :
  (1 <= 3)%nat /\ 0 < 1 < 2 /\
  exists betas,
    get_betas 3 1 2 default_cooling false = Some betas
    /\ length betas = 3%nat
    /\ nth 0 betas 0 = 1
    /\ (forall i, (S i < 3)%nat -> nth i betas 0 <= nth (S i) betas 0)
    /\ (forall i, (i < 3)%nat -> nth i betas 0 <= 2).
Proof.
  split; [lia|]. split; [lra|].
  apply (get_betas_monotone 3 1 2); [lia | lra].
Defined.

(** ** Further properties of the schedules *)

Lemma alpha_lt_1 steps bi bf :
  (1 <= steps)%nat -> 0 < bi < bf ->
  0 < exp ((ln (1 / bf) - ln (1 / bi)) / INR steps) < 1.
Proof.
  intros Hs [Hbi Hlt]. split; [apply exp_pos|].
  assert (Hn : 0 < INR steps) by (apply lt_0_INR; lia).
  assert (Hln : ln (1 / bf) < ln (1 / bi)).
  { apply ln_increasing.
    - apply Rdiv_lt_0_compat; lra.
    - unfold Rdiv. rewrite !Rmult_1_l. apply Rinv_lt_contravar; [nra|lra]. }
  set (d := ln (1 / bf) - ln (1 / bi)) in *.
  assert (Hd : d < 0) by (unfold d; lra).
  assert (Hi : 0 < / INR steps) by (apply Rinv_0_lt_compat; exact Hn).
  assert (He : exp (d / INR steps) < exp 0).
  { apply exp_increasing. unfold Rdiv. nra. }
  rewrite exp_0 in He. exact He.
Qed.

Lemma pow_strict_antitone a i j :
  0 < a < 1 -> (i < j)%nat -> a ^ j < a ^ i.
Proof.
  intros Ha Hij. induction Hij as [|j Hij IH].
  - simpl. assert (0 < a ^ i) by (apply pow_lt; lra). nra.
  - simpl. assert (0 < a ^ j) by (apply pow_lt; lra). nra.
Qed.

Lemma beta_at_range steps bi bf i :
  (1 <= steps)%nat -> 0 < bi < bf -> (i < steps)%nat ->
  bi <= beta_at steps bi bf i < bf.
Proof.
  intros Hs Hb Hi. split.
  - rewrite <- (beta_at_0 steps bi bf) at 1 by lra.
    clear Hi. induction i as [|i IH]; [lra|].
    pose proof (beta_at_step steps bi bf i Hs Hb). lra.
  - pose proof (alpha_lt_1 steps bi bf Hs Hb) as Ha.
    assert (Ht0 : 0 < 1 / bi) by (apply Rdiv_lt_0_compat; lra).
    assert (Ht1 : 0 < 1 / bf) by (apply Rdiv_lt_0_compat; lra).
    pose proof (alpha_pow_steps steps (1 / bi) (1 / bf) Hs Ht0 Ht1) as Hend.
    unfold beta_at, default_cooling, exp_mult_cooling.
    set (a := exp _) in *.
    pose proof (pow_strict_antitone a i steps Ha Hi) as Hlt.
    assert (Hpi : 0 < a ^ i) by (apply pow_lt; lra).
    assert (Hti : 1 / bf < 1 / bi * a ^ i) by nra.
    set (X := 1 / bi * a ^ i) in *.
    assert (Hinv : / X < / (1 / bf)) by (apply Rinv_lt_contravar; nra).
    assert (Hbf : / (1 / bf) = bf) by (field; lra).
    unfold Rdiv at 1. lra.
Qed.

(** The default schedule stops short of [beta_final]: every inverse
    temperature returned lies in [[beta_init, beta_final)], while the
    cooling function reaches [1 / beta_final] only at [step =
    num_steps], the first step [range(steps)] leaves out. *)
Theorem get_betas_below_final (steps : nat) (beta_init beta_final : R) :
  (1 <= steps)%nat ->
  0 < beta_init < beta_final ->
  exists betas,
    get_betas steps beta_init beta_final default_cooling false = Some betas
    /\ Forall (fun b => beta_init <= b < beta_final) betas
    /\ exp_mult_cooling steps (1 / beta_init) (1 / beta_final) steps None
       = 1 / beta_final.
Proof.
  intros Hs Hb. eexists. split; [apply get_betas_default_eq|]. split.
  - apply Forall_map, Forall_forall. intros i Hi.
    apply beta_at_range; [done..|].
    unfold range in Hi. apply list_elem_of_In, in_seq in Hi. lia.
  - unfold exp_mult_cooling. apply alpha_pow_steps; [done|..];
      apply Rdiv_lt_0_compat; lra.
Qed.

Lemma get_betas_below_final_witness :
  (1 <= 3)%nat /\ 0 < 1 < 2 /\
  exists betas,
    get_betas 3 1 2 default_cooling false = Some betas
    /\ Forall (fun b => 1 <= b < 2) betas
    /\ exp_mult_cooling 3 (1 / 1) (1 / 2) 3 None = 1 / 2.
Proof.
  split; [lia|]. split; [lra|].
  apply (get_betas_below_final 3 1 2); [lia | lra].
Defined.

Lemma ratio_bounds (n step : nat) :
  (1 <= n)%nat -> (step <= n)%nat ->
  0 <= (INR n - INR step) / INR n <= 1.
Proof.
  intros Hn Hs.
  assert (H0 : 0 < INR n) by (apply lt_0_INR; lia).
  assert (H1 : INR step <= INR n) by (by apply le_INR).
  assert (H2 : 0 <= INR step) by apply pos_INR.
  split.
  - apply Rmult_le_pos; [lra|]. left. by apply Rinv_0_lt_compat.
  - apply Rmult_le_reg_r with (INR n); [exact H0|].
    unfold Rdiv. rewrite Rmult_assoc, Rinv_l by lra. lra.
Qed.

Lemma linear_additive_eq step t0 t1 n :
  linear_additive_cooling step t0 t1 n
  = t1 + (t0 - t1) * ((INR n - INR step) / INR n).
Proof. unfold linear_additive_cooling, Rdiv. ring. Qed.

Lemma linear_additive_cooling_start (t0 t1 : R) (num_steps : nat) :
  (1 <= num_steps)%nat -> linear_additive_cooling 0 t0 t1 num_steps = t0.
Proof.
  intros Hn.
  assert (H0 : 0 < INR num_steps) by (apply lt_0_INR; lia).
  unfold linear_additive_cooling. simpl. field. lra.
Qed.

Lemma linear_additive_cooling_step (t0 t1 : R) (num_steps step : nat) :
  (1 <= num_steps)%nat -> t1 <= t0 -> (step <= num_steps)%nat ->
  t1 <= linear_additive_cooling step t0 t1 num_steps <= t0
  /\ linear_additive_cooling (S step) t0 t1 num_steps
     <= linear_additive_cooling step t0 t1 num_steps.
Proof.
  intros Hn Ht Hs.
  assert (H0 : 0 < INR num_steps) by (apply lt_0_INR; lia).
  rewrite !linear_additive_eq.
  pose proof (ratio_bounds num_steps step Hn Hs) as [Hlo Hhi].
  split; [split; nra|].
  rewrite S_INR.
  assert (Hd : (INR num_steps - (INR step + 1)) / INR num_steps
               <= (INR num_steps - INR step) / INR num_steps).
  { unfold Rdiv. apply Rmult_le_compat_r; [|lra].
    left. by apply Rinv_0_lt_compat. }
  nra.
Qed.

(** With floats modelled as reals: the linear additive schedule starts
    at [t0], ends at [t1] after [num_steps] steps, and when cooling
    ([t1 <= t0]) decreases step by step without leaving [[t1, t0]]. *)
Theorem linear_additive_cooling_interpolates (t0 t1 : R) (num_steps : nat) :
  (1 <= num_steps)%nat ->
  t1 <= t0 ->
  linear_additive_cooling 0 t0 t1 num_steps = t0
  /\ linear_additive_cooling num_steps t0 t1 num_steps = t1
  /\ forall step, (step <= num_steps)%nat ->
       t1 <= linear_additive_cooling step t0 t1 num_steps <= t0
       /\ linear_additive_cooling (S step) t0 t1 num_steps
          <= linear_additive_cooling step t0 t1 num_steps.
Proof.
  intros Hn Ht.
  assert (H0 : 0 < INR num_steps) by (apply lt_0_INR; lia).
  split; [|split].
  - by apply linear_additive_cooling_start.
  - unfold linear_additive_cooling. field. lra.
  - intros step Hs. by apply linear_additive_cooling_step.
Qed.

Lemma linear_additive_cooling_interpolates_witness :
  (1 <= 4)%nat /\ 1 <= 3
  /\ linear_additive_cooling 0 3 1 4 = 3
  /\ linear_additive_cooling 4 3 1 4 = 1.
Proof.
  split; [lia|]. split; [lra|].
  destruct (linear_additive_cooling_interpolates 3 1 4 ltac:(lia) ltac:(lra))
    as (Ha & Hb & _).
  split; [exact Ha | exact Hb].
Defined.

(** With floats modelled as reals: the quadratic additive schedule has
    the same end points and, when cooling, runs between [t1] and the
    linear schedule. *)
Theorem quadratic_additive_cooling_below_linear (t0 t1 : R) (num_steps : nat) :
  (1 <= num_steps)%nat ->
  t1 <= t0 ->
  quadratic_additive_cooling 0 t0 t1 num_steps = t0
  /\ quadratic_additive_cooling num_steps t0 t1 num_steps = t1
  /\ forall step, (step <= num_steps)%nat ->
       t1 <= quadratic_additive_cooling step t0 t1 num_steps
          <= linear_additive_cooling step t0 t1 num_steps.
Proof.
  intros Hn Ht.
  assert (H0 : 0 < INR num_steps) by (apply lt_0_INR; lia).
  split; [|split].
  - unfold quadratic_additive_cooling. simpl. field. lra.
  - unfold quadratic_additive_cooling. field. lra.
  - intros step Hs. rewrite linear_additive_eq.
    unfold quadratic_additive_cooling.
    pose proof (ratio_bounds num_steps step Hn Hs) as [Hlo Hhi].
    set (r := (INR num_steps - INR step) / INR num_steps) in *.
    clearbody r. replace (r ^ 2) with (r * r) by ring.
    assert (Hrr : 0 <= r * r <= r) by nra.
    split; nra.
Qed.

Lemma quadratic_additive_cooling_below_linear_witness :
  (1 <= 4)%nat /\ 1 <= 3
  /\ quadratic_additive_cooling 0 3 1 4 = 3
  /\ quadratic_additive_cooling 4 3 1 4 = 1.
Proof.
  split; [lia|]. split; [lra|].
  destruct (quadratic_additive_cooling_below_linear 3 1 4 ltac:(lia) ltac:(lra))
    as (Ha & Hb & _).
  split; [exact Ha | exact Hb].
Defined.

(** With its default factor the linear multiplicative schedule starts
    at [t0] and then moves away from [t1]: above [t0] when [t1 < t0]
    (as long as the denominator stays positive), below [t0] when
    [t0 < t1]. *)
Theorem linear_multiplicative_cooling_moves_away
    (step : nat) (t0 t1 : R) (num_steps : nat) :
  (1 <= num_steps)%nat -> (1 <= step)%nat -> 0 < t0 -> 0 < t1 ->
  linear_multiplicative_cooling 0 t0 t1 num_steps None = t0
  /\ (t1 < t0 -> INR step * (t0 - t1) < INR num_steps * t1 ->
      t0 < linear_multiplicative_cooling step t0 t1 num_steps None)
  /\ (t0 < t1 ->
      linear_multiplicative_cooling step t0 t1 num_steps None < t0).
Proof.
  intros Hn Hs H0 H1.
  assert (HN : 0 < INR num_steps) by (apply lt_0_INR; lia).
  assert (HS : 1 <= INR step) by (change 1 with (INR 1); by apply le_INR).
  unfold linear_multiplicative_cooling.
  assert (Hnt : 0 < INR num_steps * t1) by nra.
  assert (HD : 1 + (t1 - t0) / (INR num_steps * t1) * INR step
               = (INR num_steps * t1 + (t1 - t0) * INR step)
                 / (INR num_steps * t1)) by (field; lra).
  split; [|split].
  - simpl. rewrite Rmult_0_r, Rplus_0_r. field.
  - intros Hlt Hpos. rewrite HD.
    set (num := INR num_steps * t1 + (t1 - t0) * INR step).
    assert (Hnum : 0 < num < INR num_steps * t1) by (unfold num; nra).
    assert (Hq : 0 < num / (INR num_steps * t1) < 1).
    { split.
      - apply Rdiv_lt_0_compat; lra.
      - apply Rmult_lt_reg_r with (INR num_steps * t1); [lra|].
        unfold Rdiv. rewrite Rmult_assoc, Rinv_l by lra. lra. }
    set (q := num / (INR num_steps * t1)) in *. clearbody q.
    apply Rmult_lt_reg_r with q; [lra|].
    unfold Rdiv. rewrite Rmult_assoc, Rinv_l by lra. nra.
  - intros Hlt. rewrite HD.
    set (num := INR num_steps * t1 + (t1 - t0) * INR step).
    assert (Hnum : INR num_steps * t1 < num) by (unfold num; nra).
    assert (Hq : 1 < num / (INR num_steps * t1)).
    { apply Rmult_lt_reg_r with (INR num_steps * t1); [lra|].
      unfold Rdiv. rewrite Rmult_assoc, Rinv_l by lra. lra. }
    set (q := num / (INR num_steps * t1)) in *. clearbody q.
    apply Rmult_lt_reg_r with q; [lra|].
    unfold Rdiv. rewrite Rmult_assoc, Rinv_l by lra. nra.
Qed.

Lemma linear_multiplicative_cooling_moves_away_witness :
  (1 <= 4)%nat /\ (1 <= 2)%nat /\ 0 < 3 /\ 0 < 2
  /\ 2 < 3 /\ INR 2 * (3 - 2) < INR 4 * 2
  /\ 3 < linear_multiplicative_cooling 2 3 2 4 None
  /\ linear_multiplicative_cooling 2 2 3 4 None < 2.
Proof.
  assert (Ha : INR 2 * (3 - 2) < INR 4 * 2) by (simpl; lra).
  destruct (linear_multiplicative_cooling_moves_away 2 3 2 4
              ltac:(lia) ltac:(lia) ltac:(lra) ltac:(lra)) as (_ & Hup & _).
  destruct (linear_multiplicative_cooling_moves_away 2 2 3 4
              ltac:(lia) ltac:(lia) ltac:(lra) ltac:(lra)) as (_ & _ & Hdown).
  split; [lia|]. split; [lia|]. split; [lra|]. split; [lra|].
  split; [lra|]. split; [exact Ha|]. split.
  - apply Hup; [lra | exact Ha].
  - apply Hdown. lra.
Defined.

Lemma nth_map_range (f : nat -> R) n i :
  (i < n)%nat -> nth i (map f (range n)) 0 = f i.
Proof.
  intros Hi. unfold range.
  rewrite (nth_indep _ 0 (f 0%nat)) by (by rewrite length_map, length_seq).
  rewrite (map_nth f). by rewrite seq_nth.
Qed.

Lemma linear_additive_temperature bi bf steps i :
  (1 <= steps)%nat -> 0 < bi < bf -> (i < steps)%nat ->
  1 / bf < linear_additive_cooling i (1 / bi) (1 / bf) steps <= 1 / bi
  /\ linear_additive_cooling (S i) (1 / bi) (1 / bf) steps
     <= linear_additive_cooling i (1 / bi) (1 / bf) steps.
Proof.
  intros Hs [Hbi Hlt] Hi.
  assert (Ht : 1 / bf < 1 / bi).
  { unfold Rdiv. rewrite !Rmult_1_l. apply Rinv_lt_contravar; [nra|lra]. }
  destruct (linear_additive_cooling_step (1 / bi) (1 / bf) steps i Hs
              ltac:(lra) ltac:(lia)) as [[Hlo Hhi] Hstep].
  split; [split; [|exact Hhi] | exact Hstep].
  rewrite linear_additive_eq.
  assert (HN : 0 < INR steps) by (apply lt_0_INR; lia).
  assert (HI : INR i < INR steps) by (by apply lt_INR).
  assert (Hr : 0 < (INR steps - INR i) / INR steps)
    by (apply Rdiv_lt_0_compat; lra).
  nra.
Qed.

(** [get_betas] with the linear additive cooling function: a list of
    length [steps] that starts at [beta_init], never decreases and
    stays below [beta_final]. *)
Theorem get_betas_linear_additive (steps : nat) (beta_init beta_final : R) :
  (1 <= steps)%nat ->
  0 < beta_init < beta_final ->
  exists betas,
    get_betas steps beta_init beta_final linear_additive_cooling false
    = Some betas
    /\ length betas = steps
    /\ nth 0 betas 0 = beta_init
    /\ (forall i, (S i < steps)%nat -> nth i betas 0 <= nth (S i) betas 0)
    /\ (forall i, (i < steps)%nat -> nth i betas 0 < beta_final).
Proof.
  intros Hs Hb.
  exists (map (fun i => 1 / linear_additive_cooling i (1 / beta_init)
                              (1 / beta_final) steps) (range steps)).
  assert (Hbf : 0 < 1 / beta_final) by (apply Rdiv_lt_0_compat; lra).
  split; [unfold get_betas; by rewrite map_map|].
  split; [unfold range; by rewrite length_map, length_seq|].
  split; [|split].
  - rewrite nth_map_range by lia.
    rewrite (linear_additive_cooling_start (1 / beta_init)
               (1 / beta_final) steps Hs).
    field. lra.
  - intros i Hi. rewrite !nth_map_range by lia.
    destruct (linear_additive_temperature beta_init beta_final steps i Hs Hb
                ltac:(lia)) as [[Hlo Hhi] Hstep].
    destruct (linear_additive_temperature beta_init beta_final steps (S i) Hs Hb
                ltac:(lia)) as [[Hlo' _] _].
    unfold Rdiv at 1 4. rewrite !Rmult_1_l.
    apply Rinv_le_contravar; lra.
  - intros i Hi. rewrite nth_map_range by lia.
    destruct (linear_additive_temperature beta_init beta_final steps i Hs Hb Hi)
      as [[Hlo Hhi] _].
    set (t := linear_additive_cooling i (1 / beta_init) (1 / beta_final) steps)
      in *.
    assert (Hinv : / t < / (1 / beta_final))
      by (apply Rinv_lt_contravar; nra).
    assert (Hb' : / (1 / beta_final) = beta_final) by (field; lra).
    unfold Rdiv at 1. lra.
Qed.

Lemma get_betas_linear_additive_witness :
  (1 <= 3)%nat /\ 0 < 1 < 2 /\
  exists betas,
    get_betas 3 1 2 linear_additive_cooling false = Some betas
    /\ length betas = 3%nat
    /\ nth 0 betas 0 = 1
    /\ (forall i, (S i < 3)%nat -> nth i betas 0 <= nth (S i) betas 0)
    /\ (forall i, (i < 3)%nat -> nth i betas 0 < 2).
Proof.
  split; [lia|]. split; [lra|].
  apply (get_betas_linear_additive 3 1 2); [lia | lra].
Defined.

End AnnealingSchedules.

(* ===================================================================== *)
(** * utils/file_io.py                                                    *)
(* ===================================================================== *)

Module FileIO.
Local Open Scope string_scope.
Local Arguments String.append : simpl nomatch.

(** ** Python string primitives used by the module *)

(** [s.split(c)] for a one-character separator: never the empty list. *)
Fixpoint split_on (c : ascii) (s : string) : list string :=
  match s with
  | EmptyString => [EmptyString]
  | String a s' =>
      if Ascii.eqb a c then EmptyString :: split_on c s'
      else match split_on c s' with
           | h :: t => String a h :: t
           | [] => [String a EmptyString]
           end
  end.

(** [s.endswith(suf)]. *)
Fixpoint endswith (s suf : string) : bool :=
  String.eqb s suf ||
  match s with
  | EmptyString => false
  | String _ s' => endswith s' suf
  end.

(** [s.startswith(c)] for a one-character prefix. *)
Definition startswith_char (s : string) (c : ascii) : bool :=
  match s with
  | EmptyString => false
  | String a _ => Ascii.eqb a c
  end.

(** ['/'.join(parts)]. *)
Fixpoint slash_join (parts : list string) : string :=
  match parts with
  | [] => EmptyString
  | [p] => p
  | p :: rest => p ++ "/" ++ slash_join rest
  end.

(** [os.path.join(a, b)] of posixpath, two arguments. *)
Definition os_path_join (a b : string) : string :=
  if startswith_char b "/" then b
  else if String.eqb a "" || endswith a "/" then a ++ b
  else a ++ "/" ++ b.

(** ** Exceptions and the file system *)

Inductive exn : Type :=
| IndexError
| ValueError.

Inductive result (A : Type) : Type :=
| Ok (a : A)
| Raise (e : exn).
Arguments Ok {A} a.
Arguments Raise {A} e.

Section Files.
(** The Python objects handed to the savers. *)
Variable data : Type.

(** What a regular file holds: a joblib dump or a NumPy array file. *)
Inductive content : Type :=
| JoblibDump (d : data)
| NpySave (d : data).

(** Regular files by path.  Paths are compared as strings; directories
    are taken to exist, so that a write never fails: in the code
    [joblib.dump] and [np.save] raise [FileNotFoundError] when the
    directory of the path they are given is missing. *)
Definition filesystem : Type := gmap string content.

(** [os.path.isfile]. *)
Definition isfile (fs : gmap string content) (p : string) : bool :=
  match fs !! p with
  | Some _ => true
  | None => false
  end.

(** [change_extension(fpath, ext)]: split at ['/'], split the last
    component at ['.'] into exactly two parts (a [ValueError] of the
    tuple unpacking otherwise), and join the directory with
    [fname.ext]. *)
Definition change_extension (fpath ext : string) : result string :=
  let tmp := split_on "/" fpath in
  let out_file := List.last tmp "" in
  match split_on "." out_file with
  | [fname; _] =>
      Ok (os_path_join (slash_join (removelast tmp)) (fname ++ "." ++ ext))
  | _ => Raise ValueError
  end.

(** [savez(obj, fpath)]: append ['.z'] unless already there, then
    [joblib.dump]. *)
Definition savez (fs : gmap string content) (obj : data) (fpath : string)
  : gmap string content :=
  let fpath := if endswith fpath ".z" then fpath else fpath ++ ".z" in
  <[fpath := JoblibDump obj]> fs.

(** The path [save_data] switches to when [out_file] exists:
    [tmp[0] + '_1' + '.' + tmp[1]] with [tmp = out_file.split('.')];
    [tmp[1]] raises [IndexError] when there is no ['.']. *)
Definition renamed (out_file : string) : result string :=
  match split_on "." out_file with
  | t0 :: t1 :: _ => Ok (t0 ++ "_1" ++ "." ++ t1)
  | _ => Raise IndexError
  end.

(** [save_data(data, out_file)].  Logging is not modelled; the
    directory of the path written is taken to exist. *)
Definition save_data (fs : gmap string content) (d : data) (out_file : string)
  : result (gmap string content) :=
  match (if isfile fs out_file then renamed out_file else Ok out_file) with
  | Raise e => Raise e
  | Ok out_file =>
      if endswith out_file ".pkl" then
        match change_extension out_file "z" with
        | Raise e => Raise e
        | Ok out_file => Ok (savez fs d out_file)
        end
      else if endswith out_file ".npy" then
        Ok (<[out_file := NpySave d]> fs)
      else
        Ok (savez fs d out_file)
  end.

End Files.

Arguments JoblibDump {data} d.
Arguments NpySave {data} d.
Arguments isfile {data} fs p.
Arguments savez {data} fs obj fpath.
Arguments save_data {data} fs d out_file.

(** ** The spec's reading of the rename *)

(** The path "with '_1' inserted before the extension": the text after
    the last ['.'] is the extension. *)
Fixpoint insert_1 (p : string) : string :=
  match p with
  | EmptyString => "_1"
  | String a p' =>
      if Ascii.eqb a "." && negb (existsb (Ascii.eqb ".") (list_ascii_of_string p'))
      then "_1" ++ p
      else String a (insert_1 p')
  end.

Example split_dot_1 : split_on "." "obs/plaqs.pkl" = ["obs/plaqs"; "pkl"].
Proof. reflexivity. Qed.
Example split_dot_2 : split_on "." "./obs/plaqs.pkl" = [""; "/obs/plaqs"; "pkl"].
Proof. reflexivity. Qed.
Example change_extension_1 :
  change_extension "obs/plaqs_1.pkl" "z" = Ok "obs/plaqs_1.z".
Proof. reflexivity. Qed.
Example change_extension_root :
  change_extension "/plaqs.pkl" "z" = Ok "plaqs.z".
Proof. reflexivity. Qed.
Example insert_1_ex : insert_1 "obs/plaqs.pkl" = "obs/plaqs_1.pkl".
Proof. reflexivity. Qed.
Example renamed_ex : renamed "obs/plaqs.pkl" = Ok "obs/plaqs_1.pkl".
Proof. reflexivity. Qed.
Example renamed_nodot : renamed "plaqs" = Raise IndexError.
Proof. reflexivity. Qed.

(** ** String lemmas *)

(** [c in s]. *)
Fixpoint contains (c : ascii) (s : string) : bool :=
  match s with
  | EmptyString => false
  | String a s' => Ascii.eqb a c || contains c s'
  end.

Lemma str_app_assoc (a b c : string) : (a ++ b) ++ c = a ++ (b ++ c).
Proof. induction a as [|x a IH]; simpl; [reflexivity | by rewrite IH]. Qed.

Lemma str_app_inv_head (a b c : string) : a ++ b = a ++ c -> b = c.
Proof. induction a as [|x a IH]; simpl; intros H; [exact H|]. injection H. exact IH. Qed.

Lemma contains_app c a b : contains c (a ++ b) = contains c a || contains c b.
Proof.
  induction a as [|x a IH]; simpl; [reflexivity|].
  by rewrite IH, orb_assoc.
Qed.

Lemma split_on_nonempty c s : split_on c s <> [].
Proof.
  destruct s as [|a s]; simpl; [discriminate|].
  destruct (Ascii.eqb a c); [discriminate|].
  destruct (split_on c s); discriminate.
Qed.

Lemma split_on_nochar c s : contains c s = false -> split_on c s = [s].
Proof.
  induction s as [|a s IH]; simpl; [reflexivity|].
  intros H. apply orb_false_iff in H as [Ha Hs].
  rewrite Ha, (IH Hs). reflexivity.
Qed.

Lemma split_on_app_sep c a b :
  contains c a = false -> split_on c (a ++ String c b) = a :: split_on c b.
Proof.
  induction a as [|x a IH]; simpl.
  - intros _. by rewrite Ascii.eqb_refl.
  - intros H. apply orb_false_iff in H as [Hx Ha].
    rewrite Hx, (IH Ha). reflexivity.
Qed.

(** Appending text without the separator only extends the last part. *)
Lemma split_on_app_tail c s t :
  contains c t = false ->
  split_on c (s ++ t)
  = (removelast (split_on c s) ++ [(List.last (split_on c s) "" ++ t)%string])%list.
Proof.
  intros Ht. induction s as [|a s IH]; simpl.
  - by rewrite (split_on_nochar c t Ht).
  - destruct (Ascii.eqb a c) eqn:Ha.
    + rewrite IH. pose proof (split_on_nonempty c s) as Hne.
      destruct (split_on c s) as [|h r]; [done|]. reflexivity.
    + rewrite IH. pose proof (split_on_nonempty c s) as Hne.
      destruct (split_on c s) as [|h r]; [done|].
      destruct r as [|h' r]; reflexivity.
Qed.

(** No part of a split contains a character the whole string lacks. *)
Lemma split_on_parts_nochar c d s part :
  contains d s = false -> In part (split_on c s) -> contains d part = false.
Proof.
  revert part. induction s as [|a s IH]; simpl; intros part Hd Hin.
  - destruct Hin as [<-|[]]. reflexivity.
  - apply orb_false_iff in Hd as [Ha Hs].
    destruct (Ascii.eqb a c).
    + destruct Hin as [<-|Hin]; [reflexivity | by apply IH].
    + pose proof (split_on_nonempty c s) as Hne.
      destruct (split_on c s) as [|h r]; [done|].
      destruct Hin as [<-|Hin].
      * simpl. rewrite Ha. apply IH; [exact Hs | by left].
      * apply IH; [exact Hs | by right].
Qed.

Lemma last_in {A} (l : list A) d : l <> [] -> In (List.last l d) l.
Proof.
  induction l as [|x l IH]; [done|]. intros _.
  destruct l as [|y l]; [by left|]. right. apply IH. discriminate.
Qed.

Lemma endswith_nochar c s e :
  contains c s = false -> endswith s (String c e) = false.
Proof.
  induction s as [|a s IH]; simpl; [reflexivity|].
  intros H. apply orb_false_iff in H as [Ha Hs].
  rewrite (IH Hs), Ha. reflexivity.
Qed.

Lemma endswith_app_sep c a x e :
  contains c x = false -> contains c e = false ->
  endswith (a ++ String c x) (String c e) = String.eqb x e.
Proof.
  intros Hx He. induction a as [|y a IH]; simpl.
  - rewrite Ascii.eqb_refl, (endswith_nochar c x e Hx). by rewrite orb_false_r.
  - rewrite IH. destruct (Ascii.eqb y c) eqn:Hy; [|reflexivity].
    destruct (String.eqb (a ++ String c x) e) eqn:Heq; [|reflexivity].
    apply String.eqb_eq in Heq. rewrite <- Heq, contains_app in He.
    simpl in He. rewrite Ascii.eqb_refl in He.
    rewrite orb_true_r in He. discriminate.
Qed.

(** [os.path.join] keeps its second argument as a suffix; what it puts
    in front is nothing, the first argument, or the first argument and
    a separator. *)
Lemma os_path_join_suffix a b :
  exists pre, os_path_join a b = pre ++ b
              /\ (pre = "" \/ pre = a \/ pre = a ++ "/").
Proof.
  unfold os_path_join. destruct (startswith_char b "/").
  - exists "". auto.
  - destruct (String.eqb a "" || endswith a "/").
    + exists a. auto.
    + exists (a ++ "/"). rewrite str_app_assoc. auto.
Qed.

(** The head of a split holds no separator, and the rest is the split
    of what follows the first separator. *)
Lemma split_on_cons c s h t :
  split_on c s = h :: t ->
  contains c h = false
  /\ ((t = [] /\ s = h)
      \/ exists s', s = h ++ String c s' /\ split_on c s' = t).
Proof.
  revert h t. induction s as [|a s IH]; simpl; intros h t H.
  - injection H as <- <-. auto.
  - destruct (Ascii.eqb a c) eqn:Ha.
    + injection H as <- <-. apply Ascii.eqb_eq in Ha as ->.
      split; [reflexivity|]. right. by exists s.
    + pose proof (split_on_nonempty c s) as Hne.
      destruct (split_on c s) as [|h' t'] eqn:Hs; [done|].
      injection H as <- <-.
      destruct (IH h' t' eq_refl) as [Hh [[-> ->]|(s' & -> & Hs')]].
      * simpl. rewrite Ha, Hh. auto.
      * simpl. rewrite Ha, Hh. split; [reflexivity|]. right. by exists s'.
Qed.

Lemma in_removelast {A} (x : A) (l : list A) : In x (removelast l) -> In x l.
Proof.
  induction l as [|y l IH]; simpl; [done|].
  destruct l as [|z l]; [done|]. intros [->|H]; [by left | right; by apply IH].
Qed.

Lemma contains_slash_join c parts :
  Ascii.eqb "/" c = false ->
  (forall part, In part parts -> contains c part = false) ->
  contains c (slash_join parts) = false.
Proof.
  intros Hc. induction parts as [|q parts IH]; intros Hall; [reflexivity|].
  destruct parts as [|q' parts]; [apply Hall; by left|].
  change (slash_join (q :: q' :: parts))
    with (q ++ String "/" (slash_join (q' :: parts))).
  rewrite contains_app. cbn [contains].
  rewrite Hc, (Hall q) by (by left). cbn [orb].
  apply IH. intros part Hin. apply Hall. by right.
Qed.

(** ** [save_data] on an existing file *)

(** Where [save_data] puts the data when [stem.ext] exists, and in which
    format: ['.npy'] goes through [np.save] under the renamed path,
    ['.pkl'] through [change_extension] to ['.z'], everything else
    through [savez], which appends ['.z'] unless it is already there. *)
Definition saved_as {data} (stem ext : string) (d : data)
  : string * content data :=
  if String.eqb ext "pkl" then
    (os_path_join (slash_join (removelast (split_on "/" stem)))
                  ((List.last (split_on "/" stem) "" ++ "_1") ++ "." ++ "z"),
     JoblibDump d)
  else if String.eqb ext "npy" then (stem ++ "_1" ++ "." ++ ext, NpySave d)
  else if String.eqb ext "z" then (stem ++ "_1" ++ "." ++ ext, JoblibDump d)
  else ((stem ++ "_1" ++ "." ++ ext) ++ ".z", JoblibDump d).

Example saved_as_pkl :
  saved_as "obs/plaqs" "pkl" 0%nat = ("obs/plaqs_1.z", JoblibDump 0%nat).
Proof. reflexivity. Qed.
Example saved_as_npy :
  saved_as "obs/plaqs" "npy" 0%nat = ("obs/plaqs_1.npy", NpySave 0%nat).
Proof. reflexivity. Qed.
Example saved_as_txt :
  saved_as "obs/plaqs" "txt" 0%nat = ("obs/plaqs_1.txt.z", JoblibDump 0%nat).
Proof. reflexivity. Qed.

Lemma renamed_single_dot stem ext :
  contains "." stem = false -> contains "." ext = false ->
  renamed (stem ++ "." ++ ext) = Ok (stem ++ "_1" ++ "." ++ ext).
Proof.
  intros Hs He. unfold renamed.
  change (stem ++ "." ++ ext) with (stem ++ String "." ext).
  by rewrite (split_on_app_sep "." stem ext Hs), (split_on_nochar "." ext He).
Qed.

Lemma endswith_renamed stem ext e :
  contains "." ext = false -> contains "." e = false ->
  endswith (stem ++ "_1" ++ "." ++ ext) (String "." e) = String.eqb ext e.
Proof.
  intros He He'.
  change (stem ++ "_1" ++ "." ++ ext) with (stem ++ "_1" ++ String "." ext).
  rewrite <- str_app_assoc. by apply endswith_app_sep.
Qed.

Lemma change_extension_renamed_pkl stem :
  contains "." stem = false ->
  change_extension (stem ++ "_1" ++ "." ++ "pkl") "z"
  = Ok (os_path_join (slash_join (removelast (split_on "/" stem)))
                     ((List.last (split_on "/" stem) "" ++ "_1") ++ "." ++ "z")).
Proof.
  intros Hs. unfold change_extension.
  rewrite (split_on_app_tail "/" stem ("_1" ++ "." ++ "pkl")) by reflexivity.
  rewrite last_last, removelast_last.
  set (L := List.last (split_on "/" stem) "").
  assert (HL : contains "." L = false).
  { apply (split_on_parts_nochar "/" "." stem); [exact Hs|].
    apply last_in, split_on_nonempty. }
  change (L ++ "_1" ++ "." ++ "pkl") with (L ++ "_1" ++ String "." "pkl").
  rewrite <- str_app_assoc.
  rewrite (split_on_app_sep "." (L ++ "_1") "pkl").
  2:{ rewrite contains_app, HL. reflexivity. }
  reflexivity.
Qed.

Lemma endswith_os_path_join a b x e :
  contains "." x = false -> contains "." e = false ->
  endswith (os_path_join a (b ++ "." ++ x)) (String "." e) = String.eqb x e.
Proof.
  intros Hx He. destruct (os_path_join_suffix a (b ++ "." ++ x)) as (pre & -> & _).
  change (b ++ "." ++ x) with (b ++ String "." x).
  rewrite <- str_app_assoc. by apply endswith_app_sep.
Qed.

Lemma endswith_single_dot stem ext e :
  contains "." ext = false -> contains "." e = false ->
  endswith (stem ++ "." ++ ext) (String "." e) = String.eqb ext e.
Proof.
  intros. change (stem ++ "." ++ ext) with (stem ++ String "." ext).
  by apply endswith_app_sep.
Qed.

(** The renamed target is never the existing path itself. *)
Lemma saved_as_fresh {data} stem ext (d : data) :
  contains "." ext = false ->
  fst (saved_as stem ext d) <> stem ++ "." ++ ext.
Proof.
  intros He. unfold saved_as.
  destruct (String.eqb ext "pkl") eqn:Hpkl.
  - apply String.eqb_eq in Hpkl as ->. cbv beta iota delta [fst]. intros Heq.
    assert (H1 : endswith (stem ++ "." ++ "pkl") ".pkl" = true)
      by (by rewrite endswith_single_dot).
    rewrite <- Heq, endswith_os_path_join in H1 by reflexivity.
    discriminate.
  - assert (Hneq : forall t, stem ++ "_1" ++ t <> stem ++ "." ++ ext).
    { intros t Heq. apply str_app_inv_head in Heq. discriminate. }
    destruct (String.eqb ext "npy"); [apply Hneq|].
    destruct (String.eqb ext "z"); [apply Hneq|].
    cbv beta iota delta [fst]. rewrite !str_app_assoc. apply Hneq.
Qed.

Lemma save_data_single_dot {data} (fs : gmap string (content data))
    (d : data) (stem ext : string) :
  contains "." stem = false -> contains "." ext = false ->
  isfile fs (stem ++ "." ++ ext) = true ->
  save_data fs d (stem ++ "." ++ ext)
  = Ok (<[fst (saved_as stem ext d) := snd (saved_as stem ext d)]> fs).
Proof.
  intros Hs He Hfile. unfold save_data. rewrite Hfile.
  rewrite (renamed_single_dot stem ext Hs He).
  rewrite (endswith_renamed stem ext "pkl" He) by reflexivity.
  unfold saved_as.
  destruct (String.eqb ext "pkl") eqn:Hpkl.
  - apply String.eqb_eq in Hpkl as ->.
    rewrite (change_extension_renamed_pkl stem Hs).
    unfold savez. by rewrite endswith_os_path_join.
  - rewrite (endswith_renamed stem ext "npy" He) by reflexivity.
    destruct (String.eqb ext "npy") eqn:Hnpy; [reflexivity|].
    unfold savez. rewrite (endswith_renamed stem ext "z" He) by reflexivity.
    destruct (String.eqb ext "z"); reflexivity.
Qed.

Lemma change_extension_renamed_pkl_split t0 :
  contains "." t0 = false ->
  exists q0,
    change_extension (t0 ++ "_1" ++ "." ++ "pkl") "z" = Ok (q0 ++ String "." "z")
    /\ contains "." q0 = false.
Proof.
  intros Ht0. rewrite (change_extension_renamed_pkl t0 Ht0).
  set (parts := split_on "/" t0).
  assert (Hparts : forall part, In part parts -> contains "." part = false).
  { intros part Hin. by apply (split_on_parts_nochar "/" "." t0). }
  assert (HD : contains "." (slash_join (removelast parts)) = false).
  { apply contains_slash_join; [reflexivity|].
    intros part Hin. by apply Hparts, in_removelast. }
  assert (HL : contains "." (List.last parts "") = false).
  { apply Hparts, last_in, split_on_nonempty. }
  destruct (os_path_join_suffix (slash_join (removelast parts))
              ((List.last parts "" ++ "_1") ++ "." ++ "z"))
    as (pre & -> & Hpre).
  exists (pre ++ List.last parts "" ++ "_1"). split.
  - by rewrite !str_app_assoc.
  - rewrite !contains_app, HL.
    destruct Hpre as [->|[->| ->]]; [reflexivity| |].
    + by rewrite HD.
    + by rewrite contains_app, HD.
Qed.

(** Whatever the path, a successful [save_data] on an existing file
    leaves that file as it was (and a failing one writes nothing). *)
Lemma save_data_frame {data} (fs : gmap string (content data))
    (d : data) (p : string) :
  isfile fs p = true ->
  match save_data fs d p with
  | Ok fs' => fs' !! p = fs !! p
  | Raise _ => True
  end.
Proof.
  intros Hfile. unfold save_data. rewrite Hfile. unfold renamed.
  destruct (split_on "." p) as [|t0 [|t1 rest]] eqn:Hsp; [done|done|].
  destruct (split_on_cons "." p t0 (t1 :: rest) Hsp)
    as [Ht0 [[? ?]|(s' & Hp & Hs')]]; [discriminate|].
  destruct (split_on_cons "." s' t1 rest Hs') as [Ht1 _].
  assert (Hneq : forall X, t0 ++ "_1" ++ X <> p).
  { intros X Heq. rewrite Hp in Heq. apply str_app_inv_head in Heq.
    discriminate. }
  rewrite (endswith_renamed t0 t1 "pkl" Ht1) by reflexivity.
  destruct (String.eqb t1 "pkl") eqn:Hpkl.
  - apply String.eqb_eq in Hpkl. subst t1.
    destruct (change_extension_renamed_pkl_split t0 Ht0) as (q0 & -> & Hq0).
    unfold savez.
    rewrite (endswith_app_sep "." q0 "z" "z") by reflexivity.
    change (String.eqb "z" "z") with true. cbv iota.
    apply lookup_insert_ne. intros Heq.
    assert (Hq : split_on "." (q0 ++ String "." "z") = [q0; "z"]).
    { by rewrite (split_on_app_sep "." q0 "z" Hq0). }
    rewrite Heq, Hsp in Hq. discriminate.
  - rewrite (endswith_renamed t0 t1 "npy" Ht1) by reflexivity.
    destruct (String.eqb t1 "npy").
    + apply lookup_insert_ne, Hneq.
    + unfold savez. destruct (endswith _ ".z").
      * apply lookup_insert_ne, Hneq.
      * apply lookup_insert_ne. rewrite !str_app_assoc. apply Hneq.
Qed.

(** The guard looks at [out_file] itself, the savers write elsewhere: a
    second save under the same ['.pkl'] name replaces the ['.z'] file
    of the first. *)
Example save_data_twice_replaces :
  exists fs1 fs2,
    save_data (∅ : gmap string (content nat)) 7%nat "obs/plaqs.pkl" = Ok fs1
    /\ fs1 !! "obs/plaqs.z" = Some (JoblibDump 7%nat)
    /\ save_data fs1 8%nat "obs/plaqs.pkl" = Ok fs2
    /\ fs2 !! "obs/plaqs.z" = Some (JoblibDump 8%nat).
Proof.
  do 2 eexists. split; [reflexivity|]. split; [reflexivity|].
  split; reflexivity.
Qed.

Definition fs_plaqs : gmap string (content nat) :=
  {[ "obs/plaqs.pkl" := JoblibDump 7%nat ]}.

(** C10 (as stated) fails: with ["obs/plaqs.pkl"] present, the data does
    not land under ["obs/plaqs_1.pkl"], the path with ['_1'] before the
    extension, but under ["obs/plaqs_1.z"]. *)
Lemma save_data_pkl_not_insert_1 :
  isfile fs_plaqs "obs/plaqs.pkl" = true
  /\ insert_1 "obs/plaqs.pkl" = "obs/plaqs_1.pkl"
  /\ exists fs',
       save_data fs_plaqs 8%nat "obs/plaqs.pkl" = Ok fs'
       /\ fs' !! insert_1 "obs/plaqs.pkl" = None
       /\ fs' !! "obs/plaqs_1.z" = Some (JoblibDump 8%nat).
Proof.
  split; [reflexivity|]. split; [reflexivity|].
  eexists. split; [reflexivity|]. split; reflexivity.
Qed.

(** ** Further string lemmas *)

(** The number of occurrences of [c] in [s]. *)
Fixpoint count_char (c : ascii) (s : string) : nat :=
  match s with
  | EmptyString => 0
  | String a s' => (if Ascii.eqb a c then 1 else 0) + count_char c s'
  end.

Lemma split_on_length c s : length (split_on c s) = S (count_char c s).
Proof.
  induction s as [|a s IH]; simpl; [reflexivity|].
  destruct (Ascii.eqb a c); simpl; [by rewrite IH|].
  pose proof (split_on_nonempty c s) as Hne.
  destruct (split_on c s) as [|h t]; [done|]. exact IH.
Qed.

Lemma split_on_app c a b :
  split_on c (a ++ String c b) = (split_on c a ++ split_on c b)%list.
Proof.
  induction a as [|x a IH]; simpl.
  - by rewrite Ascii.eqb_refl.
  - destruct (Ascii.eqb x c); [by rewrite IH|].
    rewrite IH. pose proof (split_on_nonempty c a) as Hne.
    destruct (split_on c a) as [|h t]; [done|]. reflexivity.
Qed.

Lemma slash_join_cons_char a h t :
  slash_join (String a h :: t) = String a (slash_join (h :: t)).
Proof. destruct t; reflexivity. Qed.

(** ['/'.join(s.split('/'))] gives [s] back. *)
Lemma slash_join_split s : slash_join (split_on "/" s) = s.
Proof.
  induction s as [|a s IH]; [reflexivity|]. simpl.
  pose proof (split_on_nonempty "/" s) as Hne.
  destruct (Ascii.eqb a "/") eqn:Ha.
  - apply Ascii.eqb_eq in Ha as ->.
    destruct (split_on "/" s) as [|h t]; [done|].
    change (slash_join ("" :: h :: t)) with ("" ++ "/" ++ slash_join (h :: t)).
    by rewrite IH.
  - destruct (split_on "/" s) as [|h t]; [done|].
    by rewrite slash_join_cons_char, IH.
Qed.

Lemma endswith_app_self s suf : endswith (s ++ suf) suf = true.
Proof.
  induction s as [|a s IH]; simpl.
  - destruct suf; simpl; [reflexivity|].
    by rewrite Ascii.eqb_refl, String.eqb_refl.
  - rewrite IH. apply orb_true_r.
Qed.

Lemma endswith_inv s suf :
  endswith s suf = true -> exists pre, s = pre ++ suf.
Proof.
  induction s as [|a s IH]; cbn [endswith].
  - rewrite orb_false_r. intros H%String.eqb_eq. by exists "".
  - intros [H%String.eqb_eq|H]%orb_true_iff.
    + by exists "".
    + destruct (IH H) as [pre ->]. by exists (String a pre).
Qed.

(** A name ending in ['.z'] does not end in ['.pkl']. *)
Lemma endswith_z_not_pkl q :
  endswith q ".z" = true -> endswith q ".pkl" = false.
Proof.
  intros [pre ->]%endswith_inv.
  by rewrite (endswith_app_sep "." pre "z" "pkl").
Qed.

Lemma startswith_char_clean n t :
  contains "/" n = false -> startswith_char (n ++ String "." t) "/" = false.
Proof.
  destruct n as [|a n]; simpl; [reflexivity|].
  by intros [Ha _]%orb_false_iff.
Qed.

(** ** [change_extension] *)

(** On a path whose last component is [name.old], both free of ['/']
    and ['.'], the new path is the directory joined with [name.ext]. *)
Lemma change_extension_in_dir dir name old ext :
  contains "/" name = false -> contains "." name = false ->
  contains "/" old = false -> contains "." old = false ->
  change_extension (dir ++ "/" ++ name ++ "." ++ old) ext
  = Ok (os_path_join dir (name ++ "." ++ ext)).
Proof.
  intros Hn1 Hn2 Ho1 Ho2. unfold change_extension.
  change (dir ++ "/" ++ name ++ "." ++ old)
    with (dir ++ String "/" (name ++ String "." old)).
  rewrite split_on_app.
  rewrite (split_on_nochar "/" (name ++ String "." old)).
  2:{ rewrite contains_app. simpl. by rewrite Hn1, Ho1. }
  rewrite last_last, removelast_last, slash_join_split.
  by rewrite (split_on_app_sep "." name old Hn2), (split_on_nochar "." old Ho2).
Qed.

Lemma change_extension_bare name old ext :
  contains "/" name = false -> contains "." name = false ->
  contains "/" old = false -> contains "." old = false ->
  change_extension (name ++ "." ++ old) ext = Ok (name ++ "." ++ ext).
Proof.
  intros Hn1 Hn2 Ho1 Ho2. unfold change_extension.
  change (name ++ "." ++ old) with (name ++ String "." old).
  rewrite (split_on_nochar "/" (name ++ String "." old)).
  2:{ rewrite contains_app. simpl. by rewrite Hn1, Ho1. }
  cbn [List.last removelast slash_join].
  rewrite (split_on_app_sep "." name old Hn2), (split_on_nochar "." old Ho2).
  unfold os_path_join.
  change (name ++ "." ++ ext) with (name ++ String "." ext).
  by rewrite (startswith_char_clean name ext Hn1).
Qed.

(** Changing the extension keeps the directory and the name, and
    changing it back restores the path. *)
Theorem change_extension_round_trip (dir name old ext : string) :
  dir <> "" -> endswith dir "/" = false ->
  contains "/" name = false -> contains "." name = false ->
  contains "/" old = false -> contains "." old = false ->
  contains "/" ext = false -> contains "." ext = false ->
  change_extension (dir ++ "/" ++ name ++ "." ++ old) ext
  = Ok (dir ++ "/" ++ name ++ "." ++ ext)
  /\ change_extension (dir ++ "/" ++ name ++ "." ++ ext) old
     = Ok (dir ++ "/" ++ name ++ "." ++ old).
Proof.
  intros Hd1 Hd2 Hn1 Hn2 Ho1 Ho2 He1 He2.
  assert (Hjoin : forall t, os_path_join dir (name ++ "." ++ t)
                            = dir ++ "/" ++ name ++ "." ++ t).
  { intros t. unfold os_path_join.
    change (name ++ "." ++ t) with (name ++ String "." t).
    rewrite (startswith_char_clean name t Hn1), Hd2.
    apply String.eqb_neq in Hd1. by rewrite Hd1. }
  rewrite !change_extension_in_dir by done. by rewrite !Hjoin.
Qed.

Lemma change_extension_round_trip_witness :
  "obs" <> "" /\ endswith "obs" "/" = false
  /\ change_extension ("obs" ++ "/" ++ "plaqs" ++ "." ++ "pkl") "z"
     = Ok ("obs" ++ "/" ++ "plaqs" ++ "." ++ "z")
  /\ change_extension ("obs" ++ "/" ++ "plaqs" ++ "." ++ "z") "pkl"
     = Ok ("obs" ++ "/" ++ "plaqs" ++ "." ++ "pkl").
Proof.
  split; [discriminate|]. split; [reflexivity|].
  apply (change_extension_round_trip "obs" "plaqs" "pkl" "z");
    (discriminate || reflexivity).
Defined.

(** A file directly under the root loses the leading ['/']: its new
    path is the one of the same file name without a directory. *)
Theorem change_extension_root_relative (name old ext : string) :
  contains "/" name = false -> contains "." name = false ->
  contains "/" old = false -> contains "." old = false ->
  change_extension ("/" ++ name ++ "." ++ old) ext = Ok (name ++ "." ++ ext)
  /\ change_extension (name ++ "." ++ old) ext = Ok (name ++ "." ++ ext).
Proof.
  intros Hn1 Hn2 Ho1 Ho2. split; [|by apply change_extension_bare].
  change ("/" ++ name ++ "." ++ old) with ("" ++ "/" ++ name ++ "." ++ old).
  rewrite change_extension_in_dir by done.
  unfold os_path_join.
  change (name ++ "." ++ ext) with (name ++ String "." ext).
  by rewrite (startswith_char_clean name ext Hn1).
Qed.

Lemma change_extension_root_relative_witness :
  contains "/" "plaqs" = false /\ contains "." "plaqs" = false
  /\ contains "/" "pkl" = false /\ contains "." "pkl" = false
  /\ change_extension ("/" ++ "plaqs" ++ "." ++ "pkl") "z"
     = Ok ("plaqs" ++ "." ++ "z").
Proof.
  repeat (split; [reflexivity|]).
  apply (change_extension_root_relative "plaqs" "pkl" "z"); reflexivity.
Defined.

(** [change_extension] succeeds exactly when the last component of the
    path holds one ['.']; otherwise the unpacking raises [ValueError]. *)
Theorem change_extension_value_error (fpath ext : string) :
  let dots := count_char "." (List.last (split_on "/" fpath) "") in
  (dots = 1%nat -> exists q, change_extension fpath ext = Ok q)
  /\ (dots <> 1%nat -> change_extension fpath ext = Raise ValueError).
Proof.
  intros dots. unfold change_extension.
  pose proof (split_on_length "." (List.last (split_on "/" fpath) "")) as Hlen.
  fold dots in Hlen.
  destruct (split_on "." (List.last (split_on "/" fpath) ""))
    as [|a [|b [|c l]]]; simpl in Hlen; split; intros H; try lia;
    try reflexivity.
  by eexists.
Qed.

Lemma change_extension_value_error_witness :
  count_char "." (List.last (split_on "/" "logs.v2/plaqs") "") <> 1%nat
  /\ change_extension "logs.v2/plaqs" "z" = Raise ValueError
  /\ count_char "." (List.last (split_on "/" "logs.v2/plaqs.pkl") "") = 1%nat
  /\ exists q, change_extension "logs.v2/plaqs.pkl" "z" = Ok q.
Proof.
  assert (H0 : count_char "." (List.last (split_on "/" "logs.v2/plaqs") "")
               <> 1%nat) by (simpl; lia).
  assert (H1 : count_char "." (List.last (split_on "/" "logs.v2/plaqs.pkl") "")
               = 1%nat) by reflexivity.
  split; [exact H0|].
  split; [exact (proj2 (change_extension_value_error "logs.v2/plaqs" "z") H0)|].
  split; [exact H1|].
  exact (proj1 (change_extension_value_error "logs.v2/plaqs.pkl" "z") H1).
Defined.

(** ** [save_data] on an existing file, in its directory *)

(** The extension the savers leave on the renamed path [stem_1.ext]:
    [np.save] keeps ['.npy'], [change_extension] turns ['.pkl'] into
    ['.z'], [savez] keeps ['.z'] and appends it to anything else. *)
Definition saved_suffix (ext : string) : string :=
  if String.eqb ext "pkl" then ".z"
  else if String.eqb ext "npy" then ".npy"
  else if String.eqb ext "z" then ".z"
  else "." ++ ext ++ ".z".

(** What is written: an array file by [np.save], a dump by
    [joblib.dump]. *)
Definition saved_content {data} (ext : string) (d : data) : content data :=
  if String.eqb ext "npy" then NpySave d else JoblibDump d.

(** The part of a path before the file name: nothing, or a directory
    followed by ['/'] (the directory itself not empty and without a
    trailing ['/']). *)
Definition in_dir (pre : string) : Prop :=
  pre = "" \/ exists dir, pre = dir ++ "/" /\ dir <> "" /\ endswith dir "/" = false.

Lemma saved_as_in_dir {data} (pre name ext : string) (d : data) :
  in_dir pre -> contains "." pre = false ->
  contains "/" name = false -> contains "." name = false ->
  contains "/" ext = false -> contains "." ext = false ->
  saved_as (pre ++ name) ext d
  = (pre ++ name ++ "_1" ++ saved_suffix ext, saved_content ext d).
Proof.
  intros Hpre Hp Hn1 Hn2 He1 He2. unfold saved_as, saved_suffix, saved_content.
  destruct (String.eqb ext "pkl") eqn:Hpkl.
  - apply String.eqb_eq in Hpkl. subst ext. cbn [String.eqb Ascii.eqb Bool.eqb].
    f_equal.
    assert (Hstem : contains "." (pre ++ name) = false)
      by (by rewrite contains_app, Hp, Hn2).
    pose proof (change_extension_renamed_pkl (pre ++ name) Hstem) as Hce.
    assert (Hn1' : contains "/" (name ++ "_1") = false)
      by (by rewrite contains_app, Hn1).
    assert (Hn2' : contains "." (name ++ "_1") = false)
      by (by rewrite contains_app, Hn2).
    destruct Hpre as [->|(dir & -> & Hd1 & Hd2)].
    + change ("" ++ name) with name in *.
      pose proof (change_extension_bare (name ++ "_1") "pkl" "z"
                    Hn1' Hn2' eq_refl eq_refl) as Hb.
      rewrite str_app_assoc in Hb. rewrite Hb in Hce.
      injection Hce as Hce. etransitivity; [symmetry; exact Hce|].
      by rewrite !str_app_assoc.
    + pose proof (change_extension_in_dir dir (name ++ "_1") "pkl" "z"
                    Hn1' Hn2' eq_refl eq_refl) as Hb.
      rewrite (str_app_assoc name "_1" ("." ++ "pkl")) in Hb.
      rewrite <- (str_app_assoc "/" name ("_1" ++ "." ++ "pkl")) in Hb.
      rewrite <- (str_app_assoc dir ("/" ++ name) ("_1" ++ "." ++ "pkl")) in Hb.
      rewrite <- (str_app_assoc dir "/" name) in Hb.
      rewrite Hb in Hce.
      injection Hce as Hce. etransitivity; [symmetry; exact Hce|].
      unfold os_path_join.
      change ((name ++ "_1") ++ "." ++ "z")
        with ((name ++ "_1") ++ String "." "z").
      rewrite (startswith_char_clean (name ++ "_1") "z" Hn1'), Hd2.
      apply String.eqb_neq in Hd1. rewrite Hd1. cbn [orb].
      by rewrite !str_app_assoc.
  - destruct (String.eqb ext "npy") eqn:Hnpy.
    { apply String.eqb_eq in Hnpy. subst ext. by rewrite !str_app_assoc. }
    destruct (String.eqb ext "z") eqn:Hz.
    { apply String.eqb_eq in Hz. subst ext. by rewrite !str_app_assoc. }
    by rewrite !str_app_assoc.
Qed.

(** C10 (amended). When [out_file] names an existing file, a call of
    [save_data] that returns leaves that file's contents unchanged.
    When moreover [out_file] is [name.ext], alone or in a directory,
    with no ['.'] but the one before [ext], the call gets through the
    renaming and the extension handling without an exception and
    writes the data in the same directory, hence in a directory that
    exists, under [name_1] and the extension as the savers treat it
    (['.npy'] kept, ['.pkl'] turned into ['.z'], ['.z'] kept, any other
    extension followed by ['.z']); that path differs from [out_file]. *)
Theorem save_data_existing {data} (fs : gmap string (content data))
    (d : data) (out_file : string) :
  isfile fs out_file = true ->
  match save_data fs d out_file with
  | Ok fs' => fs' !! out_file = fs !! out_file
  | Raise _ => True
  end
  /\ forall pre name ext,
       out_file = pre ++ name ++ "." ++ ext ->
       in_dir pre -> contains "." pre = false ->
       contains "/" name = false -> contains "." name = false ->
       contains "/" ext = false -> contains "." ext = false ->
       save_data fs d out_file
       = Ok (<[pre ++ name ++ "_1" ++ saved_suffix ext
               := saved_content ext d]> fs)
       /\ pre ++ name ++ "_1" ++ saved_suffix ext <> out_file.
Proof.
  intros Hfile. split; [by apply save_data_frame|].
  intros pre name ext -> Hpre Hp Hn1 Hn2 He1 He2.
  assert (Hstem : contains "." (pre ++ name) = false)
    by (by rewrite contains_app, Hp, Hn2).
  rewrite <- (str_app_assoc pre name ("." ++ ext)) in Hfile |- *.
  split.
  - rewrite (save_data_single_dot fs d (pre ++ name) ext Hstem He2 Hfile).
    by rewrite (saved_as_in_dir pre name ext d).
  - intros Heq. rewrite str_app_assoc in Heq.
    do 2 apply str_app_inv_head in Heq.
    unfold saved_suffix in Heq. discriminate.
Qed.

Lemma save_data_existing_witness :
  isfile fs_plaqs "obs/plaqs.pkl" = true
  /\ in_dir "obs/"
  /\ save_data fs_plaqs 8%nat "obs/plaqs.pkl"
     = Ok (<["obs/plaqs_1.z" := JoblibDump 8%nat]> fs_plaqs)
  /\ (<["obs/plaqs_1.z" := JoblibDump 8%nat]> fs_plaqs) !! "obs/plaqs.pkl"
     = fs_plaqs !! "obs/plaqs.pkl".
Proof.
  assert (Hfile : isfile fs_plaqs "obs/plaqs.pkl" = true) by reflexivity.
  assert (Hdir : in_dir "obs/").
  { right. exists "obs". split; [reflexivity|]. split; [discriminate|reflexivity]. }
  destruct (save_data_existing fs_plaqs 8%nat "obs/plaqs.pkl" Hfile)
    as [Hframe Htarget].
  destruct (Htarget "obs/" "plaqs" "pkl" eq_refl Hdir eq_refl eq_refl eq_refl
              eq_refl eq_refl) as [Hsave _].
  split; [exact Hfile|]. split; [exact Hdir|]. split; [exact Hsave|].
  rewrite Hsave in Hframe. exact Hframe.
Defined.

(** ** What the savers write *)

Lemma savez_target {data} (fs : gmap string (content data)) obj fpath :
  exists target,
    savez fs obj fpath = <[target := JoblibDump obj]> fs
    /\ endswith target ".z" = true.
Proof.
  unfold savez. destruct (endswith fpath ".z") eqn:Hz.
  - by exists fpath.
  - exists (fpath ++ ".z"). split; [reflexivity | apply endswith_app_self].
Qed.

(** [savez] on a path without ['.z'] and on the same path with ['.z']
    appended write the same file. *)
Theorem savez_appends_z {data} (fs : gmap string (content data))
    (obj : data) (fpath : string) :
  endswith fpath ".z" = false ->
  savez fs obj fpath = savez fs obj (fpath ++ ".z")
  /\ savez fs obj fpath !! (fpath ++ ".z") = Some (JoblibDump obj)
  /\ savez fs obj fpath !! fpath = fs !! fpath.
Proof.
  intros Hz. unfold savez. rewrite Hz, endswith_app_self.
  split; [reflexivity|]. split; [by rewrite lookup_insert_eq|].
  apply lookup_insert_ne. intros Heq. rewrite <- Heq, endswith_app_self in Hz.
  discriminate.
Qed.

Lemma savez_appends_z_witness :
  endswith "obs/plaqs" ".z" = false
  /\ savez (∅ : gmap string (content nat)) 7%nat "obs/plaqs"
     = savez ∅ 7%nat ("obs/plaqs" ++ ".z").
Proof.
  split; [reflexivity|].
  apply (savez_appends_z (∅ : gmap string (content nat)) 7%nat "obs/plaqs").
  reflexivity.
Defined.

Lemma change_extension_ends_with fpath ext q :
  change_extension fpath ext = Ok q -> endswith q (String "." ext) = true.
Proof.
  unfold change_extension.
  destruct (split_on "." _) as [|fname [|e [|? ?]]]; try discriminate.
  intros [= <-].
  destruct (os_path_join_suffix (slash_join (removelast (split_on "/" fpath)))
              (fname ++ String "." ext)) as (pre & -> & _).
  rewrite <- str_app_assoc. apply endswith_app_self.
Qed.

(** [save_data] never writes a file whose name ends in ['.pkl']: every
    such file is after the call what it was before, whether [out_file]
    existed or not. *)
Theorem save_data_never_writes_pkl {data} (fs fs' : gmap string (content data))
    (d : data) (out_file q : string) :
  save_data fs d out_file = Ok fs' ->
  endswith q ".pkl" = true ->
  fs' !! q = fs !! q.
Proof.
  intros Hsave Hq. unfold save_data in Hsave.
  destruct (if isfile fs out_file then renamed out_file else Ok out_file)
    as [out|e]; [|discriminate].
  assert (Hz : forall t, endswith t ".z" = true -> t <> q).
  { intros t Ht ->. rewrite (endswith_z_not_pkl q Ht) in Hq. discriminate. }
  destruct (endswith out ".pkl") eqn:Hpkl.
  - destruct (change_extension out "z") as [zpath|e] eqn:Hce; [|discriminate].
    injection Hsave as <-.
    destruct (savez_target fs d zpath) as (target & -> & Ht).
    apply lookup_insert_ne. by apply Hz.
  - destruct (endswith out ".npy").
    + injection Hsave as <-. apply lookup_insert_ne. intros ->.
      rewrite Hq in Hpkl. discriminate.
    + injection Hsave as <-.
      destruct (savez_target fs d out) as (target & -> & Ht).
      apply lookup_insert_ne. by apply Hz.
Qed.

Lemma save_data_never_writes_pkl_witness :
  exists fs',
    save_data fs_plaqs 8%nat "obs/plaqs.pkl" = Ok fs'
    /\ endswith "obs/plaqs_1.pkl" ".pkl" = true
    /\ fs' !! "obs/plaqs_1.pkl" = fs_plaqs !! "obs/plaqs_1.pkl".
Proof.
  eexists. split; [reflexivity|]. split; [reflexivity|].
  apply (save_data_never_writes_pkl fs_plaqs _ 8%nat "obs/plaqs.pkl"
           "obs/plaqs_1.pkl"); reflexivity.
Defined.

(** ** Text output: [write] and [write_dict] *)

(** The line feed. *)
Definition newline : string := String "010" EmptyString.

(** The process as the module sees it: whether Horovod was imported and
    the rank it reports. *)
Record process : Type := {
  has_horovod : bool;
  hvd_rank : nat
}.

(** [HAS_HOROVOD and hvd.rank() != 0]: the process leaves output to
    rank 0. *)
Definition not_chief (p : process) : bool :=
  has_horovod p && negb (Nat.eqb (hvd_rank p) 0).

(** The modes [write] is called with. *)
Inductive open_mode : Type :=
| ModeAppend
| ModeWrite.

(** [write(s, f, mode, nl)] on text files by path.  The argument of
    [ff.write] is [s + '\n' if nl else '']: a conditional expression
    whose first branch is the whole sum. *)
Definition write (p : process) (fs : gmap string string)
    (s f : string) (mode : open_mode) (nl : bool) : gmap string string :=
  if not_chief p then fs
  else
    let text := if nl then s ++ newline else "" in
    match mode with
    | ModeAppend => <[f := default "" (fs !! f) ++ text]> fs
    | ModeWrite => <[f := text]> fs
    end.

(** [write_dict(d, out_file)]: one [write] of [f'{key}: {val}\n'] per
    item, in order; the items come with key and value already turned
    into strings. *)
Fixpoint write_dict (p : process) (fs : gmap string string)
    (d : list (string * string)) (out_file : string) : gmap string string :=
  match d with
  | [] => fs
  | (key, val) :: rest =>
      write_dict p
        (write p fs (key ++ ": " ++ val ++ newline) out_file ModeAppend true)
        rest out_file
  end.

(** The text [write_dict] adds for its items. *)
Fixpoint dict_text (d : list (string * string)) : string :=
  match d with
  | [] => ""
  | (key, val) :: rest =>
      (key ++ ": " ++ val ++ newline ++ newline) ++ dict_text rest
  end.

Lemma str_app_nil_r (s : string) : s ++ "" = s.
Proof. induction s as [|a s IH]; simpl; [reflexivity | by rewrite IH]. Qed.

(** With [nl=False] the string is dropped: [write] does the same for
    every [s], and in append mode the file ends up with the text it had
    (empty if it was not there). *)
Theorem write_without_newline_drops_string
    (p : process) (fs : gmap string string) (s s' f : string)
    (mode : open_mode) :
  write p fs s f mode false = write p fs s' f mode false
  /\ (not_chief p = false ->
      write p fs s f ModeAppend false !! f = Some (default "" (fs !! f)))
  /\ (not_chief p = false ->
      write p fs s f ModeAppend true !! f
      = Some (default "" (fs !! f) ++ s ++ newline)).
Proof.
  unfold write. split; [reflexivity|].
  split; intros ->; rewrite lookup_insert_eq; [|reflexivity].
  by rewrite str_app_nil_r.
Qed.

Definition chief : process := {| has_horovod := true; hvd_rank := 0 |}.

Lemma write_without_newline_drops_string_witness :
  not_chief chief = false
  /\ write chief {[ "run_history.txt" := "step 0" ]} "step 1"
           "run_history.txt" ModeAppend false !! "run_history.txt"
     = Some "step 0".
Proof.
  split; [reflexivity|].
  destruct (write_without_newline_drops_string chief
              {[ "run_history.txt" := "step 0" ]} "step 1" "step 1"
              "run_history.txt" ModeAppend) as (_ & H & _).
  exact (H eq_refl).
Defined.

Lemma write_chief_append p fs s f :
  not_chief p = false ->
  write p fs s f ModeAppend true
  = <[f := default "" (fs !! f) ++ s ++ newline]> fs.
Proof. intros Hp. unfold write. by rewrite Hp. Qed.

Lemma write_dict_text p fs d f :
  not_chief p = false -> d <> [] ->
  write_dict p fs d f = <[f := default "" (fs !! f) ++ dict_text d]> fs.
Proof.
  intros Hp. revert fs.
  induction d as [|[key val] rest IH]; intros fs Hd; [done|].
  cbn [write_dict]. rewrite (write_chief_append p fs _ f Hp).
  destruct rest as [|[k v] rest].
  - cbn [write_dict dict_text]. by rewrite str_app_nil_r, !str_app_assoc.
  - rewrite IH by done. rewrite lookup_insert_eq, insert_insert_eq.
    cbn [from_option dict_text]. unfold Datatypes.id.
    by rewrite !str_app_assoc.
Qed.

(** On the chief process [write_dict] appends to [out_file], for each
    item in order, the line [key: val] and an empty line, and touches
    no other file; with no items it does not even create the file; on
    any other process it changes nothing. *)
Theorem write_dict_appends (p : process) (fs : gmap string string)
    (d : list (string * string)) (out_file : string) :
  (not_chief p = true -> write_dict p fs d out_file = fs)
  /\ (not_chief p = false ->
      (d = [] -> write_dict p fs d out_file = fs)
      /\ (d <> [] ->
          write_dict p fs d out_file !! out_file
          = Some (default "" (fs !! out_file) ++ dict_text d))
      /\ forall g, g <> out_file ->
           write_dict p fs d out_file !! g = fs !! g).
Proof.
  split.
  - intros Hp. revert fs. induction d as [|[key val] rest IH]; intros fs;
      [reflexivity|].
    cbn [write_dict]. unfold write. rewrite Hp. apply IH.
  - intros Hp. split; [by intros ->|]. split.
    + intros Hd. by rewrite write_dict_text, lookup_insert_eq.
    + intros g Hg. destruct d as [|kv rest]; [reflexivity|].
      rewrite write_dict_text by done. by apply lookup_insert_ne.
Qed.

Lemma write_dict_appends_witness :
  not_chief chief = false
  /\ [("eps", "0.1")] <> []
  /\ write_dict chief ∅ [("eps", "0.1")] "params.txt" !! "params.txt"
     = Some (default "" ((∅ : gmap string string) !! "params.txt")
             ++ dict_text [("eps", "0.1")]).
Proof.
  split; [reflexivity|]. split; [discriminate|].
  destruct (write_dict_appends chief ∅ [("eps", "0.1")] "params.txt")
    as [_ H].
  destruct (H eq_refl) as (_ & Htext & _). apply Htext. discriminate.
Defined.

(** ** [_parse_gmm_flags] *)

(** [s.replace('.', '')]. *)
Fixpoint remove_dots (s : string) : string :=
  match s with
  | EmptyString => EmptyString
  | String a s' =>
      if Ascii.eqb a "." then remove_dots s' else String a (remove_dots s')
  end.

(** The entries of the flags dictionary that the function reads, each
    [None] when the key is missing.  A float is carried by its [str],
    each of the six network weights by its [int(...)], the three
    switches are booleans. *)
Record gmm_flags : Type := {
  num_steps : option Z;
  sigma1 : option string;
  sigma2 : option string;
  use_gaussian_loss : option bool;
  use_nnehmc_loss : option bool;
  use_bn : option bool;
  aux_weight : option string;
  arrangement : option string;
  x_scale_weight : option Z;
  x_translation_weight : option Z;
  x_transformation_weight : option Z;
  v_scale_weight : option Z;
  v_translation_weight : option Z;
  v_transformation_weight : option Z
}.

(** [_parse_gmm_flags(FLAGS)] on a dictionary: the run string and the
    six rewritten entries ['XS'], ['XT'], ['XQ'], ['VS'], ['VT'],
    ['VQ'] of [d], in this order.  [None] is the [TypeError] of
    [int(None)].  The list [['GL']] of the first loss test is not
    empty, hence true. *)
Definition _parse_gmm_flags (flags_dict : gmm_flags)
  : option (string * list string) :=
  let LF := from_option pretty "None" (num_steps flags_dict) in
  let GL := default false (use_gaussian_loss flags_dict) in
  let NL := default false (use_nnehmc_loss flags_dict) in
  let BN := default false (use_bn flags_dict) in
  let AR := default "xaxis" (arrangement flags_dict) in
  let aw := remove_dots (default "1.0" (aux_weight flags_dict)) in
  let s1 := remove_dots (default "None" (sigma1 flags_dict)) in
  let s2 := remove_dots (default "None" (sigma2 flags_dict)) in
  match x_scale_weight flags_dict with None => None | Some XS =>
  match x_translation_weight flags_dict with None => None | Some XT =>
  match x_transformation_weight flags_dict with None => None | Some XQ =>
  match v_scale_weight flags_dict with None => None | Some VS =>
  match v_translation_weight flags_dict with None => None | Some VT =>
  match v_transformation_weight flags_dict with None => None | Some VQ =>
    let run_str := "GMM_" ++ AR ++ "_lf" ++ LF ++ "_s1" ++ s1 ++ "_s2" ++ s2 in
    let run_str :=
      if negb (String.eqb aw "10") then run_str ++ "_aw" ++ aw
      else run_str in
    let run_str := if BN then run_str ++ "_bn" else run_str in
    let run_str :=
      if true && NL then run_str ++ "_gnl"
      else if GL && negb NL then run_str ++ "_gl"
      else if NL && negb GL then run_str ++ "_nl"
      else run_str in
    Some (run_str,
          map (fun w : Z => remove_dots (pretty w)) [XS; XT; XQ; VS; VT; VQ])
  end end end end end end.

(** The flags with another ['use_gaussian_loss']. *)
Definition with_gaussian_loss (gl : option bool) (f : gmm_flags) : gmm_flags :=
  {| num_steps := num_steps f;
     sigma1 := sigma1 f;
     sigma2 := sigma2 f;
     use_gaussian_loss := gl;
     use_nnehmc_loss := use_nnehmc_loss f;
     use_bn := use_bn f;
     aux_weight := aux_weight f;
     arrangement := arrangement f;
     x_scale_weight := x_scale_weight f;
     x_translation_weight := x_translation_weight f;
     x_transformation_weight := x_transformation_weight f;
     v_scale_weight := v_scale_weight f;
     v_translation_weight := v_translation_weight f;
     v_transformation_weight := v_transformation_weight f |}.

(** The six network weights are required: the function returns exactly
    when all of them are in the dictionary, and raises the [TypeError]
    of [int(None)] otherwise, although the run string uses none of
    them. *)
Theorem parse_gmm_flags_needs_weights (f : gmm_flags) :
  is_Some (_parse_gmm_flags f)
  <-> is_Some (x_scale_weight f) /\ is_Some (x_translation_weight f)
      /\ is_Some (x_transformation_weight f) /\ is_Some (v_scale_weight f)
      /\ is_Some (v_translation_weight f)
      /\ is_Some (v_transformation_weight f).
Proof.
  unfold _parse_gmm_flags. split.
  - intros H.
    destruct (x_scale_weight f); [|by destruct H].
    destruct (x_translation_weight f); [|by destruct H].
    destruct (x_transformation_weight f); [|by destruct H].
    destruct (v_scale_weight f); [|by destruct H].
    destruct (v_translation_weight f); [|by destruct H].
    destruct (v_transformation_weight f); [|by destruct H].
    repeat split; by eexists.
  - intros ([? ->] & [? ->] & [? ->] & [? ->] & [? ->] & [? ->]).
    by eexists.
Qed.

(** With ['use_nnehmc_loss'] set, the run string ends in ['_gnl'] and
    is the same whether ['use_gaussian_loss'] is set, unset or missing:
    the suffix ['_nl'] of the NNEHMC loss alone is never given. *)
Theorem parse_gmm_flags_nnehmc_suffix (f : gmm_flags) (gl : option bool) :
  use_nnehmc_loss f = Some true ->
  fst <$> _parse_gmm_flags (with_gaussian_loss gl f)
  = fst <$> _parse_gmm_flags f
  /\ forall run_str d, _parse_gmm_flags f = Some (run_str, d) ->
       endswith run_str "_gnl" = true.
Proof.
  intros Hnl. unfold _parse_gmm_flags, with_gaussian_loss.
  cbn [num_steps sigma1 sigma2 use_gaussian_loss use_nnehmc_loss use_bn
       aux_weight arrangement x_scale_weight x_translation_weight
       x_transformation_weight v_scale_weight v_translation_weight
       v_transformation_weight].
  rewrite Hnl. cbn [default from_option andb].
  split; [reflexivity|].
  intros run_str d.
  destruct (x_scale_weight f), (x_translation_weight f),
    (x_transformation_weight f), (v_scale_weight f),
    (v_translation_weight f), (v_transformation_weight f);
    try discriminate.
  intros [= <- _]. apply endswith_app_self.
Qed.

Definition toy_gmm_flags : gmm_flags :=
  {| num_steps := Some 10%Z;
     sigma1 := Some "0.02";
     sigma2 := Some "0.02";
     use_gaussian_loss := None;
     use_nnehmc_loss := Some true;
     use_bn := None;
     aux_weight := Some "1.0";
     arrangement := None;
     x_scale_weight := Some 1%Z;
     x_translation_weight := Some 1%Z;
     x_transformation_weight := Some 1%Z;
     v_scale_weight := Some 1%Z;
     v_translation_weight := Some 1%Z;
     v_transformation_weight := Some 1%Z |}.

Lemma parse_gmm_flags_nnehmc_suffix_witness :
  use_nnehmc_loss toy_gmm_flags = Some true
  /\ fst <$> _parse_gmm_flags (with_gaussian_loss (Some true) toy_gmm_flags)
     = fst <$> _parse_gmm_flags toy_gmm_flags.
Proof.
  split; [reflexivity|].
  apply (parse_gmm_flags_nnehmc_suffix toy_gmm_flags (Some true)).
  reflexivity.
Defined.

Example parse_gmm_flags_example :
  fst <$> _parse_gmm_flags toy_gmm_flags
  = Some "GMM_xaxis_lf10_s1002_s2002_gnl".
Proof. reflexivity. Qed.

End FileIO.

(* ===================================================================== *)
(** * Periodic wrapping of angles                                          *)
(* ===================================================================== *)

Module Angles.
Local Open Scope R_scope.

(** [np.mod(x, m)] (and Python's [%]) on floats: the remainder has the
    sign of the divisor, [x - floor(x / m) * m].  Floats are modelled as
    reals: the argument is finite and the remainder exact.  In floating
    point the remainder of a negative number tiny against [m] is
    rounded to [m] itself, and that of a non-finite number is NaN. *)
Definition np_mod (x m : R) : R := x - IZR (Int_part (x / m)) * m.

(** Modelled from the spec: [to_u1] of l2hmc/dynamics/pytorch/dynamics.py
    is not among the sources; the spec requires "periodic wraparound of
    x into [-pi, pi)", which on each coordinate is the shift of the
    remainder modulo [2 pi]. *)
Definition to_u1 (x : list R) : list R :=
  map (fun a => np_mod (a + PI) (2 * PI) - PI) x.

Lemma np_mod_range (x m : R) : 0 < m -> 0 <= np_mod x m < m.
Proof.
  intros Hm. unfold np_mod.
  destruct (base_Int_part (x / m)) as [Hlo Hhi].
  set (k := IZR (Int_part (x / m))) in *.
  assert (Hx : x = x / m * m) by (field; lra).
  split.
  - assert (k * m <= x / m * m) by (apply Rmult_le_compat_r; lra). lra.
  - assert (x / m * m < (k + 1) * m) by (apply Rmult_lt_compat_r; lra). lra.
Qed.

Lemma np_mod_small (x m : R) : 0 <= x < m -> np_mod x m = x.
Proof.
  intros [H0 Hm]. unfold np_mod.
  assert (Hq : 0 <= x / m < 1).
  { split.
    - apply Rmult_le_pos; [lra|]. left. apply Rinv_0_lt_compat. lra.
    - apply Rmult_lt_reg_r with m; [lra|].
      unfold Rdiv. rewrite Rmult_assoc, Rinv_l by lra. lra. }
  assert (Hk : Int_part (x / m) = 0%Z).
  { symmetry. apply Int_part_spec. simpl. lra. }
  rewrite Hk. simpl. lra.
Qed.

Lemma two_pi_pos : 0 < 2 * PI.
Proof. pose proof PI_RGT_0. lra. Qed.

Lemma to_u1_range (x : list R) :
  Forall (fun a => - PI <= a < PI) (to_u1 x).
Proof.
  unfold to_u1. apply Forall_map, Forall_forall. intros a _.
  pose proof (np_mod_range (a + PI) (2 * PI) two_pi_pos). simpl. lra.
Qed.

End Angles.

(* ===================================================================== *)
(** * runners/runner.py                                                   *)
(* ===================================================================== *)

Module Runner.
Import Angles.
Local Open Scope R_scope.

(** What [sess.run(ops, feed_dict)] hands back: the six run operations
    and, with [save_lf], the ten leapfrog diagnostics. *)
Record outputs : Type := {
  o_x_out : list R;
  o_px : list R;
  o_actions : list R;
  o_plaqs : list R;
  o_charges : list R;
  o_charge_diffs : list R;
  o_lf : list (list R)
}.

(** The [out_data] dictionary of [run_step], one field per key. *)
Record out_data : Type := {
  d_step : nat;
  d_beta : R;
  d_eps : R;
  d_samples : list R;
  d_px : list R;
  d_actions : list R;
  d_plaqs : list R;
  d_charges : list R;
  d_charge_diffs : list R;
  d_lf : option (list (list R))
}.

(** Exceptions that can surface inside the sampling loop. *)
Inductive exn : Type :=
| KeyboardInterrupt
| SystemExit
| RuntimeError.

(** The handler of [run] catches [(KeyboardInterrupt, SystemExit)]. *)
Definition caught (e : exn) : bool :=
  match e with
  | KeyboardInterrupt | SystemExit => true
  | RuntimeError => false
  end.

(** Places inside the [try] block of [run] where an exception can be
    raised: while the header is logged, while [run_step] of step [k]
    is evaluating the session, while [logger.update] of step [k] runs
    (before or after its mutation took effect), and while the final
    [logger.save_run_data] runs. *)
Inductive point : Type :=
| AtHeader
| InRunStep (k : nat)
| InLoggerUpdate (k : nat) (applied : bool)
| InFinalSave.

Definition point_eqb (p q : point) : bool :=
  match p, q with
  | AtHeader, AtHeader => true
  | InRunStep j, InRunStep k => Nat.eqb j k
  | InLoggerUpdate j a, InLoggerUpdate k b => Nat.eqb j k && Bool.eqb a b
  | InFinalSave, InFinalSave => true
  | _, _ => false
  end.

Section Run.
(** The session: a sampling step from the fed samples, beta and network
    weights; the step index stands for the random draws of that step. *)
Variable sess_run : nat -> list R -> R -> (R * R * R) -> outputs.
(** The [RunLogger]: its state and its [update] method. *)
Variable Logger : Type.
Variable logger_update : Logger -> out_data -> Logger.
(** [params['save_lf']] and the step size read at construction. *)
Variable save_lf : bool.
Variable eps : R.
(** The exception, if any, and where it strikes. *)
Variable schedule : option (point * exn).

(** What can be observed of a run. *)
Inductive event : Type :=
| EvStepBegin (k : nat)
| EvStepEnd (k : nat)
| EvUpdate (k : nat)
| EvRaise (e : exn)
| EvSave (snapshot : Logger).

(** The mutable state of [run]: the current samples, the logger (or
    [None]) and the events so far. *)
Record state : Type := {
  samples_np : list R;
  logger : option Logger;
  trace : list event
}.

(** Computations that may raise; the state reached is kept either way. *)
Definition M (A : Type) : Type := state -> (A + exn) * state.

Definition ret {A} (a : A) : M A := fun s => (inl a, s).

Definition bind {A B} (m : M A) (f : A -> M B) : M B :=
  fun s =>
    match m s with
    | (inl a, s') => f a s'
    | (inr e, s') => (inr e, s')
    end.

Notation "x <- m ;; f" := (bind m (fun x => f))
  (at level 60, m at next level, right associativity).
Notation "m ;;; f" := (bind m (fun _ => f))
  (at level 60, right associativity).

Definition emit (ev : event) : M unit :=
  fun s => (inl tt, {| samples_np := samples_np s; logger := logger s;
                       trace := trace s ++ [ev] |}).

(** An exception strikes here if the schedule says so. *)
Definition raise_at (p : point) : M unit :=
  fun s =>
    match schedule with
    | Some (q, e) =>
        if point_eqb p q
        then (inr e, {| samples_np := samples_np s; logger := logger s;
                        trace := trace s ++ [EvRaise e] |})
        else (inl tt, s)
    | None => (inl tt, s)
    end.

(** [try: body except (KeyboardInterrupt, SystemExit): handler]. *)
Definition try_except {A} (body : M A) (handler : M A) : M A :=
  fun s =>
    match body s with
    | (inl a, s') => (inl a, s')
    | (inr e, s') => if caught e then handler s' else (inr e, s')
    end.

(** [run_step(step, run_steps, inputs, net_weights)]: one evaluation of
    the session, the samples reduced with [np.mod(., 2 * np.pi)], with
    floats as reals (see [np_mod]).  The formatted [data_str] is not
    modelled. *)
Definition run_step_data (step : nat) (samples_in : list R) (beta_np : R)
    (net_weights : R * R * R) : out_data :=
  let outputs := sess_run step samples_in beta_np net_weights in
  {| d_step := step;
     d_beta := beta_np;
     d_eps := eps;
     d_samples := map (fun a => np_mod a (2 * PI)) (o_x_out outputs);
     d_px := o_px outputs;
     d_actions := o_actions outputs;
     d_plaqs := o_plaqs outputs;
     d_charges := o_charges outputs;
     d_charge_diffs := o_charge_diffs outputs;
     d_lf := if save_lf then Some (o_lf outputs) else None |}.

Definition run_step (step : nat) (samples_in : list R) (beta_np : R)
    (net_weights : R * R * R) : M out_data :=
  emit (EvStepBegin step) ;;;
  raise_at (InRunStep step) ;;;
  emit (EvStepEnd step) ;;;
  ret (run_step_data step samples_in beta_np net_weights).

Definition get_samples : M (list R) := fun s => (inl (samples_np s), s).

Definition set_samples (x : list R) : M unit :=
  fun s => (inl tt, {| samples_np := x; logger := logger s; trace := trace s |}).

(** [if self.logger is not None: self.logger.update(...)]. *)
Definition update_logger (k : nat) (d : out_data) : M unit :=
  fun s =>
    match logger s with
    | None => (inl tt, s)
    | Some l =>
        (raise_at (InLoggerUpdate k false) ;;;
         (fun s => (inl tt, {| samples_np := samples_np s;
                               logger := Some (logger_update l d);
                               trace := trace s ++ [EvUpdate k] |})) ;;;
         raise_at (InLoggerUpdate k true)) s
    end.

(** [if self.logger is not None: self.logger.save_run_data(...)]; the
    event records the logger as it is saved. *)
Definition save_run_data : M unit :=
  fun s =>
    match logger s with
    | None => (inl tt, s)
    | Some l => emit (EvSave l) s
    end.

(** The body of the [for step in range(run_steps)] loop. *)
Definition loop_body (beta : R) (net_weights : R * R * R) (step : nat)
  : M unit :=
  samples <- get_samples ;;
  d <- run_step step samples beta net_weights ;;
  set_samples (d_samples d) ;;;
  update_logger step d.

Fixpoint for_each (steps : list nat) (body : nat -> M unit) : M unit :=
  match steps with
  | [] => ret tt
  | k :: rest => body k ;;; for_each rest body
  end.

(** The final save inside the [try] block, itself interruptible. *)
Definition final_save : M unit :=
  fun s =>
    match logger s with
    | None => (inl tt, s)
    | Some _ => (raise_at InFinalSave ;;; save_run_data) s
    end.

(** [run(run_steps, beta, net_weights)] from the point where the initial
    samples have been drawn. *)
Definition run (run_steps : nat) (beta : R) (net_weights : R * R * R)
  : M unit :=
  try_except
    (raise_at AtHeader ;;;
     for_each (seq 0 run_steps) (loop_body beta net_weights) ;;;
     final_save)
    save_run_data.

(** ** Observations on traces *)

(** Scan a trace for a save that happens while a step is open.  A step
    is open between its [EvStepBegin] and its [EvStepEnd]; a raised
    exception unwinds out of the open step.  [None] reports a save
    inside a step, [Some b] that there is none and whether a step is
    open at the end. *)
Fixpoint scan (inside : bool) (tr : list event) : option bool :=
  match tr with
  | [] => Some inside
  | EvStepBegin _ :: r => scan true r
  | EvStepEnd _ :: r => scan false r
  | EvRaise _ :: r => scan false r
  | EvUpdate _ :: r => scan inside r
  | EvSave _ :: r => if inside then None else scan inside r
  end.

(** The steps whose data reached the logger. *)
Fixpoint updated (tr : list event) : list nat :=
  match tr with
  | [] => []
  | EvUpdate k :: r => k :: updated r
  | _ :: r => updated r
  end.

(** The steps whose [run_step] returned. *)
Fixpoint completed (tr : list event) : list nat :=
  match tr with
  | [] => []
  | EvStepEnd k :: r => k :: completed r
  | _ :: r => completed r
  end.

(** The snapshots saved, in order. *)
Fixpoint saves (tr : list event) : list Logger :=
  match tr with
  | [] => []
  | EvSave l :: r => l :: saves r
  | _ :: r => saves r
  end.

(** The data of the first [n] steps from the samples [x], each step fed
    the samples of the one before, and the samples after them. *)
Fixpoint chain (k n : nat) (x : list R) (beta : R) (nw : R * R * R)
  : list out_data :=
  match n with
  | O => []
  | S n' =>
      let d := run_step_data k x beta nw in
      d :: chain (S k) n' (d_samples d) beta nw
  end.

Definition init_state (x : list R) (l : option Logger) : state :=
  {| samples_np := x; logger := l; trace := [] |}.

(** ** Lemmas on traces *)

Lemma scan_app b tr1 tr2 :
  scan b (tr1 ++ tr2)
  = match scan b tr1 with Some b' => scan b' tr2 | None => None end.
Proof.
  revert b. induction tr1 as [|ev tr1 IH]; intros b; simpl; [reflexivity|].
  destruct ev; try apply IH. destruct b; [reflexivity | apply IH].
Qed.

Lemma updated_app tr1 tr2 : updated (tr1 ++ tr2) = updated tr1 ++ updated tr2.
Proof.
  induction tr1 as [|ev tr1 IH]; simpl; [reflexivity|].
  destruct ev; simpl; by rewrite ?IH.
Qed.

Lemma saves_app tr1 tr2 : saves (tr1 ++ tr2) = saves tr1 ++ saves tr2.
Proof.
  induction tr1 as [|ev tr1 IH]; simpl; [reflexivity|].
  destruct ev; simpl; by rewrite ?IH.
Qed.

Lemma completed_app tr1 tr2 :
  completed (tr1 ++ tr2) = completed tr1 ++ completed tr2.
Proof.
  induction tr1 as [|ev tr1 IH]; simpl; [reflexivity|].
  destruct ev; simpl; by rewrite ?IH.
Qed.

(** ** The schedule, read pointwise *)

Definition strikes (q : point) : bool :=
  match schedule with
  | Some (p, _) => point_eqb q p
  | None => false
  end.

Definition exc : exn :=
  match schedule with
  | Some (_, e) => e
  | None => RuntimeError
  end.

Lemma raise_at_eq q s :
  raise_at q s
  = if strikes q
    then (inr exc, {| samples_np := samples_np s; logger := logger s;
                      trace := trace s ++ [EvRaise exc] |})
    else (inl tt, s).
Proof.
  unfold raise_at, strikes, exc. destruct schedule as [[p e]|]; reflexivity.
Qed.

(** One iteration, by the place where the exception strikes (if it
    strikes in this iteration at all). *)
Lemma loop_body_eq beta nw k x l tr :
  let d := run_step_data k x beta nw in
  loop_body beta nw k {| samples_np := x; logger := Some l; trace := tr |}
  = if strikes (InRunStep k) then
      (inr exc, {| samples_np := x; logger := Some l;
                   trace := tr ++ [EvStepBegin k; EvRaise exc] |})
    else if strikes (InLoggerUpdate k false) then
      (inr exc, {| samples_np := d_samples d; logger := Some l;
                   trace := tr ++ [EvStepBegin k; EvStepEnd k; EvRaise exc] |})
    else if strikes (InLoggerUpdate k true) then
      (inr exc, {| samples_np := d_samples d; logger := Some (logger_update l d);
                   trace := tr ++ [EvStepBegin k; EvStepEnd k; EvUpdate k;
                                   EvRaise exc] |})
    else
      (inl tt, {| samples_np := d_samples d; logger := Some (logger_update l d);
                  trace := tr ++ [EvStepBegin k; EvStepEnd k; EvUpdate k] |}).
Proof.
  intros d. unfold loop_body, run_step, update_logger, bind, get_samples,
    set_samples, emit, ret. simpl.
  rewrite !raise_at_eq. simpl.
  destruct (strikes (InRunStep k)); simpl.
  { by rewrite <- !app_assoc. }
  rewrite !raise_at_eq. simpl.
  destruct (strikes (InLoggerUpdate k false)); simpl.
  { by rewrite <- !app_assoc. }
  rewrite !raise_at_eq. simpl.
  destruct (strikes (InLoggerUpdate k true)); simpl; by rewrite <- !app_assoc.
Qed.

(** What holds of the part of the trace a loop prefix has produced:
    the logger has the data of [j] steps from [k], exactly these steps
    were logged, nothing was saved and no step is left open. *)
Definition loop_post (beta : R) (nw : R * R * R) (k j : nat) (x : list R)
    (l : Logger) (tr : list event) (s : state) : Prop :=
  exists tr',
    trace s = tr ++ tr'
    /\ logger s = Some (fold_left logger_update (chain k j x beta nw) l)
    /\ updated tr' = seq k j
    /\ saves tr' = []
    /\ scan false tr' = Some false.

Lemma for_each_spec beta nw n : forall k x l tr,
  match for_each (seq k n) (loop_body beta nw)
          {| samples_np := x; logger := Some l; trace := tr |} with
  | (inl _, s) => loop_post beta nw k n x l tr s
  | (inr e, s) =>
      e = exc /\ exists j, (j <= n)%nat /\ loop_post beta nw k j x l tr s
  end.
Proof.
  induction n as [|n IH]; intros k x l tr.
  - simpl. unfold ret. exists []. by rewrite app_nil_r.
  - cbn [seq for_each]. unfold bind at 1.
    rewrite loop_body_eq. cbv zeta.
    set (d := run_step_data k x beta nw).
    destruct (strikes (InRunStep k)).
    { split; [reflexivity|]. exists 0%nat. split; [lia|]. by eexists. }
    destruct (strikes (InLoggerUpdate k false)).
    { split; [reflexivity|]. exists 0%nat. split; [lia|]. by eexists. }
    destruct (strikes (InLoggerUpdate k true)).
    { split; [reflexivity|]. exists 1%nat. split; [lia|]. by eexists. }
    specialize (IH (S k) (d_samples d) (logger_update l d)
                   (tr ++ [EvStepBegin k; EvStepEnd k; EvUpdate k])).
    destruct (for_each _ _ _) as [[[]|e] s].
    + destruct IH as (tr' & Htr & Hl & Hu & Hs & Hsc).
      exists ([EvStepBegin k; EvStepEnd k; EvUpdate k] ++ tr').
      rewrite Htr, <- app_assoc. split; [reflexivity|].
      split; [exact Hl|]. rewrite updated_app, saves_app, scan_app, Hu, Hs.
      split; [reflexivity|]. split; [reflexivity|]. exact Hsc.
    + destruct IH as (-> & j & Hj & tr' & Htr & Hl & Hu & Hs & Hsc).
      split; [reflexivity|]. exists (S j). split; [lia|].
      exists ([EvStepBegin k; EvStepEnd k; EvUpdate k] ++ tr').
      rewrite Htr, <- app_assoc. split; [reflexivity|].
      split; [exact Hl|]. rewrite updated_app, saves_app, scan_app, Hu, Hs.
      split; [reflexivity|]. split; [reflexivity|]. exact Hsc.
Qed.

(** [loop_post] with the steps whose [run_step] returned: [c] of them,
    from [k]. *)
Definition loop_post_c (beta : R) (nw : R * R * R) (k j c : nat) (x : list R)
    (l : Logger) (tr : list event) (s : state) : Prop :=
  exists tr',
    trace s = tr ++ tr'
    /\ logger s = Some (fold_left logger_update (chain k j x beta nw) l)
    /\ updated tr' = seq k j
    /\ completed tr' = seq k c
    /\ saves tr' = []
    /\ scan false tr' = Some false.

(** When the loop is left by an exception, the logger has the data of
    every step whose [run_step] returned, or of all of them but the
    last: the latter exactly when the exception struck between the
    return of [run_step] and the mutation of [logger.update]. *)
Lemma for_each_completed beta nw n : forall k x l tr,
  match for_each (seq k n) (loop_body beta nw)
          {| samples_np := x; logger := Some l; trace := tr |} with
  | (inl _, s) => loop_post_c beta nw k n n x l tr s
  | (inr e, s) =>
      e = exc
      /\ exists j c,
           (j <= n)%nat /\ loop_post_c beta nw k j c x l tr s
           /\ (c = j
               \/ (c = S j /\ strikes (InLoggerUpdate (k + j) false) = true))
  end.
Proof.
  induction n as [|n IH]; intros k x l tr.
  - simpl. unfold ret. exists []. by rewrite app_nil_r.
  - cbn [seq for_each]. unfold bind at 1.
    rewrite loop_body_eq. cbv zeta.
    set (d := run_step_data k x beta nw).
    destruct (strikes (InRunStep k)).
    { split; [reflexivity|]. exists 0%nat, 0%nat. split; [lia|].
      split; [by eexists | by left]. }
    destruct (strikes (InLoggerUpdate k false)) eqn:Hbetween.
    { split; [reflexivity|]. exists 0%nat, 1%nat. split; [lia|].
      split; [by eexists|]. right. split; [reflexivity|].
      by rewrite Nat.add_0_r. }
    destruct (strikes (InLoggerUpdate k true)).
    { split; [reflexivity|]. exists 1%nat, 1%nat. split; [lia|].
      split; [by eexists | by left]. }
    specialize (IH (S k) (d_samples d) (logger_update l d)
                   (tr ++ [EvStepBegin k; EvStepEnd k; EvUpdate k])).
    destruct (for_each _ _ _) as [[[]|e] s].
    + destruct IH as (tr' & Htr & Hl & Hu & Hc & Hs & Hsc).
      exists ([EvStepBegin k; EvStepEnd k; EvUpdate k] ++ tr').
      rewrite Htr, <- app_assoc. split; [reflexivity|].
      split; [exact Hl|].
      rewrite updated_app, completed_app, saves_app, scan_app, Hu, Hc, Hs.
      split; [reflexivity|]. split; [reflexivity|].
      split; [reflexivity|]. exact Hsc.
    + destruct IH as (-> & j & c & Hj & (tr' & Htr & Hl & Hu & Hc & Hs & Hsc)
                      & Hjc).
      split; [reflexivity|]. exists (S j), (S c). split; [lia|]. split.
      * exists ([EvStepBegin k; EvStepEnd k; EvUpdate k] ++ tr').
        rewrite Htr, <- app_assoc. split; [reflexivity|].
        split; [exact Hl|].
        rewrite updated_app, completed_app, saves_app, scan_app, Hu, Hc, Hs.
        split; [reflexivity|]. split; [reflexivity|].
        split; [reflexivity|]. exact Hsc.
      * destruct Hjc as [->|[-> Hstr]]; [by left|]. right.
        split; [reflexivity|].
        by replace (k + S j)%nat with (S k + j)%nat by lia.
Qed.

(** The outcome of an interrupted run: the run returns; the last event
    is the save of the logger holding the data of the first [j] steps,
    exactly the steps logged before; it is the only save and no save
    happens inside an open step; and [j] is the number [c] of steps
    whose [run_step] returned, or one less when the interrupt struck
    after [run_step] of step [j] had returned and before
    [logger.update] recorded it. *)
Definition saved_at_boundary (run_steps : nat) (beta : R) (nw : R * R * R)
    (x0 : list R) (l0 : Logger) (res : (unit + exn) * state) : Prop :=
  fst res = inl tt
  /\ exists j c tr',
       (j <= run_steps)%nat
       /\ trace (snd res)
          = tr' ++ [EvSave (fold_left logger_update (chain 0 j x0 beta nw) l0)]
       /\ updated tr' = seq 0 j
       /\ completed tr' = seq 0 c
       /\ (c = j \/ (c = S j /\ strikes (InLoggerUpdate j false) = true))
       /\ saves tr' = []
       /\ scan false (trace (snd res)) = Some false.

Lemma handler_after_loop beta nw run_steps x0 l0 j c s :
  (j <= run_steps)%nat ->
  (c = j \/ (c = S j /\ strikes (InLoggerUpdate j false) = true)) ->
  loop_post_c beta nw 0 j c x0 l0 [EvRaise exc] s
  \/ loop_post_c beta nw 0 j c x0 l0 [] s ->
  saved_at_boundary run_steps beta nw x0 l0 (save_run_data s).
Proof.
  intros Hj Hjc Hpost. unfold save_run_data.
  assert (exists tr', trace s = tr'
            /\ logger s = Some (fold_left logger_update (chain 0 j x0 beta nw) l0)
            /\ updated tr' = seq 0 j /\ completed tr' = seq 0 c
            /\ saves tr' = [] /\ scan false tr' = Some false)
    as (tr' & Htr & Hl & Hu & Hc & Hs & Hsc).
  { destruct Hpost as [(tr' & Htr & Hl & Hu & Hc & Hs & Hsc)
                      |(tr' & Htr & Hl & Hu & Hc & Hs & Hsc)];
      eexists; (split; [exact Htr|]); (split; [exact Hl|]); simpl; auto. }
  rewrite Hl. unfold emit. split; [reflexivity|].
  exists j, c, tr'. simpl. rewrite Htr. split; [exact Hj|].
  split; [reflexivity|]. split; [exact Hu|]. split; [exact Hc|].
  split; [exact Hjc|]. split; [exact Hs|]. by rewrite scan_app, Hsc.
Qed.

Lemma run_spec run_steps beta nw x0 l0 :
  caught exc = true ->
  saved_at_boundary run_steps beta nw x0 l0
    (run run_steps beta nw (init_state x0 (Some l0))).
Proof.
  intros Hc. unfold run, try_except, bind at 1. rewrite raise_at_eq.
  destruct (strikes AtHeader).
  { rewrite Hc. apply (handler_after_loop _ _ _ _ _ 0%nat 0%nat); [lia|by left|].
    left. by exists []. }
  unfold bind. unfold init_state.
  pose proof (for_each_completed beta nw run_steps 0%nat x0 l0 []) as Hloop.
  destruct (for_each _ _ _) as [[[]|e] s].
  - destruct Hloop as (tr' & Htr & Hl & Hu & Hco & Hs & Hsc).
    unfold final_save. rewrite Hl. unfold bind. rewrite raise_at_eq.
    destruct (strikes InFinalSave).
    + rewrite Hc.
      apply (handler_after_loop _ _ _ _ _ run_steps run_steps); [lia|by left|].
      right. exists (tr' ++ [EvRaise exc]). simpl. rewrite Htr. simpl.
      split; [reflexivity|]. split; [exact Hl|].
      rewrite updated_app, completed_app, saves_app, scan_app, Hu, Hco, Hs, Hsc.
      simpl. by rewrite !app_nil_r.
    + assert (Hsave : saved_at_boundary run_steps beta nw x0 l0 (save_run_data s)).
      { apply (handler_after_loop _ _ _ _ _ run_steps run_steps);
          [lia|by left|].
        right. exists tr'. auto 10. }
      destruct (save_run_data s) as [r s'].
      destruct Hsave as [Hr Hsave]. simpl in Hr. subst r. split; [reflexivity|].
      exact Hsave.
  - destruct Hloop as (-> & j & c & Hj & Hpost & Hjc). rewrite Hc.
    apply (handler_after_loop _ _ _ _ _ j c); [exact Hj|exact Hjc|]. by right.
Qed.

(** Without a logger nothing is accumulated and nothing is saved. *)
Lemma run_without_logger run_steps beta nw x0 :
  saves (trace (snd (run run_steps beta nw (init_state x0 None)))) = [].
Proof.
  unfold run, try_except, bind at 1. rewrite raise_at_eq.
  assert (Hloop : forall n k x tr, saves tr = [] ->
    let r := for_each (seq k n) (loop_body beta nw)
               {| samples_np := x; logger := None; trace := tr |} in
    logger (snd r) = None /\ saves (trace (snd r)) = []).
  { induction n as [|n IH]; intros k x tr Htr; [by simpl|].
    cbn [seq for_each]. unfold bind at 1.
    unfold loop_body, run_step, update_logger, bind, get_samples, set_samples,
      emit, ret. simpl. rewrite raise_at_eq. simpl.
    destruct (strikes (InRunStep k)); simpl.
    - by rewrite !saves_app, Htr.
    - apply IH. by rewrite !saves_app, Htr. }
  destruct (strikes AtHeader); simpl.
  { destruct (caught exc); reflexivity. }
  unfold bind. specialize (Hloop run_steps 0%nat x0 [] eq_refl). simpl in Hloop.
  unfold init_state.
  destruct (for_each _ _ _) as [[[]|e] s]; simpl in Hloop; destruct Hloop as [Hl Hs].
  - unfold final_save. by rewrite Hl.
  - destruct (caught e); [|exact Hs]. unfold save_run_data. by rewrite Hl.
Qed.

End Run.

Arguments EvSave {Logger} snapshot.
Arguments EvRaise {Logger} e.
Arguments EvStepBegin {Logger} k.
Arguments EvStepEnd {Logger} k.
Arguments EvUpdate {Logger} k.
Arguments samples_np {Logger} s.
Arguments logger {Logger} s.
Arguments trace {Logger} s.
Arguments init_state {Logger} x l.
Arguments run sess_run {Logger} logger_update save_lf eps schedule
  run_steps beta net_weights _.
Arguments saved_at_boundary sess_run {Logger} logger_update save_lf eps
  schedule run_steps beta nw x0 l0 res.
Arguments completed {Logger} tr.

(** ** The samples handed on by [run_step] *)

Lemma run_step_samples_range sess_run save_lf eps step x beta nw :
  Forall (fun a => 0 <= a < 2 * PI)
         (d_samples (run_step_data sess_run save_lf eps step x beta nw)).
Proof.
  unfold run_step_data. simpl. apply Forall_map, Forall_forall. intros a _.
  apply np_mod_range, two_pi_pos.
Qed.

(** ** A concrete run *)

(** A session that moves every coordinate by one and reports nothing
    else; a logger that keeps the numbers of the steps it was given. *)
Definition shift_session (k : nat) (x : list R) (beta : R) (nw : R * R * R)
  : outputs :=
  {| o_x_out := map (fun a => a + 1) x; o_px := []; o_actions := [];
     o_plaqs := []; o_charges := []; o_charge_diffs := []; o_lf := [] |}.

Definition step_logger (l : list nat) (d : out_data) : list nat :=
  l ++ [d_step d].

Example run_interrupted_in_step_1 :
  trace (snd (run shift_session step_logger false (1/10)
                  (Some (InRunStep 1, KeyboardInterrupt))
                  3 5 (1, 1, 1) (init_state [0] (Some []))))
  = [EvStepBegin 0; EvStepEnd 0; EvUpdate 0;
     EvStepBegin 1; EvRaise KeyboardInterrupt; EvSave [0%nat]].
Proof. reflexivity. Qed.

Example run_uninterrupted :
  trace (snd (run shift_session step_logger false (1/10) None
                  2 5 (1, 1, 1) (init_state [0] (Some []))))
  = [EvStepBegin 0; EvStepEnd 0; EvUpdate 0;
     EvStepBegin 1; EvStepEnd 1; EvUpdate 1; EvSave [0%nat; 1%nat]].
Proof. reflexivity. Qed.

(** An exception the handler does not name leaves [run] without a
    save. *)
Example run_other_exception :
  run shift_session step_logger false (1/10)
      (Some (InRunStep 0, RuntimeError))
      3 5 (1, 1, 1) (init_state [0] (Some []))
  = (inr RuntimeError,
     {| samples_np := [0]; logger := Some [];
        trace := [EvStepBegin 0; EvRaise RuntimeError] |}).
Proof. reflexivity. Qed.

Lemma point_eqb_eq (p q : point) : point_eqb p q = true -> p = q.
Proof.
  destruct p as [|j|j a|], q as [|k|k b|]; simpl; try discriminate;
    try reflexivity.
  - intros H. apply Nat.eqb_eq in H. by subst.
  - intros H. apply andb_true_iff in H as [H1 H2].
    apply Nat.eqb_eq in H1. apply Bool.eqb_prop in H2. by subst.
Qed.




(** ** Exceptions the handler does not name, and the samples kept *)

(** Every coordinate in [[0, 2 pi)]. *)
Definition wrapped (x : list R) : Prop :=
  Forall (fun a => 0 <= a < 2 * PI) x.

Section RunMore.
Variable sess_run : nat -> list R -> R -> (R * R * R) -> outputs.
Variable Logger : Type.
Variable logger_update : Logger -> out_data -> Logger.
Variable save_lf : bool.
Variable eps : R.
Variable schedule : option (point * exn).

Local Abbreviation run_ := (run sess_run logger_update save_lf eps schedule).
Local Abbreviation body_ :=
  (loop_body sess_run Logger logger_update save_lf eps schedule).
Local Abbreviation chain_ := (chain sess_run save_lf eps).

(** The outcome when the scheduled exception is not one the handler
    catches: either it never strikes and the run ends with its regular
    save, or it leaves [run] with nothing saved. *)
Lemma run_uncaught_spec run_steps beta nw x0 l0 :
  caught (exc schedule) = false ->
  match run_ run_steps beta nw (init_state x0 (Some l0)) with
  | (inr e, s) => e = exc schedule /\ saves Logger (trace s) = []
  | (inl _, s) =>
      exists tr',
        trace s = tr' ++ [EvSave (fold_left logger_update
                                    (chain_ 0 run_steps x0 beta nw) l0)]
        /\ saves Logger tr' = []
  end.
Proof.
  intros Hc. unfold run, try_except, bind at 1.
  rewrite raise_at_eq.
  destruct (strikes schedule AtHeader).
  { rewrite Hc. by split. }
  unfold bind. unfold init_state.
  pose proof (for_each_spec sess_run Logger logger_update save_lf eps schedule
                beta nw run_steps 0%nat x0 l0 []) as Hloop.
  destruct (for_each _ _ _ _) as [[[]|e] s].
  - destruct Hloop as (tr' & Htr & Hl & Hu & Hs & Hsc).
    unfold final_save. rewrite Hl. unfold bind. rewrite raise_at_eq.
    destruct (strikes schedule InFinalSave).
    + rewrite Hc. split; [reflexivity|]. simpl.
      rewrite Htr. simpl. by rewrite saves_app, Hs.
    + unfold save_run_data. rewrite Hl. unfold emit. simpl.
      exists tr'. by rewrite Htr.
  - destruct Hloop as (-> & j & Hj & tr' & Htr & Hl & Hu & Hs & Hsc).
    rewrite Hc. split; [reflexivity|]. by rewrite Htr.
Qed.

Lemma strikes_none q : schedule = None -> strikes schedule q = false.
Proof. intros H. unfold strikes. by rewrite H. Qed.

Lemma loop_body_samples beta nw k s :
  match body_ beta nw k s with
  | (inl _, s') => wrapped (samples_np s')
  | (inr _, s') =>
      schedule <> None
      /\ (samples_np s' = samples_np s \/ wrapped (samples_np s'))
  end.
Proof.
  assert (Hw : wrapped (d_samples (run_step_data sess_run save_lf eps k
                                     (samples_np s) beta nw)))
    by apply run_step_samples_range.
  assert (Hstr : forall q, strikes schedule q = true -> schedule <> None).
  { intros q Hq Hn. by rewrite (strikes_none q Hn) in Hq. }
  unfold loop_body, run_step, update_logger, bind, get_samples, set_samples,
    emit, ret. simpl. rewrite raise_at_eq. simpl.
  destruct (strikes schedule (InRunStep k)) eqn:H1; simpl.
  { split; [by eapply Hstr | by left]. }
  destruct (logger s) as [l|]; simpl; [|exact Hw].
  rewrite !raise_at_eq. simpl.
  destruct (strikes schedule (InLoggerUpdate k false)) eqn:H2; simpl.
  { split; [by eapply Hstr | by right]. }
  rewrite !raise_at_eq. simpl.
  destruct (strikes schedule (InLoggerUpdate k true)) eqn:H3; simpl;
    [split; [by eapply Hstr | by right] | exact Hw].
Qed.

Lemma for_each_samples beta nw steps : forall s,
  match for_each Logger steps (body_ beta nw) s with
  | (inl _, s') =>
      (steps = [] /\ s' = s) \/ (steps <> [] /\ wrapped (samples_np s'))
  | (inr _, s') =>
      schedule <> None
      /\ (samples_np s' = samples_np s \/ wrapped (samples_np s'))
  end.
Proof.
  induction steps as [|k steps IH]; intros s.
  - simpl. by left.
  - cbn [for_each]. unfold bind.
    pose proof (loop_body_samples beta nw k s) as Hb.
    destruct (body_ beta nw k s) as [[[]|e] s1]; [|exact Hb].
    specialize (IH s1).
    destruct (for_each Logger steps (body_ beta nw) s1) as [[[]|e] s2].
    + right. split; [done|]. destruct IH as [[_ ->]|[_ Hw]]; done.
    + destruct IH as [Hn [Heq|Hw]]; (split; [exact Hn|]); right;
        [by rewrite Heq | exact Hw].
Qed.

Lemma save_run_data_samples s :
  samples_np (snd (save_run_data Logger s)) = samples_np s.
Proof. unfold save_run_data. by destruct (logger s). Qed.

Lemma final_save_samples s :
  samples_np (snd (final_save Logger schedule s)) = samples_np s.
Proof.
  unfold final_save. destruct (logger s) as [l|] eqn:Hl; [|reflexivity].
  unfold bind. rewrite raise_at_eq.
  destruct (strikes schedule InFinalSave); [reflexivity|].
  apply save_run_data_samples.
Qed.

Lemma save_run_data_keeps s :
  match save_run_data Logger s with
  | (_, s') => samples_np s' = samples_np s
  end.
Proof. unfold save_run_data. by destruct (logger s). Qed.

Lemma run_samples run_steps beta nw x0 l :
  match run_ run_steps beta nw (init_state x0 l) with
  | (_, s) =>
      (samples_np s = x0 \/ wrapped (samples_np s))
      /\ (schedule = None -> (1 <= run_steps)%nat -> wrapped (samples_np s))
  end.
Proof.
  unfold run, try_except, bind at 1. rewrite raise_at_eq.
  destruct (strikes schedule AtHeader) eqn:Hh.
  { assert (Hnone : schedule = None -> False).
    { intros Hn. by rewrite (strikes_none AtHeader Hn) in Hh. }
    destruct (caught (exc schedule)).
    - match goal with |- context [save_run_data Logger ?s0] =>
        pose proof (save_run_data_keeps s0) as Hk;
        destruct (save_run_data Logger s0) as [r0 s0'] end.
      simpl in Hk. rewrite Hk. split; [by left | by intros Hn%Hnone].
    - split; [by left | by intros Hn%Hnone]. }
  unfold bind.
  pose proof (for_each_samples beta nw (seq 0 run_steps) (init_state x0 l))
    as Hloop.
  destruct (for_each _ _ _ _) as [[[]|e] s1].
  - pose proof (final_save_samples s1) as Hf.
    assert (Hs1 : (samples_np s1 = x0 \/ wrapped (samples_np s1))
                  /\ (schedule = None -> (1 <= run_steps)%nat ->
                      wrapped (samples_np s1))).
    { destruct Hloop as [[Hnil ->]|[Hne Hw]].
      - split; [by left|]. intros _ Hn. destruct run_steps; [lia | done].
      - split; [by right | by intros _ _]. }
    destruct (final_save Logger schedule s1) as [[[]|e] s2]; simpl in Hf.
    + by rewrite Hf.
    + destruct (caught e); [|by rewrite Hf].
      pose proof (save_run_data_keeps s2) as Hk.
      destruct (save_run_data Logger s2) as [r0 s3]. by rewrite Hk, Hf.
  - destruct Hloop as [Hsched Hs].
    destruct (caught e).
    + pose proof (save_run_data_keeps s1) as Hk.
      destruct (save_run_data Logger s1) as [r0 s3]. rewrite Hk.
      split; [exact Hs | done].
    + split; [exact Hs | done].
Qed.

End RunMore.

(** An exception other than [KeyboardInterrupt] and [SystemExit] is not
    handled: when it strikes inside the loop it leaves [run] and
    nothing at all has been saved; when its place is never reached the
    run ends with its regular save of all steps. *)
Theorem run_uncaught_exception_not_saved
    (sess_run : nat -> list R -> R -> (R * R * R) -> outputs)
    (Logger : Type) (logger_update : Logger -> out_data -> Logger)
    (save_lf : bool) (eps : R) (p : point) (e : exn)
    (run_steps : nat) (beta : R) (nw : R * R * R)
    (x0 : list R) (l0 : Logger) :
  caught e = false ->
  match run sess_run logger_update save_lf eps (Some (p, e))
            run_steps beta nw (init_state x0 (Some l0)) with
  | (inr e', s) => e' = e /\ saves Logger (trace s) = []
  | (inl _, s) =>
      exists tr',
        trace s = tr' ++ [EvSave (fold_left logger_update
                            (chain sess_run save_lf eps 0 run_steps x0 beta nw)
                            l0)]
        /\ saves Logger tr' = []
  end.
Proof.
  intros Hc.
  exact (run_uncaught_spec sess_run Logger logger_update save_lf eps
           (Some (p, e)) run_steps beta nw x0 l0 Hc).
Qed.

Lemma run_uncaught_exception_not_saved_witness :
  caught RuntimeError = false
  /\ match run shift_session step_logger false (1/10)
               (Some (InRunStep 1, RuntimeError))
               3 5 (1, 1, 1) (init_state [0] (Some [])) with
     | (inr e', s) => e' = RuntimeError /\ saves (list nat) (trace s) = []
     | (inl _, s) =>
         exists tr',
           trace s = tr' ++ [EvSave (fold_left step_logger
                               (chain shift_session false (1/10) 0 3 [0] 5
                                      (1, 1, 1)) [])]
           /\ saves (list nat) tr' = []
     end.
Proof.
  split; [reflexivity|].
  apply (run_uncaught_exception_not_saved shift_session (list nat) step_logger
           false (1/10) (InRunStep 1) RuntimeError 3 5 (1, 1, 1) [0] []).
  reflexivity.
Defined.

(** With floats modelled as reals (finite session outputs, exact
    remainders): whatever happens during [run], the samples it is left
    with are the initial ones or lie in [[0, 2 pi)] in every
    coordinate; after an undisturbed run of at least one step they lie
    in [[0, 2 pi)]. *)
Theorem run_keeps_samples_wrapped
    (sess_run : nat -> list R -> R -> (R * R * R) -> outputs)
    (Logger : Type) (logger_update : Logger -> out_data -> Logger)
    (save_lf : bool) (eps : R) (schedule : option (point * exn))
    (run_steps : nat) (beta : R) (nw : R * R * R)
    (x0 : list R) (l : option Logger) :
  let s := snd (run sess_run logger_update save_lf eps schedule
                    run_steps beta nw (init_state x0 l)) in
  (samples_np s = x0 \/ wrapped (samples_np s))
  /\ (schedule = None -> (1 <= run_steps)%nat -> wrapped (samples_np s)).
Proof.
  intros s. subst s.
  pose proof (run_samples sess_run Logger logger_update save_lf eps schedule
                run_steps beta nw x0 l) as H.
  by destruct (run _ _ _ _ _ _ _ _ _) as [r s].
Qed.

Lemma run_keeps_samples_wrapped_witness :
  (1 <= 3)%nat
  /\ wrapped (samples_np (snd (run shift_session step_logger false (1/10) None
                                  3 5 (1, 1, 1) (init_state [0] (Some []))))).
Proof.
  split; [lia|].
  apply (run_keeps_samples_wrapped shift_session (list nat) step_logger false
           (1/10) None 3 5 (1, 1, 1) [0] (Some [])); [reflexivity | lia].
Defined.

(** ** [build_run_ops_dict] *)

Section RunOps.
(** TensorFlow operations. *)
Variable Op : Type.

(** The keys of the dictionary, in the order of their indices: from 0
    and, with [save_lf], from 7. *)
Definition base_keys : list string :=
  ["x_out"; "px"; "actions_op"; "plaqs_op"; "avg_plaqs_op"; "charges_op";
   "charge_diffs_op"]%string.

Definition lf_keys : list string :=
  ["lf_out_f"; "pxs_out_f"; "masks_f"; "logdets_f"; "sumlogdet_f";
   "lf_out_b"; "pxs_out_b"; "masks_b"; "logdets_b"; "sumlogdet_b"]%string.

(** The items [key: run_ops[i]] of a dictionary display for consecutive
    indices from [i]; [None] is the [IndexError] of the first index out
    of range. *)
Fixpoint entries (keys : list string) (i : nat) (run_ops : list Op)
  : option (list (string * Op)) :=
  match keys with
  | [] => Some []
  | k :: ks =>
      match run_ops !! i with
      | None => None
      | Some v =>
          match entries ks (S i) run_ops with
          | None => None
          | Some r => Some ((k, v) :: r)
          end
      end
  end.

(** [build_run_ops_dict(params, run_ops)] with [params['save_lf']];
    [None] is an [IndexError]. *)
Definition build_run_ops_dict (save_lf : bool) (run_ops : list Op)
  : option (gmap string Op) :=
  match entries base_keys 0 run_ops with
  | None => None
  | Some base =>
      let run_ops_dict : gmap string Op := list_to_map base in
      match (if save_lf
             then match entries lf_keys 7 run_ops with
                  | None => None
                  | Some lf => Some (list_to_map lf ∪ run_ops_dict)
                  end
             else Some run_ops_dict) with
      | None => None
      | Some run_ops_dict =>
          match List.last (map Some run_ops) None with
          | None => None
          | Some eps => Some (<["dynamics_eps"%string := eps]> run_ops_dict)
          end
      end
  end.

(** How many operations the dictionary asks for. *)
Definition needed (save_lf : bool) : nat := if save_lf then 17 else 7.

Lemma entries_is_Some keys : forall i run_ops,
  is_Some (entries keys i run_ops)
  <-> (keys = [] \/ i + length keys <= length run_ops)%nat.
Proof.
  induction keys as [|k ks IH]; intros i ops; simpl.
  - split; [by left | by eexists].
  - destruct (ops !! i) as [v|] eqn:Hv.
    + apply lookup_lt_Some in Hv.
      destruct (entries ks (S i) ops) as [r|] eqn:Hr.
      * split; [|by eexists]. intros _. right.
        assert (His : is_Some (entries ks (S i) ops)) by (by rewrite Hr).
        apply IH in His as [->|His]; simpl; lia.
      * split; [by intros [? ?]|]. intros [?|Hlen]; [done|]. exfalso.
        assert (His : is_Some (entries ks (S i) ops)).
        { apply IH. right. lia. }
        rewrite Hr in His. by destruct His.
    + apply lookup_ge_None in Hv.
      split; [by intros [? ?]|]. intros [?|Hlen]; [done | lia].
Qed.

Lemma last_map_Some (l : list Op) :
  is_Some (List.last (map Some l) None) <-> l <> [].
Proof.
  induction l as [|a l IH]; simpl.
  - split; [by intros [? ?] | done].
  - destruct l as [|b l]; [split; [done | by eexists]|].
    split; [done|]. intros _. apply IH. done.
Qed.

Lemma entries_base_is_Some run_ops :
  is_Some (entries base_keys 0 run_ops) <-> (7 <= length run_ops)%nat.
Proof.
  rewrite entries_is_Some. change (length base_keys) with 7%nat.
  split; [intros [?|?]; [done | lia] | intros; right; lia].
Qed.

Lemma entries_lf_is_Some run_ops :
  is_Some (entries lf_keys 7 run_ops) <-> (17 <= length run_ops)%nat.
Proof.
  rewrite entries_is_Some. change (length lf_keys) with 10%nat.
  split; [intros [?|?]; [done | lia] | intros; right; lia].
Qed.

Lemma build_run_ops_dict_is_Some save_lf run_ops :
  is_Some (build_run_ops_dict save_lf run_ops)
  <-> (needed save_lf <= length run_ops)%nat.
Proof.
  unfold build_run_ops_dict, needed.
  pose proof (entries_base_is_Some run_ops) as Hb.
  pose proof (entries_lf_is_Some run_ops) as Hl.
  pose proof (last_map_Some run_ops) as Hlast.
  destruct (entries base_keys 0 run_ops) as [base|].
  2:{ split; [by intros [? ?]|]. intros Hlen.
      assert (H7 : (7 <= length run_ops)%nat) by (destruct save_lf; lia).
      apply Hb in H7. by destruct H7. }
  assert (H7 : (7 <= length run_ops)%nat) by (apply Hb; by eexists).
  assert (Hne : is_Some (List.last (map Some run_ops) None)).
  { apply Hlast. destruct run_ops; [simpl in H7; lia | done]. }
  destruct Hne as [o Ho]. rewrite Ho.
  destruct save_lf.
  - destruct (entries lf_keys 7 run_ops) as [lf|].
    + split; [intros _; apply Hl; by eexists | by eexists].
    + split; [by intros [? ?]|]. intros Hlen. apply Hl in Hlen.
      by destruct Hlen.
  - split; [intros _; exact H7 | by eexists].
Qed.

Lemma last_map_Some_eq (l : list Op) o :
  List.last (map Some l) None = Some o -> List.last l o = o /\ l <> [].
Proof.
  induction l as [|a [|b l] IH]; simpl; [done| |].
  - by intros [= ->].
  - intros H. destruct (IH H) as [Heq _]. split; [exact Heq | done].
Qed.

End RunOps.

Arguments build_run_ops_dict {Op} save_lf run_ops.
Arguments entries {Op} keys i run_ops.

(** [build_run_ops_dict] succeeds exactly when there are at least 7
    operations (17 with [save_lf]); the dictionary then maps ['x_out']
    to the first operation and ['dynamics_eps'] to the last one.  With
    exactly 7 operations and no [save_lf], ['dynamics_eps'] is
    therefore the operation of ['charge_diffs_op']. *)
Theorem build_run_ops_dict_indices
    (Op : Type) (save_lf : bool) (run_ops : list Op) :
  (is_Some (build_run_ops_dict save_lf run_ops)
   <-> (needed save_lf <= length run_ops)%nat)
  /\ forall d, build_run_ops_dict save_lf run_ops = Some d ->
       d !! "x_out"%string = head run_ops
       /\ d !! "dynamics_eps"%string = List.last (map Some run_ops) None
       /\ (save_lf = false -> length run_ops = 7%nat ->
           d !! "dynamics_eps"%string = d !! "charge_diffs_op"%string).
Proof.
  split; [apply build_run_ops_dict_is_Some|].
  intros d Hd. unfold build_run_ops_dict in Hd.
  destruct run_ops as [|o0 [|o1 [|o2 [|o3 [|o4 [|o5 [|o6 rest]]]]]]];
    try discriminate.
  cbn [entries base_keys lookup list_lookup] in Hd.
  destruct (List.last (map Some (o0 :: o1 :: o2 :: o3 :: o4 :: o5 :: o6 :: rest))
              None) as [eps|] eqn:Hlast.
  2:{ destruct save_lf; [destruct (entries _ _ _)|]; discriminate. }
  destruct save_lf.
  - destruct (entries lf_keys 7 _) as [lf|] eqn:Hlfe; [|discriminate].
    injection Hd as <-.
    split; [|split; [by rewrite lookup_insert_eq | discriminate]].
    rewrite lookup_insert_ne by done.
    assert (Hlf : forall ks i l lf', entries ks i l = Some lf' ->
              (forall k, In k ks -> k <> "x_out"%string) ->
              (list_to_map lf' : gmap string Op) !! "x_out"%string = None).
    { clear. induction ks as [|k ks IH]; intros i l lf' H Hk; simpl in H.
      - by injection H as <-.
      - destruct (l !! i); [|discriminate].
        destruct (entries ks (S i) l) as [r|] eqn:Hr; [|discriminate].
        injection H as <-. simpl. rewrite lookup_insert_ne.
        + eapply IH; [exact Hr|]. intros k' Hin. apply Hk. by right.
        + apply Hk. by left. }
    rewrite lookup_union_r; [reflexivity|].
    eapply Hlf; [eassumption|]. intros k Hin. simpl in Hin.
    repeat (destruct Hin as [<-|Hin]; [discriminate|]). done.
  - injection Hd as <-.
    split; [reflexivity|]. split; [by rewrite lookup_insert_eq|].
    intros _ Hlen. destruct rest; [|discriminate].
    simpl in Hlast. injection Hlast as <-. reflexivity.
Qed.

Lemma build_run_ops_dict_indices_witness :
  exists d : gmap string nat,
    build_run_ops_dict false [0; 1; 2; 3; 4; 5; 6]%nat = Some d
    /\ d !! "x_out"%string = Some 0%nat
    /\ d !! "dynamics_eps"%string = Some 6%nat
    /\ d !! "dynamics_eps"%string = d !! "charge_diffs_op"%string.
Proof.
  destruct (build_run_ops_dict_indices nat false [0; 1; 2; 3; 4; 5; 6]%nat)
    as [Hs Hd].
  assert (Hlen : (needed false <= length [0; 1; 2; 3; 4; 5; 6]%nat)%nat)
    by (simpl; lia).
  destruct (proj2 Hs Hlen) as [d Hsome].
  destruct (Hd d Hsome) as (Hx & Heps & Hsame).
  exists d. split; [exact Hsome|]. split; [exact Hx|].
  split; [exact Heps | by apply Hsame].
Defined.

(** ** [calc_observables_stats] *)

Inductive stats_exn : Type :=
| ZeroDivisionError
| IndexError.

(** [np.array(..., dtype=int)] on a float: truncation toward zero. *)
Definition trunc (r : R) : Z :=
  if Rle_dec 0 r then Int_part r else (- Int_part (- r))%Z.

(** [Counter]: counts by key, keys in the order of first occurrence. *)
Fixpoint incr (k : Z) (c : list (Z * nat)) : list (Z * nat) :=
  match c with
  | [] => [(k, 1%nat)]
  | (k', n) :: r => if Z.eqb k k' then (k', S n) :: r else (k', n) :: incr k r
  end.

Definition counter (l : list Z) : list (Z * nat) :=
  fold_left (fun c k => incr k c) l [].

(** [sorted(items, key=lambda k: k[0])]: a stable sort by key. *)
Fixpoint insert_by_key (x : Z * R) (l : list (Z * R)) : list (Z * R) :=
  match l with
  | [] => [x]
  | y :: r => if Z.leb (fst x) (fst y) then x :: y :: r
              else y :: insert_by_key x r
  end.

Definition sorted_by_key (l : list (Z * R)) : list (Z * R) :=
  fold_right insert_by_key [] l.

(** The observables of a run: one row per step, one column per chain. *)
Record run_data : Type := {
  rd_actions : list (list R);
  rd_plaqs : list (list R);
  rd_charges : list (list R)
}.

Record stats : Type := {
  st_actions : list (R * R);
  st_plaqs : list (R * R);
  st_charges : list (R * R);
  st_suscept : list (R * R);
  st_charge_probs : list (Z * R)
}.

Section Stats.
(** [np.mean] and [scipy.stats.sem] along axis 0, paired per column. *)
Variable column_stats : list (list R) -> list (R * R).

(** [get_stats(data, t_frac)]: [num_steps // t_frac] raises
    [ZeroDivisionError] for [t_frac = 0]; the two-dimensional slice
    raises [IndexError] on an array without rows. *)
Definition get_stats (data : list (list R)) (t_frac : nat)
  : stats_exn + list (R * R) :=
  let num_steps := length data in
  if Nat.eqb t_frac 0 then inl ZeroDivisionError
  else
    let therm_steps := (num_steps / t_frac)%nat in
    match data with
    | [] => inl IndexError
    | _ => inr (column_stats (drop therm_steps data))
    end.

(** The probabilities of the charges: the count of each value over the
    total of the counts, ordered by value. *)
Definition charge_probs (charges_arr : list (list Z)) : list (Z * R) :=
  let counts := counter (concat charges_arr) in
  let total_counts := fold_right plus 0%nat (map snd counts) in
  sorted_by_key
    (map (fun kv => (fst kv, INR (snd kv) / INR total_counts)) counts).

(** [calc_observables_stats(run_data, therm_frac)]. *)
Definition calc_observables_stats (rd : run_data) (therm_frac : nat)
  : stats_exn + stats :=
  match get_stats (rd_actions rd) therm_frac with
  | inl e => inl e
  | inr actions_stats =>
  match get_stats (rd_plaqs rd) therm_frac with
  | inl e => inl e
  | inr plaqs_stats =>
  let charges_arr := map (map trunc) (rd_charges rd) in
  match get_stats (map (map IZR) charges_arr) therm_frac with
  | inl e => inl e
  | inr charges_stats =>
  let suscept_arr := map (map (fun q => (q * q)%Z)) charges_arr in
  match get_stats (map (map IZR) suscept_arr) 10 with
  | inl e => inl e
  | inr suscept_stats =>
      inr {| st_actions := actions_stats;
             st_plaqs := plaqs_stats;
             st_charges := charges_stats;
             st_suscept := suscept_stats;
             st_charge_probs := charge_probs charges_arr |}
  end end end end.

End Stats.

(** The sum of a list of reals. *)
Definition Rsum (l : list R) : R := fold_right Rplus 0 l.

Lemma incr_total k c :
  fold_right plus 0%nat (map snd (incr k c))
  = S (fold_right plus 0%nat (map snd c)).
Proof.
  induction c as [|[k' n] c IH]; simpl; [reflexivity|].
  destruct (Z.eqb k k'); simpl; [reflexivity|]. rewrite IH. lia.
Qed.

Lemma counter_total l :
  fold_right plus 0%nat (map snd (counter l)) = length l.
Proof.
  unfold counter.
  assert (H : forall c, fold_right plus 0%nat
                          (map snd (fold_left (fun c k => incr k c) l c))
                        = (length l + fold_right plus 0%nat (map snd c))%nat).
  { induction l as [|k l IH]; intros c; simpl; [reflexivity|].
    rewrite IH, incr_total. lia. }
  rewrite H. simpl. lia.
Qed.

Lemma insert_by_key_sum x l :
  Rsum (map snd (insert_by_key x l)) = (snd x + Rsum (map snd l))%R.
Proof.
  induction l as [|y l IH]; simpl; [reflexivity|].
  destruct (Z.leb (fst x) (fst y)); simpl; [reflexivity|].
  unfold Rsum in *. rewrite IH. simpl. lra.
Qed.

Lemma sorted_by_key_sum l :
  Rsum (map snd (sorted_by_key l)) = Rsum (map snd l).
Proof.
  induction l as [|x l IH]; simpl; [reflexivity|].
  rewrite insert_by_key_sum. unfold Rsum in *. simpl. by rewrite IH.
Qed.

Lemma ratio_sum (c : list (Z * nat)) (t : R) :
  Rsum (map snd (map (fun kv => (fst kv, INR (snd kv) / t)) c))
  = (INR (fold_right plus 0%nat (map snd c)) / t)%R.
Proof.
  induction c as [|[k n] c IH]; simpl.
  - unfold Rdiv. by rewrite Rmult_0_l.
  - unfold Rsum in *. rewrite IH, plus_INR. unfold Rdiv. ring.
Qed.

Lemma insert_by_key_sorted x l :
  Sorted (fun a b => (fst a <= fst b)%Z) l ->
  Sorted (fun a b => (fst a <= fst b)%Z) (insert_by_key x l).
Proof.
  induction 1 as [|y l Hs IH Hhd]; simpl.
  - by repeat constructor.
  - destruct (Z.leb (fst x) (fst y)) eqn:Hle.
    + apply Z.leb_le in Hle. constructor; [by constructor|].
      by constructor.
    + apply Z.leb_gt in Hle. constructor; [exact IH|].
      destruct l as [|z l]; simpl.
      * constructor. lia.
      * destruct (Z.leb (fst x) (fst z)); constructor; [lia|].
        by inversion Hhd.
Qed.

Lemma sorted_by_key_sorted l :
  Sorted (fun a b => (fst a <= fst b)%Z) (sorted_by_key l).
Proof.
  induction l as [|x l IH]; simpl; [constructor|].
  by apply insert_by_key_sorted.
Qed.

(** With floats modelled as reals (the quotients [val / total_counts]
    exact): when there is at least one charge, the charge probabilities
    add up to one; they come ordered by charge. *)
Theorem charge_probs_sum_to_one (charges_arr : list (list Z)) :
  concat charges_arr <> [] ->
  Rsum (map snd (charge_probs charges_arr)) = 1
  /\ Sorted (fun a b => (fst a <= fst b)%Z) (charge_probs charges_arr).
Proof.
  intros Hne. unfold charge_probs. split; [|apply sorted_by_key_sorted].
  rewrite sorted_by_key_sum, ratio_sum, counter_total.
  assert (Hlen : (0 < length (concat charges_arr))%nat).
  { destruct (concat charges_arr); [done | simpl; lia]. }
  apply lt_INR in Hlen. simpl in Hlen. field. lra.
Qed.

Lemma charge_probs_sum_to_one_witness :
  concat [[0%Z; 1%Z]; [0%Z; (-1)%Z]] <> []
  /\ Rsum (map snd (charge_probs [[0%Z; 1%Z]; [0%Z; (-1)%Z]])) = 1.
Proof.
  split; [discriminate|].
  apply (charge_probs_sum_to_one [[0%Z; 1%Z]; [0%Z; (-1)%Z]]). discriminate.
Defined.

Example charge_probs_example :
  map fst (charge_probs [[0%Z; 1%Z]; [0%Z; (-1)%Z]]) = [(-1)%Z; 0%Z; 1%Z].
Proof. reflexivity. Qed.

(** The statistics of the susceptibility and the charge probabilities
    do not depend on [therm_frac]: the former always drop the first
    tenth of the steps, the latter count all steps. *)
Theorem calc_observables_stats_ignores_therm_frac
    (column_stats : list (list R) -> list (R * R))
    (rd : run_data) (therm_frac therm_frac' : nat) (s s' : stats) :
  calc_observables_stats column_stats rd therm_frac = inr s ->
  calc_observables_stats column_stats rd therm_frac' = inr s' ->
  st_suscept s = st_suscept s'
  /\ st_charge_probs s = st_charge_probs s'
  /\ st_suscept s
     = column_stats
         (drop (length (rd_charges rd) / 10)
               (map (map IZR)
                    (map (map (fun q => (q * q)%Z))
                         (map (map trunc) (rd_charges rd))))).
Proof.
  unfold calc_observables_stats. intros H H'.
  destruct (get_stats column_stats (rd_actions rd) therm_frac); [done|].
  destruct (get_stats column_stats (rd_plaqs rd) therm_frac); [done|].
  destruct (get_stats column_stats _ therm_frac); [done|].
  destruct (get_stats column_stats (rd_actions rd) therm_frac'); [done|].
  destruct (get_stats column_stats (rd_plaqs rd) therm_frac'); [done|].
  destruct (get_stats column_stats _ therm_frac'); [done|].
  destruct (get_stats column_stats _ 10) as [e|su] eqn:Hsu; [done|].
  injection H as <-. injection H' as <-. simpl.
  split; [reflexivity|]. split; [reflexivity|].
  unfold get_stats in Hsu. simpl in Hsu.
  rewrite !length_map in Hsu.
  destruct (rd_charges rd) as [|row rows]; [done|].
  simpl in Hsu. by injection Hsu as <-.
Qed.

(** Two steps of two chains, with the length of its argument for the
    column statistics. *)
Definition toy_run_data : run_data :=
  {| rd_actions := [[1; 2]; [3; 4]];
     rd_plaqs := [[0; 0]; [0; 0]];
     rd_charges := [[0; 1]; [1; 0]] |}.

Definition toy_column_stats (data : list (list R)) : list (R * R) :=
  [(INR (length data), 0)].

Lemma calc_observables_stats_ignores_therm_frac_witness :
  exists s s',
    calc_observables_stats toy_column_stats toy_run_data 1 = inr s
    /\ calc_observables_stats toy_column_stats toy_run_data 2 = inr s'
    /\ st_suscept s = st_suscept s'
    /\ st_charge_probs s = st_charge_probs s'.
Proof.
  destruct (calc_observables_stats toy_column_stats toy_run_data 1)
    as [e|s] eqn:H1; [discriminate H1|].
  destruct (calc_observables_stats toy_column_stats toy_run_data 2)
    as [e|s'] eqn:H2; [discriminate H2|].
  exists s, s'. split; [reflexivity|]. split; [reflexivity|].
  destruct (calc_observables_stats_ignores_therm_frac
              toy_column_stats toy_run_data 1 2 s s' H1 H2) as (Hs & Hp & _).
  split; [exact Hs | exact Hp].
Defined.

(** [therm_frac = 0] is a [ZeroDivisionError]; a run without steps is
    an [IndexError] for every other [therm_frac]. *)
Theorem calc_observables_stats_errors
    (column_stats : list (list R) -> list (R * R))
    (rd : run_data) (therm_frac : nat) :
  (therm_frac = 0%nat ->
   calc_observables_stats column_stats rd therm_frac = inl ZeroDivisionError)
  /\ (therm_frac <> 0%nat -> rd_actions rd = [] ->
      calc_observables_stats column_stats rd therm_frac = inl IndexError).
Proof.
  unfold calc_observables_stats, get_stats. split.
  - by intros ->.
  - intros Hn ->. apply Nat.eqb_neq in Hn. by rewrite Hn.
Qed.

Lemma calc_observables_stats_errors_witness :
  calc_observables_stats toy_column_stats toy_run_data 0
  = inl ZeroDivisionError
  /\ 3%nat <> 0%nat
  /\ rd_actions {| rd_actions := []; rd_plaqs := []; rd_charges := [] |} = []
  /\ calc_observables_stats toy_column_stats
       {| rd_actions := []; rd_plaqs := []; rd_charges := [] |} 3
     = inl IndexError.
Proof.
  split.
  - apply (calc_observables_stats_errors toy_column_stats toy_run_data 0).
    reflexivity.
  - split; [discriminate|]. split; [reflexivity|].
    apply (calc_observables_stats_errors toy_column_stats
             {| rd_actions := []; rd_plaqs := []; rd_charges := [] |} 3);
      [discriminate | reflexivity].
Defined.

End Runner.

(* ===================================================================== *)
(** * l2hmc/trainers/pytorch/trainer.py                                   *)
(* ===================================================================== *)

Module Trainer.
Import Angles.
Local Open Scope R_scope.

(** What a call of the dynamics returns, as far as the trainer reads it:
    the output configuration, [metrics.pop('mc_states').proposed.x],
    [metrics['acc']] and the remaining metrics. *)
Record dyn_out : Type := {
  x_out : list R;
  proposed_x : list R;
  acc : list R;
  metrics : gmap string (list R)
}.

Section Trainer.
(** The learned parameters of the dynamics (network weights and step
    sizes), the state of the optimizer, gradients, and losses (scalar
    tensors with their autograd graph). *)
Variables Params OptState Grads Loss : Type.
(** The randomness one call of the dynamics consumes. *)
Variable Omega : Type.
(** [self.dynamics((x, beta))] under given parameters. *)
Variable dynamics : Params -> list R * R -> Omega -> dyn_out.
(** [self.loss_fn(x_init=, x_prop=, acc=)]. *)
Variable loss_fn : list R -> list R -> list R -> Loss.
(** Arithmetic on losses: [w * loss], [loss + loss], [loss / r]. *)
Variable loss_scale : R -> Loss -> Loss.
Variable loss_add : Loss -> Loss -> Loss.
Variable loss_div : Loss -> R -> Loss.
(** [accelerator.backward(loss)] after [optimizer.zero_grad()]: the
    gradient of the loss at the current parameters. *)
Variable backward : Params -> Loss -> Grads.
(** [optimizer.step()]. *)
Variable optimizer_step : Params * OptState -> Grads -> Params * OptState.
(** [self.aux_weight]. *)
Variable aux_weight : R.

(** The trainer's mutable state.  [trajectories] is an observation: the
    inputs of the calls of the dynamics, oldest first. *)
Record state : Type := {
  params : Params;
  opt_state : OptState;
  trajectories : list (list R)
}.

(** The random draws of one step: the two calls of the dynamics and
    [random_angle(self.xshape)] behind [self.draw_x()]. *)
Record draws : Type := {
  omega_main : Omega;
  omega_aux : Omega;
  noise : list R
}.

(** [draw_x]: the reshape keeps the flattened coordinates. *)
Definition draw_x (rnd : draws) : list R := noise rnd.

(** [self.dynamics(...)], recording the configuration it starts from. *)
Definition call_dynamics (st : state) (x : list R) (beta : R) (w : Omega)
  : dyn_out * state :=
  (dynamics (params st) (x, beta) w,
   {| params := params st; opt_state := opt_state st;
      trajectories := trajectories st ++ [x] |}).

(** The loss of [train_step] before the optimizer is touched, with the
    state after the calls of the dynamics and the main output. *)
Definition train_loss (st : state) (inputs : list R * R) (rnd : draws)
  : Loss * dyn_out * state :=
  let '(x_init, beta) := inputs in
  let '(out, st) := call_dynamics st (to_u1 x_init) beta (omega_main rnd) in
  let x_prop := to_u1 (proposed_x out) in
  let loss := loss_fn x_init x_prop (acc out) in
  if Rlt_dec 0 aux_weight then
    let yinit := to_u1 (draw_x rnd) in
    let '(out_, st) := call_dynamics st yinit beta (omega_aux rnd) in
    let yprop := to_u1 (proposed_x out_) in
    let aux_loss := loss_scale aux_weight (loss_fn yinit yprop (acc out_)) in
    (loss_div (loss_add loss aux_loss) (1 + aux_weight), out, st)
  else (loss, out, st).

(** [train_step(inputs)]: returns the wrapped output configuration and
    the record (the loss and the metrics of the main call). *)
Definition train_step (st : state) (inputs : list R * R) (rnd : draws)
  : (list R * (Loss * gmap string (list R))) * state :=
  let '(loss, out, st) := train_loss st inputs rnd in
  let grads := backward (params st) loss in
  let '(p, o) := optimizer_step (params st, opt_state st) grads in
  ((to_u1 (x_out out), (loss, metrics out)),
   {| params := p; opt_state := o; trajectories := trajectories st |}).

(** [eval_step(inputs)]. *)
Definition eval_step (st : state) (inputs : list R * R) (w : Omega)
  : (list R * (Loss * gmap string (list R))) * state :=
  let '(xinit, beta) := inputs in
  let '(out, st) := call_dynamics st (to_u1 xinit) beta w in
  let xprop := to_u1 (proposed_x out) in
  let loss := loss_fn xinit xprop (acc out) in
  ((to_u1 (x_out out), (loss, metrics out)), st).

(** ** Properties *)

Lemma train_loss_params st inputs rnd :
  params (snd (train_loss st inputs rnd)) = params st
  /\ opt_state (snd (train_loss st inputs rnd)) = opt_state st.
Proof.
  unfold train_loss. destruct inputs as [x_init beta]. simpl.
  destruct (Rlt_dec 0 aux_weight); simpl; auto.
Qed.

(** The optimizer is stepped in every training step, with the gradient
    of whatever loss was computed. *)
Lemma train_step_always_updates st inputs rnd :
  let loss := fst (fst (train_loss st inputs rnd)) in
  (params (snd (train_step st inputs rnd)),
   opt_state (snd (train_step st inputs rnd)))
  = optimizer_step (params st, opt_state st) (backward (params st) loss).
Proof.
  intros loss. unfold train_step.
  pose proof (train_loss_params st inputs rnd) as [Hp Ho]. subst loss.
  destruct (train_loss st inputs rnd) as [[l out] st']. simpl in *.
  rewrite Hp, Ho.
  destruct (optimizer_step (params st, opt_state st) (backward (params st) l)).
  reflexivity.
Qed.

Lemma train_step_aux st x_init beta rnd :
  0 < aux_weight ->
  let main := dynamics (params st) (to_u1 x_init, beta) (omega_main rnd) in
  let yinit := to_u1 (noise rnd) in
  let aux := dynamics (params st) (yinit, beta) (omega_aux rnd) in
  trajectories (snd (train_step st (x_init, beta) rnd))
  = trajectories st ++ [to_u1 x_init; yinit]
  /\ fst (snd (fst (train_step st (x_init, beta) rnd)))
     = loss_div
         (loss_add (loss_fn x_init (to_u1 (proposed_x main)) (acc main))
                   (loss_scale aux_weight
                      (loss_fn yinit (to_u1 (proposed_x aux)) (acc aux))))
         (1 + aux_weight).
Proof.
  intros Hw. unfold train_step, train_loss, call_dynamics, draw_x. simpl.
  destruct (Rlt_dec 0 aux_weight) as [_|Hn]; [|contradiction]. simpl.
  destruct (optimizer_step _ _). simpl. by rewrite <- app_assoc.
Qed.

Lemma train_step_no_aux st x_init beta rnd :
  aux_weight <= 0 ->
  let main := dynamics (params st) (to_u1 x_init, beta) (omega_main rnd) in
  trajectories (snd (train_step st (x_init, beta) rnd))
  = trajectories st ++ [to_u1 x_init]
  /\ fst (snd (fst (train_step st (x_init, beta) rnd)))
     = loss_fn x_init (to_u1 (proposed_x main)) (acc main).
Proof.
  intros Hw. unfold train_step, train_loss, call_dynamics. simpl.
  destruct (Rlt_dec 0 aux_weight) as [Hp|_]; [lra|]. simpl.
  destruct (optimizer_step _ _). simpl. auto.
Qed.

Lemma train_step_x_range st inputs rnd :
  Forall (fun a => - PI <= a < PI) (fst (fst (train_step st inputs rnd))).
Proof.
  unfold train_step. destruct (train_loss st inputs rnd) as [[l out] st'].
  destruct (optimizer_step _ _). simpl. apply to_u1_range.
Qed.

Lemma eval_step_x_range st inputs w :
  Forall (fun a => - PI <= a < PI) (fst (fst (eval_step st inputs w))).
Proof.
  unfold eval_step. destruct inputs as [xinit beta]. simpl. apply to_u1_range.
Qed.

End Trainer.

Arguments params {Params OptState} s.
Arguments opt_state {Params OptState} s.
Arguments trajectories {Params OptState} s.
Arguments Build_state {Params OptState} params opt_state trajectories.
Arguments Build_draws {Omega} omega_main omega_aux noise.
Arguments noise {Omega} d.
Arguments omega_main {Omega} d.
Arguments omega_aux {Omega} d.

(** ** A concrete trainer with a loss that blows up *)

(** Dynamics that propose the configuration they were given. *)
Definition still_dynamics (p : option R) (xb : list R * R) (w : unit)
  : dyn_out :=
  {| x_out := fst xb; proposed_x := fst xb; acc := [1]; metrics := ∅ |}.

(** A loss in the shape of the spec's, [1 / jump + jump] with the
    squared jump distance: non-finite ([None]) when the jump is zero. *)
Definition inverse_jump_loss (x_init x_prop acc : list R) : option R :=
  let jump := fold_right Rplus 0
                (zip_with (fun a b => (a - b) ^ 2) x_init x_prop) in
  if Req_dec_T jump 0 then None else Some (1 / jump + jump).

Definition opt_scale (w : R) (l : option R) : option R :=
  match l with Some a => Some (w * a) | None => None end.
Definition opt_add (l1 l2 : option R) : option R :=
  match l1, l2 with Some a, Some b => Some (a + b) | _, _ => None end.
Definition opt_div (l : option R) (r : R) : option R :=
  match l with Some a => Some (a / r) | None => None end.

(** The gradient is non-finite when the loss is. *)
Definition toy_backward (p : option R) (l : option R) : option R := l.

(** Gradient descent; a non-finite gradient makes the weight
    non-finite. *)
Definition sgd_step (po : option R * unit) (g : option R) : option R * unit :=
  (match fst po, g with
   | Some a, Some b => Some (a - b / 10)
   | _, _ => None
   end, snd po).

Definition toy_train_step :=
  train_step (option R) unit (option R) (option R) unit
             still_dynamics inverse_jump_loss opt_scale opt_add opt_div
             toy_backward sgd_step 0.

Definition toy_state : state (option R) unit :=
  {| params := Some 1; opt_state := tt; trajectories := [] |}.

Definition toy_draws : draws unit :=
  {| omega_main := tt; omega_aux := tt; noise := [] |}.

Lemma to_u1_zero : to_u1 [0] = [0].
Proof.
  unfold to_u1. simpl. f_equal.
  rewrite np_mod_small; [lra|]. pose proof PI_RGT_0. lra.
Qed.

(** C4 (as stated) fails: the step below computes a non-finite loss, and
    the optimizer is stepped all the same; the weight, 1 before, is
    non-finite after. *)
Lemma train_step_nonfinite_loss_updates :
  let res := toy_train_step toy_state ([0], 1) toy_draws in
  fst (snd (fst res)) = None
  /\ params toy_state = Some 1
  /\ params (snd res) = None
  /\ params (snd res) <> params toy_state.
Proof.
  intros res.
  assert (Hloss : fst (snd (fst res)) = None).
  { subst res. unfold toy_train_step.
    destruct (train_step_no_aux (option R) unit (option R) (option R) unit
                still_dynamics inverse_jump_loss opt_scale opt_add opt_div
                toy_backward sgd_step 0 toy_state [0] 1 toy_draws
                (Rle_refl 0)) as [_ ->].
    cbn [still_dynamics proposed_x acc fst]. rewrite !to_u1_zero.
    unfold inverse_jump_loss. cbn [zip_with fold_right].
    destruct (Req_dec_T _ 0) as [_|Hn]; [reflexivity|]. exfalso. apply Hn. lra. }
  assert (Hpar : params (snd res) = None).
  { pose proof (train_step_always_updates (option R) unit (option R) (option R)
                  unit still_dynamics inverse_jump_loss opt_scale opt_add
                  opt_div toy_backward sgd_step 0 toy_state ([0], 1) toy_draws)
      as Hup.
    cbv zeta in Hup. fold toy_train_step in Hup. fold res in Hup.
    apply (f_equal fst) in Hup. cbn [fst] in Hup. rewrite Hup.
    assert (Hl : fst (fst (train_loss (option R) unit (option R) unit
                   still_dynamics inverse_jump_loss opt_scale opt_add opt_div 0
                   toy_state ([0], 1) toy_draws)) = fst (snd (fst res))).
    { subst res. unfold toy_train_step, train_step.
      destruct (train_loss _ _ _ _ _ _ _ _ _ _ _ _ _) as [[l out] st'].
      destruct (sgd_step _ _). reflexivity. }
    rewrite Hl, Hloss. reflexivity. }
  split; [exact Hloss|]. split; [reflexivity|]. split; [exact Hpar|].
  rewrite Hpar. discriminate.
Qed.

(** C4 (amended). Every training step steps the optimizer, whatever the
    loss: the parameters and the optimizer state after the step are
    those [optimizer.step()] produces from the gradient of the loss the
    step reports. *)
Theorem train_step_applies_optimizer
    (Params OptState Grads Loss Omega : Type)
    (dynamics : Params -> list R * R -> Omega -> dyn_out)
    (loss_fn : list R -> list R -> list R -> Loss)
    (loss_scale : R -> Loss -> Loss) (loss_add : Loss -> Loss -> Loss)
    (loss_div : Loss -> R -> Loss)
    (backward : Params -> Loss -> Grads)
    (optimizer_step : Params * OptState -> Grads -> Params * OptState)
    (aux_weight : R)
    (st : state Params OptState) (inputs : list R * R) (rnd : draws Omega) :
  let res := train_step Params OptState Grads Loss Omega dynamics loss_fn
               loss_scale loss_add loss_div backward optimizer_step
               aux_weight st inputs rnd in
  (params (snd res), opt_state (snd res))
  = optimizer_step (params st, opt_state st)
      (backward (params st) (fst (snd (fst res)))).
Proof.
  intros res. subst res. unfold train_step.
  pose proof (train_loss_params Params OptState Loss Omega dynamics loss_fn
                loss_scale loss_add loss_div aux_weight st inputs rnd)
    as [Hp Ho].
  destruct (train_loss _ _ _ _ _ _ _ _ _ _ _ _ _) as [[l out] st'].
  simpl in Hp, Ho. rewrite Hp, Ho.
  destruct (optimizer_step (params st, opt_state st) (backward (params st) l))
    as [p o] eqn:Hstep.
  simpl. by rewrite Hstep.
Qed.

(** ** The loops: [eval] and [train] *)

(** [self.steps]. *)
Record steps : Type := {
  nera : nat;
  nepoch : nat;
  test : nat;
  log : nat;
  print : nat
}.

Inductive exn : Type :=
| KeyError (key : string)
| ZeroDivisionError.

Section Loops.
Variables Params OptState Grads Loss Omega : Type.
Variable dynamics : Params -> list R * R -> Omega -> dyn_out.
Variable loss_fn : list R -> list R -> list R -> Loss.
Variable loss_scale : R -> Loss -> Loss.
Variable loss_add : Loss -> Loss -> Loss.
Variable loss_div : Loss -> R -> Loss.
Variable backward : Params -> Loss -> Grads.
Variable optimizer_step : Params * OptState -> Grads -> Params * OptState.
Variable aux_weight : R.
(** [self.steps], [self.schedule.betas], [self.schedule.beta_final] and
    [self.accelerator.is_local_main_process]. *)
Variable trainer_steps : steps.
Variable betas : gmap string R.
Variable beta_final : R.
Variable is_local_main_process : bool.
(** [self.optimizer.state[self.optimizer.param_groups[0]['params'][-1]]
    ['step']]: the step count the optimizer keeps for its last
    parameter; [None] when it keeps none (a [KeyError]). *)
Variable gstep : OptState -> option nat.

Local Abbreviation train_step_ :=
  (train_step Params OptState Grads Loss Omega dynamics loss_fn loss_scale
              loss_add loss_div backward optimizer_step aux_weight).
Local Abbreviation eval_step_ :=
  (eval_step Params OptState Loss Omega dynamics loss_fn).

(** [should_log(epoch)] and [should_print(epoch)]: the remainder is
    taken before the process is asked about. *)
Definition should_log (epoch : nat) : exn + bool :=
  if Nat.eqb (log trainer_steps) 0 then inl ZeroDivisionError
  else inr (Nat.eqb (epoch mod log trainer_steps) 0 && is_local_main_process).

Definition should_print (epoch : nat) : exn + bool :=
  if Nat.eqb (print trainer_steps) 0 then inl ZeroDivisionError
  else inr (Nat.eqb (epoch mod print trainer_steps) 0 && is_local_main_process).

(** [self.should_print(epoch) or self.should_log(epoch)]. *)
Definition should_report (epoch : nat) : exn + bool :=
  match should_print epoch with
  | inl e => inl e
  | inr true => inr true
  | inr false => should_log epoch
  end.

(** The loop of [eval(beta, x)] over the steps: every step feeds the
    configuration of the step before, appends its output to [xarr] and
    asks [should_print(step)].  Tables, summaries and histories are not
    modelled. *)
Fixpoint eval_loop (st : state Params OptState) (x : list R) (beta : R)
    (ws : list (nat * Omega))
  : exn + (list (list R) * state Params OptState) :=
  match ws with
  | [] => inr ([], st)
  | (step, w) :: ws' =>
      let '((x', _), st') := eval_step_ st (x, beta) w in
      match should_print step with
      | inl e => inl e
      | inr _ =>
          match eval_loop st' x' beta ws' with
          | inl e => inl e
          | inr (xarr, st'') => inr (x' :: xarr, st'')
          end
      end
  end.

(** [eval(beta, x)]: [x] defaults to a fresh [random_angle] draw,
    [beta] to the final one; the result is ['xarr'] and the trainer. *)
Definition eval (st : state Params OptState) (beta : option R)
    (x : option (list R)) (fresh : list R) (omegas : nat -> Omega)
  : exn + (list (list R) * state Params OptState) :=
  let beta := default beta_final beta in
  let x := default fresh x in
  eval_loop st x beta
    (map (fun step => (step, omegas step)) (seq 0 (test trainer_steps))).

(** What the loops of [train] carry: the configuration, the trainer,
    the saved configurations, the loss of the last record (the entry
    [metrics['loss']], missing before the first step), the variable
    [epoch] and the checkpoints written, as [(era, epoch)]. *)
Record train_vars : Type := {
  tv_x : list R;
  tv_state : state Params OptState;
  tv_xarr : list (list R);
  tv_loss : option Loss;
  tv_epoch : nat;
  tv_ckpts : list (nat * nat)
}.

(** [setup_SummaryWriter]: a writer on the main process, [None] on the
    others. *)
Definition writer : bool := is_local_main_process.

(** The [for epoch in range(self.steps.nepoch)] loop of one era.  On a
    reported epoch a process with a writer reads the optimizer's step
    count before it updates the summaries.  The conversion of the
    metrics, the history, the summaries and the tables are not
    modelled. *)
Fixpoint epoch_loop (save_x : bool) (beta : R) (rnd : nat -> draws Omega)
    (epochs : list nat) (v : train_vars) : exn + train_vars :=
  match epochs with
  | [] => inr v
  | epoch :: rest =>
      let '((x, (loss, _)), st) := train_step_ (tv_state v) (tv_x v, beta)
                                               (rnd epoch) in
      match should_report epoch with
      | inl e => inl e
      | inr report =>
          let next :=
            epoch_loop save_x beta rnd rest
              {| tv_x := x; tv_state := st;
                 tv_xarr := if report && save_x then tv_xarr v ++ [x]
                            else tv_xarr v;
                 tv_loss := Some loss; tv_epoch := epoch;
                 tv_ckpts := tv_ckpts v |} in
          if report && writer then
            match gstep (opt_state st) with
            | None => inl (KeyError "step")
            | Some _ => next
            end
          else next
      end
  end.

(** The [for era in range(self.steps.nera)] loop: the inverse
    temperature of the era is [betas[str(era)]]; after the epochs the
    main process checkpoints with [loss=metrics['loss']]. *)
Fixpoint era_loop (save_x : bool) (rnd : nat -> nat -> draws Omega)
    (eras : list nat) (v : train_vars) : exn + train_vars :=
  match eras with
  | [] => inr v
  | era :: rest =>
      match betas !! pretty era with
      | None => inl (KeyError (pretty era))
      | Some beta =>
          match epoch_loop save_x beta (rnd era)
                           (seq 0 (nepoch trainer_steps)) v with
          | inl e => inl e
          | inr v =>
              if is_local_main_process then
                match tv_loss v with
                | None => inl (KeyError "loss")
                | Some _ =>
                    era_loop save_x rnd rest
                      {| tv_x := tv_x v; tv_state := tv_state v;
                         tv_xarr := tv_xarr v; tv_loss := tv_loss v;
                         tv_epoch := tv_epoch v;
                         tv_ckpts := tv_ckpts v ++ [(era, tv_epoch v)] |}
                end
              else era_loop save_x rnd rest v
          end
      end
  end.

(** [train(x, save_x)]. *)
Definition train (st : state Params OptState) (x : option (list R))
    (fresh : list R) (save_x : bool) (rnd : nat -> nat -> draws Omega)
  : exn + train_vars :=
  era_loop save_x rnd (seq 0 (nera trainer_steps))
    {| tv_x := default fresh x; tv_state := st; tv_xarr := [];
       tv_loss := None; tv_epoch := 0; tv_ckpts := [] |}.

(** The number of trajectories one training step runs. *)
Definition per_step : nat := if Rlt_dec 0 aux_weight then 2 else 1.

(** ** Properties of [eval] *)

Definition in_u1 (x : list R) : Prop := Forall (fun a => - PI <= a < PI) x.

Lemma eval_loop_spec ws : forall st x beta,
  print trainer_steps <> 0%nat ->
  exists xarr st',
    eval_loop st x beta ws = inr (xarr, st')
    /\ length xarr = length ws
    /\ Forall in_u1 xarr
    /\ params st' = params st
    /\ opt_state st' = opt_state st
    /\ length (trajectories st')
       = (length (trajectories st) + length ws)%nat.
Proof.
  induction ws as [|[step w] ws IH]; intros st x beta Hp.
  - exists [], st. simpl. repeat split; [constructor | lia].
  - cbn [eval_loop].
    pose proof (eval_step_x_range Params OptState Loss Omega dynamics loss_fn
                  st (x, beta) w) as Hx.
    assert (Hst : let st' := snd (eval_step_ st (x, beta) w) in
                  params st' = params st /\ opt_state st' = opt_state st
                  /\ length (trajectories st')
                     = S (length (trajectories st))).
    { unfold eval_step, call_dynamics. simpl.
      rewrite length_app. simpl. repeat split; lia. }
    destruct (eval_step_ st (x, beta) w) as [[x' m] st'].
    simpl in Hx, Hst. destruct Hst as (Hp' & Ho & Ht).
    assert (Hpr : exists b, should_print step = inr b).
    { unfold should_print. apply Nat.eqb_neq in Hp. rewrite Hp. by eexists. }
    destruct Hpr as [b ->].
    destruct (IH st' x' beta Hp) as (xarr & st'' & -> & Hl & Hall & Hp'' & Ho' & Ht').
    exists (x' :: xarr), st''. split; [reflexivity|].
    simpl. repeat split.
    + by rewrite Hl.
    + by constructor.
    + by rewrite Hp''.
    + by rewrite Ho'.
    + rewrite Ht', Ht. lia.
Qed.

(** ** Properties of [train] *)

Lemma train_step_shape st inputs rnd :
  let r := train_step_ st inputs rnd in
  in_u1 (fst (fst r))
  /\ length (trajectories (snd r))
     = (length (trajectories st) + per_step)%nat.
Proof.
  split; [apply train_step_x_range|].
  unfold train_step, train_loss, call_dynamics, per_step.
  destruct inputs as [x beta]. simpl.
  destruct (Rlt_dec 0 aux_weight); simpl; destruct (optimizer_step _ _);
    simpl; rewrite ?length_app; simpl; lia.
Qed.

(** The optimizer keeps a step count once it has been stepped, where
    the count is read. *)
Definition counts_steps : Prop :=
  is_local_main_process = true ->
  forall po g, is_Some (gstep (snd (optimizer_step po g))).

Lemma train_step_opt_state st inputs rnd :
  exists po g,
    opt_state (snd (train_step_ st inputs rnd)) = snd (optimizer_step po g).
Proof.
  pose proof (train_step_always_updates Params OptState Grads Loss Omega
                dynamics loss_fn loss_scale loss_add loss_div backward
                optimizer_step aux_weight st inputs rnd) as Hup.
  cbv zeta in Hup. apply (f_equal snd) in Hup. cbn [snd] in Hup.
  by do 2 eexists.
Qed.

Lemma epoch_loop_spec save_x beta rnd epochs : forall v,
  print trainer_steps <> 0%nat -> log trainer_steps <> 0%nat ->
  counts_steps ->
  exists v',
    epoch_loop save_x beta rnd epochs v = inr v'
    /\ length (trajectories (tv_state v'))
       = (length (trajectories (tv_state v)) + length epochs * per_step)%nat
    /\ tv_ckpts v' = tv_ckpts v
    /\ (epochs <> [] ->
        in_u1 (tv_x v') /\ is_Some (tv_loss v')
        /\ tv_epoch v' = List.last epochs 0%nat)
    /\ (epochs = [] -> v' = v).
Proof.
  intros v Hp Hl Hcount. revert v.
  induction epochs as [|epoch rest IH]; intros v.
  - exists v. simpl. repeat split; try done; lia.
  - cbn [epoch_loop].
    pose proof (train_step_shape (tv_state v) (tv_x v, beta) (rnd epoch))
      as [Hx Ht].
    pose proof (train_step_opt_state (tv_state v) (tv_x v, beta) (rnd epoch))
      as (po & g & Hopt).
    destruct (train_step_ (tv_state v) (tv_x v, beta) (rnd epoch))
      as [[x [loss m]] st]. simpl in Hx, Ht, Hopt.
    assert (Hrep : exists b, should_report epoch = inr b).
    { unfold should_report, should_print, should_log.
      apply Nat.eqb_neq in Hp, Hl. rewrite Hp, Hl.
      destruct (_ && _); by eexists. }
    destruct Hrep as [report ->]. cbv zeta.
    match goal with |- context [epoch_loop _ _ _ rest ?v0] =>
      destruct (IH v0) as (v' & Hrun & Hlen & Hck & Hne & Hnil) end.
    assert (Hread : (if report && writer
                     then match gstep (opt_state st) with
                          | None => inl (KeyError "step")
                          | Some _ => inr v'
                          end
                     else inr v') = inr v').
    { destruct (report && writer) eqn:Hrw; [|reflexivity].
      apply andb_true_iff in Hrw as [_ Hw]. unfold writer in Hw.
      rewrite Hopt. by destruct (Hcount Hw po g) as [n ->]. }
    rewrite Hrun, Hread.
    exists v'. split; [reflexivity|]. simpl in Hlen, Hck.
    split; [rewrite Hlen, Ht; simpl; lia|]. split; [exact Hck|].
    split; [|done]. intros _.
    destruct rest as [|e2 rest'].
    + rewrite (Hnil eq_refl). simpl. split; [exact Hx|]. split; [by eexists|done].
    + destruct (Hne ltac:(done)) as (H1 & H2 & H3). split; [exact H1|].
      split; [exact H2|]. rewrite H3. reflexivity.
Qed.

Lemma era_loop_spec save_x rnd eras : forall v,
  print trainer_steps <> 0%nat -> log trainer_steps <> 0%nat ->
  counts_steps ->
  (1 <= nepoch trainer_steps)%nat ->
  (forall era, In era eras -> is_Some (betas !! pretty era)) ->
  exists v',
    era_loop save_x rnd eras v = inr v'
    /\ length (trajectories (tv_state v'))
       = (length (trajectories (tv_state v))
          + length eras * nepoch trainer_steps * per_step)%nat
    /\ tv_ckpts v'
       = tv_ckpts v
         ++ (if is_local_main_process
             then map (fun era => (era, nepoch trainer_steps - 1)%nat) eras
             else [])
    /\ (eras <> [] -> in_u1 (tv_x v')).
Proof.
  intros v Hp Hl Hcount Hn. revert v.
  induction eras as [|era rest IH]; intros v Hb.
  - exists v. simpl. repeat split; [lia | | done].
    destruct is_local_main_process; by rewrite app_nil_r.
  - cbn [era_loop].
    destruct (Hb era ltac:(by left)) as [beta ->].
    destruct (epoch_loop_spec save_x beta (rnd era)
                (seq 0 (nepoch trainer_steps)) v Hp Hl Hcount)
      as (v1 & -> & Hlen & Hck & Hne & _).
    assert (Hseq : seq 0 (nepoch trainer_steps) <> []).
    { destruct (nepoch trainer_steps); [lia | done]. }
    destruct (Hne Hseq) as (Hx & [loss Hloss] & Hep).
    rewrite length_seq in Hlen.
    assert (Hlast : List.last (seq 0 (nepoch trainer_steps)) 0%nat
                    = (nepoch trainer_steps - 1)%nat).
    { clear -Hn. destruct (nepoch trainer_steps) as [|n]; [lia|].
      rewrite seq_S, last_last. simpl. lia. }
    assert (Hrest : forall era', In era' rest -> is_Some (betas !! pretty era'))
      by (intros era' Hin; apply Hb; by right).
    destruct is_local_main_process eqn:Hmain.
    + rewrite Hloss.
      match goal with |- context [era_loop _ _ rest ?v0] =>
        destruct (IH v0 Hrest) as (v' & Hrun & Hlen' & Hck' & Hx') end.
      exists v'. split; [exact Hrun|]. simpl in Hlen', Hck'.
      split; [rewrite Hlen', Hlen; simpl; lia|].
      split.
      * rewrite Hck', Hck, Hep, Hlast. simpl. by rewrite <- app_assoc.
      * intros _. destruct rest as [|e2 rest'].
        -- simpl in Hrun. by injection Hrun as <-.
        -- by apply Hx'.
    + destruct (IH v1 Hrest) as (v' & Hrun & Hlen' & Hck' & Hx').
      exists v'. split; [exact Hrun|].
      split; [rewrite Hlen', Hlen; simpl; lia|].
      split.
      * rewrite Hck', Hck. by rewrite !app_nil_r.
      * intros _. destruct rest as [|e2 rest'].
        -- simpl in Hrun. by injection Hrun as <-.
        -- by apply Hx'.
Qed.

(** With a non-zero [print] period [eval] returns one configuration
    per test step, each wrapped into [[-pi, pi)], runs one trajectory
    per step, and leaves the learned parameters and the optimizer as
    they were; with a zero [print] period and at least one test step it
    fails with a [ZeroDivisionError]. *)
Theorem eval_wrapped_and_frozen (st : state Params OptState)
    (beta : option R) (x : option (list R)) (fresh : list R)
    (omegas : nat -> Omega) :
  (print trainer_steps <> 0%nat ->
   exists xarr st',
     eval st beta x fresh omegas = inr (xarr, st')
     /\ length xarr = test trainer_steps
     /\ Forall in_u1 xarr
     /\ params st' = params st
     /\ opt_state st' = opt_state st
     /\ length (trajectories st')
        = (length (trajectories st) + test trainer_steps)%nat)
  /\ (print trainer_steps = 0%nat -> (1 <= test trainer_steps)%nat ->
      eval st beta x fresh omegas = inl ZeroDivisionError).
Proof.
  unfold eval. split.
  - intros Hp.
    destruct (eval_loop_spec
                (map (fun step => (step, omegas step))
                     (seq 0 (test trainer_steps)))
                st (default fresh x) (default beta_final beta) Hp)
      as (xarr & st' & Hrun & Hlen & H).
    exists xarr, st'. split; [exact Hrun|].
    rewrite length_map, length_seq in Hlen, H. split; [exact Hlen | exact H].
  - intros Hp Ht. destruct (test trainer_steps) as [|n]; [lia|].
    cbn [seq map eval_loop].
    destruct (eval_step_ st (default fresh x, default beta_final beta)
                         (omegas 0%nat)) as [[x' m] st'].
    unfold should_print. by rewrite Hp.
Qed.

(** With an inverse temperature for every era, non-zero [log] and
    [print] periods and at least one epoch per era: when the optimizer
    keeps a step count where it is read (on the main process), [train]
    succeeds after [nera * nepoch] training steps, each running one
    trajectory (two with a positive [aux_weight]); the main process
    writes one checkpoint per era, labelled with the era and the last
    epoch; the configuration it ends with is wrapped into [[-pi, pi)].
    When the optimizer keeps no step count, the main process fails in
    the first epoch with the [KeyError] of ['step']. *)
Theorem train_counts (st : state Params OptState) (x : option (list R))
    (fresh : list R) (save_x : bool) (rnd : nat -> nat -> draws Omega) :
  print trainer_steps <> 0%nat -> log trainer_steps <> 0%nat ->
  (1 <= nepoch trainer_steps)%nat ->
  (forall era, (era < nera trainer_steps)%nat ->
               is_Some (betas !! pretty era)) ->
  (counts_steps ->
   exists v,
     train st x fresh save_x rnd = inr v
     /\ length (trajectories (tv_state v))
        = (length (trajectories st)
           + nera trainer_steps * nepoch trainer_steps * per_step)%nat
     /\ tv_ckpts v
        = (if is_local_main_process
           then map (fun era => (era, nepoch trainer_steps - 1)%nat)
                    (seq 0 (nera trainer_steps))
           else [])
     /\ ((1 <= nera trainer_steps)%nat -> in_u1 (tv_x v)))
  /\ (is_local_main_process = true -> (1 <= nera trainer_steps)%nat ->
      (forall po g, gstep (snd (optimizer_step po g)) = None) ->
      train st x fresh save_x rnd = inl (KeyError "step")).
Proof.
  intros Hp Hl Hn Hb. split.
  - intros Hcount. unfold train.
    match goal with |- context [era_loop _ _ _ ?v0] =>
      destruct (era_loop_spec save_x rnd (seq 0 (nera trainer_steps)) v0
                  Hp Hl Hcount Hn) as (v & Hrun & Hlen & Hck & Hx) end.
    { intros era Hin. apply Hb. apply in_seq in Hin. lia. }
    exists v. split; [exact Hrun|]. simpl in Hlen, Hck.
    rewrite length_seq in Hlen. split; [exact Hlen|]. split; [exact Hck|].
    intros Hne. apply Hx. destruct (nera trainer_steps); [lia | done].
  - intros Hmain Hera Hnone. unfold train.
    destruct (nera trainer_steps) as [|n] eqn:Hnera; [lia|].
    destruct (Hb 0%nat ltac:(lia)) as [beta Hbeta].
    cbn [seq era_loop]. rewrite Hbeta.
    destruct (nepoch trainer_steps) as [|m]; [lia|].
    cbn [seq epoch_loop tv_state tv_x].
    match goal with |- context [train_step_ ?s0 ?i0 ?r0] =>
      pose proof (train_step_opt_state s0 i0 r0) as (po & g & Hopt);
      destruct (train_step_ s0 i0 r0) as [[x' [loss m']] st'] end.
    simpl in Hopt.
    unfold should_report, should_print, writer.
    apply Nat.eqb_neq in Hp. rewrite Hp, Hmain.
    rewrite Nat.Div0.mod_0_l. cbn [Nat.eqb andb].
    by rewrite Hopt, Hnone.
Qed.

(** The failures of [train]: a missing inverse temperature for the
    first era is a [KeyError] before any step; with no epochs the main
    process fails on [metrics['loss']] at the first checkpoint; a zero
    [print] period is a [ZeroDivisionError] in the first epoch. *)
Theorem train_errors (st : state Params OptState) (x : option (list R))
    (fresh : list R) (save_x : bool) (rnd : nat -> nat -> draws Omega) :
  (1 <= nera trainer_steps)%nat ->
  (betas !! "0"%string = None ->
   train st x fresh save_x rnd = inl (KeyError "0"))
  /\ (is_Some (betas !! "0"%string) -> nepoch trainer_steps = 0%nat ->
      is_local_main_process = true ->
      train st x fresh save_x rnd = inl (KeyError "loss"))
  /\ (is_Some (betas !! "0"%string) -> (1 <= nepoch trainer_steps)%nat ->
      print trainer_steps = 0%nat ->
      train st x fresh save_x rnd = inl ZeroDivisionError).
Proof.
  intros Hn. unfold train.
  destruct (nera trainer_steps) as [|n]; [lia|].
  cbn [seq era_loop]. change (pretty 0%nat) with "0"%string.
  split; [by intros ->|]. split.
  - intros [beta ->] -> ->. reflexivity.
  - intros [beta ->] He Hp.
    destruct (nepoch trainer_steps) as [|m]; [lia|].
    cbn [seq epoch_loop tv_state tv_x].
    destruct (train_step_ _ _ _) as [[x' [loss m']] st'].
    unfold should_report, should_print. by rewrite Hp.
Qed.

End Loops.

Arguments tv_x {Params OptState Loss} t.
Arguments tv_state {Params OptState Loss} t.
Arguments tv_xarr {Params OptState Loss} t.
Arguments tv_loss {Params OptState Loss} t.
Arguments tv_epoch {Params OptState Loss} t.
Arguments tv_ckpts {Params OptState Loss} t.

(** A concrete schedule: two eras of three epochs. *)
Definition toy_steps : steps :=
  {| nera := 2; nepoch := 3; test := 2; log := 1; print := 1 |}.

Definition toy_betas : gmap string R := {[ "0"%string := 1; "1"%string := 2 ]}.

(** Gradient descent with an optimizer that counts its steps, as it is
    read by [train]. *)
Definition counting_sgd_step (po : option R * nat) (g : option R)
  : option R * nat :=
  (fst (sgd_step (fst po, tt) g), S (snd po)).

Definition counting_state : state (option R) nat :=
  {| params := Some 1; opt_state := 0%nat; trajectories := [] |}.

Definition toy_train (s : steps) (b : gmap string R) (main : bool) :=
  train (option R) nat (option R) (option R) unit
        still_dynamics inverse_jump_loss opt_scale opt_add opt_div
        toy_backward counting_sgd_step 0 s b main Some
        counting_state (Some [0]) [] false (fun _ _ => toy_draws).

(** The same with plain gradient descent, which keeps no step count. *)
Definition toy_train_sgd (s : steps) (b : gmap string R) (main : bool) :=
  train (option R) unit (option R) (option R) unit
        still_dynamics inverse_jump_loss opt_scale opt_add opt_div
        toy_backward sgd_step 0 s b main (fun _ => None)
        toy_state (Some [0]) [] false (fun _ _ => toy_draws).

Lemma toy_betas_present era :
  (era < 2)%nat -> is_Some (toy_betas !! pretty era).
Proof.
  intros H. destruct era as [|[|era]]; [by eexists | by eexists | lia].
Qed.

Lemma eval_wrapped_and_frozen_witness :
  print toy_steps <> 0%nat
  /\ exists xarr st',
       eval (option R) unit (option R) unit still_dynamics inverse_jump_loss
            toy_steps 1 true toy_state None (Some [0]) [] (fun _ => tt)
       = inr (xarr, st')
       /\ length xarr = 2%nat
       /\ params st' = params toy_state.
Proof.
  assert (Hp : print toy_steps <> 0%nat) by discriminate.
  split; [exact Hp|].
  destruct (eval_wrapped_and_frozen (option R) unit (option R) unit
              still_dynamics inverse_jump_loss toy_steps 1 true
              toy_state None (Some [0]) [] (fun _ => tt)) as [H _].
  destruct (H Hp) as (xarr & st' & Hrun & Hlen & _ & Hpar & _).
  exists xarr, st'. split; [exact Hrun|]. split; [exact Hlen | exact Hpar].
Defined.

Lemma train_counts_witness :
  print toy_steps <> 0%nat /\ log toy_steps <> 0%nat
  /\ (1 <= nepoch toy_steps)%nat
  /\ (exists v,
        toy_train toy_steps toy_betas true = inr v
        /\ length (trajectories (tv_state v))
           = (length (trajectories counting_state) + 2 * 3 * per_step 0)%nat
        /\ tv_ckpts v = [(0, 2); (1, 2)]%nat)
  /\ toy_train_sgd toy_steps toy_betas true = inl (KeyError "step").
Proof.
  assert (Hp : print toy_steps <> 0%nat) by discriminate.
  assert (Hl : log toy_steps <> 0%nat) by discriminate.
  assert (Hn : (1 <= nepoch toy_steps)%nat) by (simpl; lia).
  split; [exact Hp|]. split; [exact Hl|]. split; [exact Hn|]. split.
  - destruct (train_counts (option R) nat (option R) (option R) unit
                still_dynamics inverse_jump_loss opt_scale opt_add opt_div
                toy_backward counting_sgd_step 0 toy_steps toy_betas true Some
                counting_state (Some [0]) [] false (fun _ _ => toy_draws)
                Hp Hl Hn toy_betas_present) as [Hok _].
    destruct Hok as (v & Hrun & Hlen & Hck & _).
    { intros _ po g. by eexists. }
    exists v. split; [exact Hrun|]. split; [exact Hlen | exact Hck].
  - destruct (train_counts (option R) unit (option R) (option R) unit
                still_dynamics inverse_jump_loss opt_scale opt_add opt_div
                toy_backward sgd_step 0 toy_steps toy_betas true (fun _ => None)
                toy_state (Some [0]) [] false (fun _ _ => toy_draws)
                Hp Hl Hn toy_betas_present) as [_ Hfail].
    apply Hfail; [reflexivity | simpl; lia | reflexivity].
Defined.

Lemma train_errors_witness :
  (1 <= nera toy_steps)%nat
  /\ (∅ : gmap string R) !! "0"%string = None
  /\ toy_train toy_steps ∅ true = inl (KeyError "0")
  /\ toy_train {| nera := 2; nepoch := 0; test := 2; log := 1; print := 1 |}
                toy_betas true = inl (KeyError "loss")
  /\ toy_train {| nera := 2; nepoch := 3; test := 2; log := 1; print := 0 |}
                toy_betas true = inl ZeroDivisionError.
Proof.
  assert (Hn : (1 <= 2)%nat) by lia.
  assert (Hb : is_Some (toy_betas !! "0"%string)) by (by eexists).
  split; [exact Hn|]. split; [reflexivity|].
  split; [|split].
  - apply (train_errors (option R) nat (option R) (option R) unit
             still_dynamics inverse_jump_loss opt_scale opt_add opt_div
             toy_backward counting_sgd_step 0 toy_steps ∅ true Some
             counting_state (Some [0]) [] false (fun _ _ => toy_draws) Hn).
    reflexivity.
  - apply (train_errors (option R) nat (option R) (option R) unit
             still_dynamics inverse_jump_loss opt_scale opt_add opt_div
             toy_backward counting_sgd_step 0
             {| nera := 2; nepoch := 0; test := 2; log := 1; print := 1 |}
             toy_betas true Some
             counting_state (Some [0]) [] false (fun _ _ => toy_draws) Hn);
      [exact Hb | reflexivity | reflexivity].
  - apply (train_errors (option R) nat (option R) (option R) unit
             still_dynamics inverse_jump_loss opt_scale opt_add opt_div
             toy_backward counting_sgd_step 0
             {| nera := 2; nepoch := 3; test := 2; log := 1; print := 0 |}
             toy_betas true Some
             counting_state (Some [0]) [] false (fun _ _ => toy_draws) Hn);
      [exact Hb | simpl; lia | reflexivity].
Defined.

End Trainer.

(* ===================================================================== *)
(** * models/gmm_model.py                                                 *)
(* ===================================================================== *)

Module GMM.
Local Open Scope R_scope.

Inductive exn : Type :=
| KeyError (key : string)
| UnboundLocalError (name : string).

Inductive result (A : Type) : Type :=
| Ok (a : A)
| Raise (e : exn).
Arguments Ok {A} a.
Arguments Raise {A} e.

(** [d[key]] on a dictionary. *)
Definition getitem {A} (d : gmap string A) (key : string) : result A :=
  match d !! key with
  | Some a => Ok a
  | None => Raise (KeyError key)
  end.

(** ** The metric *)

(** [_create_metric_fn]: the returned [metric_fn(x1, x2)] is
    [tf.square(x1 - x2)], coordinate by coordinate (the two tensors have
    the same shape). *)
Definition metric_fn (x1 x2 : list R) : list R :=
  zip_with (fun a b => (a - b) ^ 2) x1 x2.

(** The spec's reading of the default metric: the squared differences
    summed over the dimensions, a single number per configuration. *)
Definition summed_square_metric (x1 x2 : list R) : R :=
  fold_right Rplus 0 (zip_with (fun a b => (a - b) ^ 2) x1 x2).

(** ** The reversibility check *)

(** The direction of an integration. *)
Inductive direction : Type := Forward | Backward.

Section Check.
(** The augmented leapfrog integrator of the dynamics in one direction:
    from [(x, v)] at [beta], with the network weights and the training
    flag, to [(x', v', logdet)]. *)
Variable integrate :
  direction -> list R -> list R -> R -> (R * R * R) -> bool ->
  list R * list R * list R.
(** [allclose] of models/gauge_model.py. *)
Variable allclose : list R -> list R -> bool.

(** Modelled from the spec: [Dynamics._check_reversibility] is not among
    the sources.  The spec: "Runs forward integrator step => (x_f, v_f,
    logdet_f); runs backward integrator step on (x_f, v_f) => (x_b, v_b,
    logdet_b)."  The result is the dictionary the model reads ['xb'] and
    ['vb'] from; the other entries carry the remaining values. *)
Definition dynamics_check_reversibility
    (x_in v_in : list R) (beta : R) (net_weights : R * R * R)
    (training : bool) : gmap string (list R) :=
  let '(xf, vf, logdet_f) := integrate Forward x_in v_in beta net_weights training in
  let '(xb, vb, logdet_b) := integrate Backward xf vf beta net_weights training in
  <["xf"%string := xf]> (<["vf"%string := vf]>
  (<["xb"%string := xb]> (<["vb"%string := vb]>
  (<["sumlogdet_f"%string := logdet_f]>
  (<["sumlogdet_b"%string := logdet_b]> ∅))))).

(** [GaussianMixtureModel._check_reversibility], from the drawn
    [x_in], [v_in] on, for a given [self.dynamics._check_reversibility]. *)
Definition _check_reversibility
    (dynamics_check :
       list R -> list R -> R -> (R * R * R) -> bool -> gmap string (list R))
    (x_in v_in : list R) (beta : R) (net_weights : R * R * R)
    (train_phase : bool) : result (bool * bool) :=
  let dynamics_check := dynamics_check x_in v_in beta net_weights train_phase in
  match getitem dynamics_check "xb" with
  | Raise e => Raise e
  | Ok xb =>
      match getitem dynamics_check "vb" with
      | Raise e => Raise e
      | Ok vb =>
          let x_allclose := allclose x_in xb in
          let v_allclose := allclose v_in vb in
          Ok (x_allclose, v_allclose)
      end
  end.

End Check.

(** ** The auxiliary transition in [build] *)

(** The entries of the dictionary [apply_transition] returns that
    [build] reads. *)
Record transition : Type := {
  t_x_in : list R;
  t_x_proposed : list R;
  t_accept_prob : list R;
  t_x_out : list R
}.

(** [LFdata(init, proposed, prob)]. *)
Record LFdata : Type := {
  lf_init : list R;
  lf_proposed : list R;
  lf_prob : list R
}.

Section Build.
Variable Loss : Type.
(** [self.dynamics.apply_transition(x, beta, net_weights, train_phase)]. *)
Variable apply_transition : list R -> R -> (R * R * R) -> bool -> transition.
(** [calc_loss] and [gaussian_loss], which defer to the base model. *)
Variable calc_loss : LFdata -> LFdata -> Loss.
Variable gaussian_loss : LFdata -> LFdata -> Loss.

(** What [build] leaves on the model, as far as the transitions and the
    loss go. *)
Record graph : Type := {
  g_x_dynamics : transition;
  g_z_dynamics : option transition;
  g_loss_op : option Loss
}.

Definition lfdata_of (t : transition) : LFdata :=
  {| lf_init := t_x_in t; lf_proposed := t_x_proposed t;
     lf_prob := t_accept_prob t |}.

(** The part of [build] from the main transition to the loss.
    [aux_weight] is [None] when the attribute is missing
    ([getattr(self, 'aux_weight', 1.)]); [z] is the draw of
    [tf.random_normal(tf.shape(self.x))].  [z_dynamics] is a local
    variable bound only in the auxiliary branch: the loss reads it
    whenever [hmc] is off. *)
Definition build (aux_weight : option R) (hmc use_gaussian_loss : bool)
    (x z : list R) (beta : R) (net_weights : R * R * R) (train_phase : bool)
  : result graph :=
  let x_dynamics := apply_transition x beta net_weights train_phase in
  let z_dynamics :=
    if Rlt_dec 0 (default 1 aux_weight)
    then Some (apply_transition z beta net_weights train_phase)
    else None in
  if negb hmc then
    let x_data := lfdata_of x_dynamics in
    match z_dynamics with
    | None => Raise (UnboundLocalError "z_dynamics")
    | Some zd =>
        let z_data := lfdata_of zd in
        let loss_op :=
          if use_gaussian_loss then gaussian_loss x_data z_data
          else calc_loss x_data z_data in
        Ok {| g_x_dynamics := x_dynamics; g_z_dynamics := z_dynamics;
              g_loss_op := Some loss_op |}
    end
  else
    Ok {| g_x_dynamics := x_dynamics; g_z_dynamics := z_dynamics;
          g_loss_op := None |}.

Lemma build_aux aux_weight hmc gl x z beta nw tp :
  0 < default 1 aux_weight ->
  exists g,
    build aux_weight hmc gl x z beta nw tp = Ok g
    /\ g_z_dynamics g = Some (apply_transition z beta nw tp).
Proof.
  intros Hw. unfold build.
  destruct (Rlt_dec 0 (default 1 aux_weight)) as [_|Hn]; [|contradiction].
  destruct hmc; simpl; eexists; split; reflexivity.
Qed.

Lemma build_no_aux w hmc gl x z beta nw tp g :
  w <= 0 ->
  build (Some w) hmc gl x z beta nw tp = Ok g ->
  g_z_dynamics g = None.
Proof.
  intros Hw. unfold build. simpl.
  destruct (Rlt_dec 0 w) as [Hp|_]; [lra|].
  destruct hmc; simpl; [|discriminate]. by intros [= <-].
Qed.

End Build.

Arguments g_x_dynamics {Loss} g.
Arguments g_z_dynamics {Loss} g.
Arguments g_loss_op {Loss} g.

(** ** Concrete instances *)

(** Modelled from the spec: [allclose] of models/gauge_model.py is not
    among the sources.  The spec compares "elementwise" against a
    tolerance: every coordinate of the difference is below [tol] in
    absolute value, on tensors of the same length. *)
Definition allclose_tol (tol : R) (x y : list R) : bool :=
  Nat.eqb (length x) (length y)
  && forallb (fun ab => if Rlt_dec (Rabs (fst ab - snd ab)) tol
                        then true else false)
             (combine x y).

(** An integrator that returns the state unchanged and reports the
    log-Jacobian [ld] in either direction. *)
Definition still_integrator (ld : R)
    (d : direction) (x v : list R) (beta : R) (nw : R * R * R) (tr : bool)
  : list R * list R * list R :=
  (x, v, [ld]).

Lemma allclose_tol_refl_1 (a : R) : allclose_tol (1 / 1000) [a] [a] = true.
Proof.
  unfold allclose_tol. simpl.
  destruct (Rlt_dec (Rabs (a - a)) (1 / 1000)) as [_|Hn]; [reflexivity|].
  exfalso. apply Hn. replace (a - a) with 0 by lra. rewrite Rabs_R0. lra.
Qed.

(** ** Properties of the reversibility check *)

Lemma check_reversibility_eq allclose dc x v beta nw tp xb vb :
  dc x v beta nw tp !! "xb"%string = Some xb ->
  dc x v beta nw tp !! "vb"%string = Some vb ->
  _check_reversibility allclose dc x v beta nw tp
  = Ok (allclose x xb, allclose v vb).
Proof.
  intros Hx Hv. unfold _check_reversibility, getitem. by rewrite Hx, Hv.
Qed.

Lemma dynamics_check_lookup integrate x v beta nw tp :
  let '(xf, vf, _) := integrate Forward x v beta nw tp in
  let '(xb, vb, _) := integrate Backward xf vf beta nw tp in
  dynamics_check_reversibility integrate x v beta nw tp !! "xb"%string = Some xb
  /\ dynamics_check_reversibility integrate x v beta nw tp !! "vb"%string = Some vb.
Proof.
  unfold dynamics_check_reversibility.
  destruct (integrate Forward x v beta nw tp) as [[xf vf] ldf].
  destruct (integrate Backward xf vf beta nw tp) as [[xb vb] ldb].
  split; by simplify_map_eq.
Qed.

(** C1. With the dynamics' check running the forward integrator on the
    drawn [(x, v)] and the backward integrator on the forward result,
    the model's checker returns normally, for every drawn pair, with one
    boolean for the recovered [x] against the drawn [x] and one for the
    recovered [v] against the drawn [v]; a mismatch is a [false], not an
    exception. *)
Theorem check_reversibility_two_booleans
    (integrate : direction -> list R -> list R -> R -> (R * R * R) -> bool ->
                 list R * list R * list R)
    (allclose : list R -> list R -> bool)
    (x_in v_in : list R) (beta : R) (nw : R * R * R) (tp : bool) :
  let '(xf, vf, _) := integrate Forward x_in v_in beta nw tp in
  let '(xb, vb, _) := integrate Backward xf vf beta nw tp in
  _check_reversibility allclose (dynamics_check_reversibility integrate)
                       x_in v_in beta nw tp
  = Ok (allclose x_in xb, allclose v_in vb).
Proof.
  pose proof (dynamics_check_lookup integrate x_in v_in beta nw tp) as H.
  destruct (integrate Forward x_in v_in beta nw tp) as [[xf vf] ldf].
  destruct (integrate Backward xf vf beta nw tp) as [[xb vb] ldb].
  destruct H as [Hx Hv]. by apply check_reversibility_eq.
Qed.

(** A mismatch is reported as [false]. *)
Example check_reversibility_mismatch :
  _check_reversibility (allclose_tol (1 / 1000))
    (fun x v _ _ _ => <["xb"%string := [5]]> (<["vb"%string := v]> ∅))
    [0] [0] 1 (1, 1, 1) false
  = Ok (false, true).
Proof.
  erewrite check_reversibility_eq by (by simplify_map_eq).
  rewrite allclose_tol_refl_1. f_equal. f_equal.
  unfold allclose_tol. simpl.
  destruct (Rlt_dec (Rabs (0 - 5)) (1 / 1000)) as [Hlt|_]; [|reflexivity].
  exfalso. replace (0 - 5) with (- (5)) in Hlt by lra.
  rewrite Rabs_Ropp, Rabs_pos_eq in Hlt; lra.
Qed.




(** ** Properties of the metric *)

Lemma metric_fn_length x1 x2 :
  length x1 = length x2 -> length (metric_fn x1 x2) = length x1.
Proof.
  intros H. unfold metric_fn. rewrite length_zip_with. lia.
Qed.

Lemma metric_fn_nth x1 : forall x2 i,
  length x1 = length x2 ->
  nth i (metric_fn x1 x2) 0 = (nth i x1 0 - nth i x2 0) ^ 2.
Proof.
  induction x1 as [|a x1 IH]; intros [|b x2] i Hlen; try discriminate.
  - destruct i; simpl; lra.
  - destruct i; simpl; [reflexivity|]. apply IH. by injection Hlen.
Qed.

(** C7 (amended). The default metric is the squared difference taken
    coordinate by coordinate: on two configurations of the same shape it
    returns a tensor of that shape whose i-th entry is the square of the
    difference of the i-th entries.  It neither sums over the
    dimensions nor wraps angles; summing its entries gives the summed
    squared difference. *)
Theorem metric_fn_elementwise (x1 x2 : list R) :
  length x1 = length x2 ->
  length (metric_fn x1 x2) = length x1
  /\ (forall i, nth i (metric_fn x1 x2) 0 = (nth i x1 0 - nth i x2 0) ^ 2)
  /\ fold_right Rplus 0 (metric_fn x1 x2) = summed_square_metric x1 x2.
Proof.
  intros Hlen. split; [by apply metric_fn_length|].
  split; [intros i; by apply metric_fn_nth | reflexivity].
Qed.

Lemma metric_fn_elementwise_witness :
  length [1; 2] = length [0; 0]
  /\ length (metric_fn [1; 2] [0; 0]) = length [1; 2]
  /\ (forall i, nth i (metric_fn [1; 2] [0; 0]) 0
                = (nth i [1; 2] 0 - nth i [0; 0] 0) ^ 2)
  /\ fold_right Rplus 0 (metric_fn [1; 2] [0; 0])
     = summed_square_metric [1; 2] [0; 0].
Proof.
  split; [reflexivity|].
  apply (metric_fn_elementwise [1; 2] [0; 0]). reflexivity.
Defined.

(** C7 (as stated) fails: on the two-dimensional configurations [(1, 2)]
    and [(0, 0)] the metric returns the two numbers 1 and 4, not their
    sum 5. *)
Lemma metric_fn_not_summed :
  metric_fn [1; 2] [0; 0] = [1; 4]
  /\ summed_square_metric [1; 2] [0; 0] = 5
  /\ metric_fn [1; 2] [0; 0] <> [summed_square_metric [1; 2] [0; 0]].
Proof.
  split; [|split].
  - unfold metric_fn. simpl. f_equal; [lra|]. f_equal. lra.
  - unfold summed_square_metric. simpl. lra.
  - unfold metric_fn. simpl. discriminate.
Qed.

(** No wrap-around either: the angles [0] and [2 pi] are a positive
    distance apart. *)
Lemma metric_fn_no_wraparound :
  exists d, metric_fn [0] [2 * PI] = [d] /\ 0 < d.
Proof.
  eexists. split; [reflexivity|]. simpl.
  pose proof PI_RGT_0. nra.
Qed.

(** ** The loss of [build] needs the auxiliary transition *)

(** [build] gets through the loss exactly when [hmc] is on or the
    auxiliary weight is positive (a missing attribute counts as 1):
    with [hmc] off and [aux_weight <= 0] the loss reads the local
    [z_dynamics], which was never bound. *)
Theorem build_loss_needs_auxiliary
    (Loss : Type)
    (apply_transition : list R -> R -> (R * R * R) -> bool -> transition)
    (calc_loss gaussian_loss : LFdata -> LFdata -> Loss)
    (aux_weight : option R) (hmc gl : bool)
    (x z : list R) (beta : R) (nw : R * R * R) (tp : bool) :
  (hmc = false -> default 1 aux_weight <= 0 ->
   build Loss apply_transition calc_loss gaussian_loss
         aux_weight hmc gl x z beta nw tp
   = Raise (UnboundLocalError "z_dynamics"))
  /\ ((exists g, build Loss apply_transition calc_loss gaussian_loss
                       aux_weight hmc gl x z beta nw tp = Ok g)
      <-> hmc = true \/ 0 < default 1 aux_weight)
  /\ (forall g, build Loss apply_transition calc_loss gaussian_loss
                      aux_weight hmc gl x z beta nw tp = Ok g ->
        (is_Some (g_loss_op g) <-> hmc = false)).
Proof.
  unfold build.
  destruct (Rlt_dec 0 (default 1 aux_weight)) as [Hp|Hn]; destruct hmc; simpl.
  - split; [discriminate|]. split.
    + split; [by left | by eexists].
    + intros g [= <-]. simpl. split; [by intros [? ?] | discriminate].
  - split; [intros _ Hle; lra|]. split.
    + split; [by right | by eexists].
    + intros g [= <-]. simpl. split; [done | by eexists].
  - split; [discriminate|]. split.
    + split; [by left | by eexists].
    + intros g [= <-]. simpl. split; [by intros [? ?] | discriminate].
  - split; [done|]. split.
    + split; [by intros [? ?] | intros [?|?]; [discriminate | contradiction]].
    + discriminate.
Qed.

(** A transition that proposes and returns its input. *)
Definition still_transition
    (x : list R) (beta : R) (nw : R * R * R) (tp : bool) : transition :=
  {| t_x_in := x; t_x_proposed := x; t_accept_prob := [1]; t_x_out := x |}.

Lemma build_loss_needs_auxiliary_witness :
  default 1 (Some 0) <= 0
  /\ build R still_transition (fun _ _ => 0) (fun _ _ => 1)
           (Some 0) false false [0] [0] 1 (1, 1, 1) false
     = Raise (UnboundLocalError "z_dynamics").
Proof.
  assert (Hw : default 1 (Some 0) <= 0) by (simpl; lra).
  split; [exact Hw|].
  apply (build_loss_needs_auxiliary R still_transition
           (fun _ _ => 0) (fun _ _ => 1)
           (Some 0) false false [0] [0] 1 (1, 1, 1) false);
    [reflexivity | exact Hw].
Defined.

(** ** The mixture weights *)

Inductive arr_exn : Type :=
| ZeroDivisionError
| IndexError.

(** [n * [v]] for a Python int [n]: the empty list for [n <= 0]. *)
Definition times (n : Z) (v : R) : list R := repeat v (Z.to_nat n).

(** [sum(pis)], from 0 and from the left. *)
Definition sum_list (pis : list R) : R := fold_left Rplus pis 0.

(** The literal [1e-16]. *)
Definition tiny : R := 1 / 10 ^ 16.

Section DistributionArr.
(** [round(x, ndigits)] on a float. *)
Variable round : R -> Z -> R.

(** [distribution_arr(x_dim, num_distributions)].  The list of the
    first [if] is replaced by either branch of the second one; only its
    exceptions remain. *)
Definition distribution_arr (x_dim num_distributions : Z)
  : arr_exn + list R :=
  let first : arr_exn + list R :=
    if (num_distributions >? x_dim)%Z then
      if (num_distributions =? 0)%Z then inl ZeroDivisionError
      else
        let pis := times num_distributions (1 / IZR num_distributions) in
        match pis with
        | [] => inl IndexError
        | p0 :: rest => inr ((p0 + (1 - sum_list pis)) :: rest)
        end
    else inr [] in
  match first with
  | inl e => inl e
  | inr _ =>
      if (x_dim =? num_distributions)%Z then
        if (num_distributions =? 0)%Z then inl ZeroDivisionError
        else
          let big_pi := round (1 / IZR num_distributions) x_dim in
          inr (times num_distributions big_pi)
      else
        if (num_distributions =? 0)%Z then inl ZeroDivisionError
        else
          let big_pi := 1 / IZR num_distributions - IZR x_dim * tiny in
          let pis := times num_distributions big_pi in
          let small_pi :=
            (1 - sum_list pis) / IZR (x_dim - num_distributions) in
          inr (pis ++ times (x_dim - num_distributions) small_pi)
  end.

End DistributionArr.

Lemma fold_left_Rplus (l : list R) (a : R) :
  fold_left Rplus l a = a + fold_right Rplus 0 l.
Proof.
  revert a. induction l as [|b l IH]; intros a; simpl; [lra|].
  rewrite IH. lra.
Qed.

Lemma sum_list_app (l l' : list R) :
  sum_list (l ++ l') = sum_list l + sum_list l'.
Proof.
  unfold sum_list. rewrite !fold_left_Rplus, fold_right_app.
  induction l as [|a l IH]; simpl; [|lra].
  rewrite <- (fold_left_Rplus l' 0), fold_left_Rplus. lra.
Qed.

Lemma sum_list_cons (a : R) (l : list R) :
  sum_list (a :: l) = a + sum_list l.
Proof.
  rewrite (sum_list_app [a] l : sum_list (a :: l) = _).
  unfold sum_list. simpl. lra.
Qed.

Lemma sum_list_repeat (v : R) (n : nat) :
  sum_list (repeat v n) = INR n * v.
Proof.
  unfold sum_list. rewrite fold_left_Rplus.
  assert (H : fold_right Rplus 0 (repeat v n) = INR n * v).
  { induction n as [|n IH]; [simpl; lra|].
    rewrite S_INR. cbn [repeat fold_right]. rewrite IH. lra. }
  rewrite H. lra.
Qed.

Lemma sum_list_times (n : Z) (v : R) :
  (0 <= n)%Z -> sum_list (times n v) = IZR n * v.
Proof.
  intros Hn. unfold times. rewrite sum_list_repeat, INR_IZR_INZ.
  by rewrite Z2Nat.id.
Qed.

Lemma times_nonpos (n : Z) (v : R) : (n <= 0)%Z -> times n v = [].
Proof.
  intros Hn. unfold times.
  replace (Z.to_nat n) with 0%nat by lia. reflexivity.
Qed.

Lemma times_cons (n : Z) (v : R) :
  (0 < n)%Z -> times n v = v :: times (n - 1) v.
Proof.
  intros Hn. unfold times.
  replace (Z.to_nat n) with (S (Z.to_nat (n - 1))) by lia. reflexivity.
Qed.

Lemma tiny_pos : 0 < tiny.
Proof.
  unfold tiny. apply Rdiv_lt_0_compat; [lra|]. apply pow_lt. lra.
Qed.

(** With fewer modes than dimensions (and at least one), the array has
    one weight per dimension and the weights add up to one: the first
    [num_distributions] of them are [1 / num_distributions - x_dim *
    1e-16], the others share what is left. *)
Theorem distribution_arr_fewer_modes
    (round : R -> Z -> R) (x_dim num_distributions : Z) :
  (0 < num_distributions)%Z -> (num_distributions < x_dim)%Z ->
  exists pis,
    distribution_arr round x_dim num_distributions = inr pis
    /\ length pis = Z.to_nat x_dim
    /\ sum_list pis = 1
    /\ forall i, (i < Z.to_nat num_distributions)%nat ->
         nth i pis 0 = 1 / IZR num_distributions - IZR x_dim * tiny.
Proof.
  intros Hpos Hlt. unfold distribution_arr.
  assert (Hgt : (num_distributions >? x_dim)%Z = false) by lia.
  assert (Heq : (x_dim =? num_distributions)%Z = false) by lia.
  assert (Hz : (num_distributions =? 0)%Z = false) by lia.
  rewrite Hgt, Heq, Hz. eexists. split; [reflexivity|].
  split; [|split].
  - rewrite length_app. unfold times. rewrite !repeat_length. lia.
  - rewrite sum_list_app, !sum_list_times by lia.
    assert (Hd : IZR (x_dim - num_distributions) <> 0).
    { apply not_0_IZR. lia. }
    assert (Hn : IZR num_distributions <> 0) by (apply not_0_IZR; lia).
    field. split; [exact Hn | exact Hd].
  - intros i Hi. rewrite app_nth1 by (unfold times; rewrite repeat_length; lia).
    unfold times. apply nth_repeat_lt. exact Hi.
Qed.

Lemma distribution_arr_fewer_modes_witness :
  (0 < 2)%Z /\ (2 < 3)%Z
  /\ exists pis,
       distribution_arr (fun r _ => r) 3 2 = inr pis
       /\ length pis = 3%nat /\ sum_list pis = 1.
Proof.
  assert (H0 : (0 < 2)%Z) by lia.
  assert (H1 : (2 < 3)%Z) by lia.
  split; [exact H0|]. split; [exact H1|].
  destruct (distribution_arr_fewer_modes (fun r _ => r) 3 2 H0 H1)
    as (pis & Hr & Hlen & Hsum & _).
  exists pis. split; [exact Hr|]. split; [exact Hlen | exact Hsum].
Defined.

(** With more modes than dimensions, the correction of the first weight
    is lost: every weight is [1 / num_distributions - x_dim * 1e-16],
    one per mode, and for [x_dim > 0] they add up to less than one. *)
Theorem distribution_arr_more_modes
    (round : R -> Z -> R) (x_dim num_distributions : Z) :
  (0 < num_distributions)%Z -> (x_dim < num_distributions)%Z ->
  distribution_arr round x_dim num_distributions
  = inr (times num_distributions
               (1 / IZR num_distributions - IZR x_dim * tiny))
  /\ sum_list (times num_distributions
                     (1 / IZR num_distributions - IZR x_dim * tiny))
     = 1 - IZR num_distributions * IZR x_dim * tiny
  /\ ((0 < x_dim)%Z ->
      sum_list (times num_distributions
                      (1 / IZR num_distributions - IZR x_dim * tiny)) < 1).
Proof.
  intros Hpos Hlt. unfold distribution_arr.
  assert (Hgt : (num_distributions >? x_dim)%Z = true) by lia.
  assert (Heq : (x_dim =? num_distributions)%Z = false) by lia.
  assert (Hz : (num_distributions =? 0)%Z = false) by lia.
  rewrite Hgt, Heq, Hz.
  rewrite (times_cons num_distributions (1 / IZR num_distributions)) by lia.
  cbv beta iota zeta.
  rewrite (times_nonpos (x_dim - num_distributions)) by lia.
  rewrite app_nil_r.
  assert (Hn : 0 < IZR num_distributions) by (apply IZR_lt; lia).
  assert (Hsum : sum_list (times num_distributions
                     (1 / IZR num_distributions - IZR x_dim * tiny))
                 = 1 - IZR num_distributions * IZR x_dim * tiny).
  { rewrite sum_list_times by lia. field. lra. }
  split; [reflexivity|]. split; [exact Hsum|].
  intros Hx. rewrite Hsum.
  assert (Hxd : 0 < IZR x_dim) by (apply IZR_lt; lia).
  pose proof tiny_pos as Ht.
  assert (0 < IZR num_distributions * IZR x_dim * tiny).
  { apply Rmult_lt_0_compat; [apply Rmult_lt_0_compat|]; assumption. }
  lra.
Qed.

Lemma distribution_arr_more_modes_witness :
  (0 < 3)%Z /\ (2 < 3)%Z
  /\ distribution_arr (fun r _ => r) 2 3 = inr (times 3 (1 / 3 - 2 * tiny))
  /\ sum_list (times 3 (1 / 3 - 2 * tiny)) < 1.
Proof.
  assert (H0 : (0 < 3)%Z) by lia.
  assert (H1 : (2 < 3)%Z) by lia.
  split; [exact H0|]. split; [exact H1|].
  destruct (distribution_arr_more_modes (fun r _ => r) 2 3 H0 H1)
    as (Hr & _ & Hless).
  split; [exact Hr|]. apply Hless. lia.
Defined.

(** No modes at all is a [ZeroDivisionError], whatever the dimension; a
    negative number of modes above [x_dim] is an [IndexError]. *)
Theorem distribution_arr_errors
    (round : R -> Z -> R) (x_dim num_distributions : Z) :
  (num_distributions = 0%Z ->
   distribution_arr round x_dim num_distributions = inl ZeroDivisionError)
  /\ ((num_distributions < 0)%Z -> (x_dim < num_distributions)%Z ->
      distribution_arr round x_dim num_distributions = inl IndexError).
Proof.
  unfold distribution_arr. split.
  - intros ->. simpl.
    destruct (0 >? x_dim)%Z; [reflexivity|].
    destruct (x_dim =? 0)%Z; reflexivity.
  - intros Hneg Hlt.
    assert (Hgt : (num_distributions >? x_dim)%Z = true) by lia.
    assert (Hz : (num_distributions =? 0)%Z = false) by lia.
    rewrite Hgt, Hz. by rewrite times_nonpos by lia.
Qed.

Lemma distribution_arr_errors_witness :
  distribution_arr (fun r _ => r) 2 0 = inl ZeroDivisionError
  /\ ((-1) < 0)%Z /\ ((-2) < (-1))%Z
  /\ distribution_arr (fun r _ => r) (-2) (-1) = inl IndexError.
Proof.
  split.
  - apply (distribution_arr_errors (fun r _ => r) 2 0). reflexivity.
  - split; [lia|]. split; [lia|].
    apply (distribution_arr_errors (fun r _ => r) (-2) (-1)); lia.
Defined.

(** ** The lattice of Gaussians *)

(** [sigma * np.eye(x_dim)]. *)
Definition eye (sigma : R) (x_dim : nat) : list (list R) :=
  map (fun i => map (fun j => sigma * (if Nat.eqb i j then 1 else 0))
                    (seq 0 x_dim))
      (seq 0 x_dim).

Section Lattice.
(** [GMM(mus, covs, pis)] of utils/distributions.py. *)
Variable Distribution : Type.
Variable mixture :
  list (nat * nat) -> list (list (list R)) -> list R -> Distribution.

(** [lattice_of_gaussians(num_modes, sigma, x_dim, size)] for a number
    of modes that is not negative; [int(np.sqrt(num_modes))] is the
    integer square root. *)
Definition lattice_of_gaussians
    (num_modes : nat) (sigma : R) (x_dim : nat) (size : option nat)
  : arr_exn
    + (Distribution * list (nat * nat) * list (list (list R)) * list R) :=
  let size :=
    match size with
    | None => Nat.sqrt num_modes
    | Some size => size
    end in
  let mus :=
    flat_map (fun i => map (fun j => (i, j)) (seq 0 size)) (seq 0 size) in
  let covs := map (fun _ => eye sigma x_dim) (seq 0 num_modes) in
  if Nat.eqb num_modes 0 then inl ZeroDivisionError
  else
    let pis := repeat (1 / INR num_modes) num_modes in
    match pis with
    | [] => inl IndexError
    | p0 :: rest =>
        let pis := (p0 + (1 - sum_list pis)) :: rest in
        inr (mixture mus covs pis, mus, covs, pis)
    end.

End Lattice.

Arguments lattice_of_gaussians {Distribution} mixture num_modes sigma x_dim size.

Lemma flat_map_const_length {A B} (f : A -> list B) (l : list A) (n : nat) :
  (forall a, length (f a) = n) -> length (flat_map f l) = (length l * n)%nat.
Proof.
  intros Hf. induction l as [|a l IH]; simpl; [reflexivity|].
  rewrite length_app, Hf, IH. reflexivity.
Qed.

(** With at least one mode and no [size], the lattice has
    [int(sqrt(num_modes))^2] means, but [num_modes] covariances and
    [num_modes] weights, which add up to one: the three agree in number
    exactly when [num_modes] is a perfect square. *)
Theorem lattice_of_gaussians_counts
    (Distribution : Type)
    (mixture : list (nat * nat) -> list (list (list R)) -> list R
               -> Distribution)
    (num_modes : nat) (sigma : R) (x_dim : nat) :
  (0 < num_modes)%nat ->
  exists mus covs pis,
    lattice_of_gaussians mixture num_modes sigma x_dim None
    = inr (mixture mus covs pis, mus, covs, pis)
    /\ length mus = (Nat.sqrt num_modes * Nat.sqrt num_modes)%nat
    /\ length covs = num_modes
    /\ length pis = num_modes
    /\ sum_list pis = 1
    /\ (length mus = length pis <-> exists k, num_modes = (k * k)%nat).
Proof.
  intros Hpos. unfold lattice_of_gaussians.
  destruct num_modes as [|n]; [lia|].
  cbn [Nat.eqb repeat]. cbv zeta.
  do 3 eexists. split; [reflexivity|].
  assert (Hmus : length (flat_map (fun i => map (fun j => (i, j))
                                     (seq 0 (Nat.sqrt (S n))))
                           (seq 0 (Nat.sqrt (S n))))
                 = (Nat.sqrt (S n) * Nat.sqrt (S n))%nat).
  { rewrite (flat_map_const_length _ _ (Nat.sqrt (S n))).
    - by rewrite length_seq.
    - intros a. by rewrite length_map, length_seq. }
  split; [exact Hmus|].
  split; [by rewrite length_map, length_seq|].
  assert (Hlen : length ((1 / INR (S n)
                          + (1 - sum_list (1 / INR (S n)
                                           :: repeat (1 / INR (S n)) n)))
                         :: repeat (1 / INR (S n)) n) = S n).
  { simpl. by rewrite repeat_length. }
  split; [exact Hlen|].
  split.
  - rewrite !sum_list_cons. lra.
  - rewrite Hmus, Hlen. split.
    + intros H. exists (Nat.sqrt (S n)). lia.
    + intros [k Hk]. rewrite Hk, Nat.sqrt_square. reflexivity.
Qed.

Lemma lattice_of_gaussians_counts_witness :
  (0 < 5)%nat
  /\ exists mus covs pis,
       lattice_of_gaussians (fun _ _ _ => tt) 5 1 2 None
       = inr (tt, mus, covs, pis)
       /\ length mus = 4%nat /\ length pis = 5%nat.
Proof.
  assert (H : (0 < 5)%nat) by lia.
  split; [exact H|].
  destruct (lattice_of_gaussians_counts unit (fun _ _ _ => tt) 5 1 2 H)
    as (mus & covs & pis & Hr & Hmus & _ & Hpis & _).
  exists mus, covs, pis. split; [exact Hr|]. split; [exact Hmus | exact Hpis].
Defined.

End GMM.

(* ===================================================================== *)
(** * The Metropolis-Hastings acceptance stage                            *)
(* ===================================================================== *)

Module Acceptance.
Local Open Scope R_scope.

(** Floating-point values with the non-finite ones made explicit. *)
Inductive fp : Type :=
| Fin (r : R)
| PInf
| NInf
| NaN.

(** The exponential as floating point computes it: beyond the largest
    exponent [ovf] it overflows to [+inf]. *)
Definition fp_exp (ovf : R) (d : R) : fp :=
  if Rlt_dec ovf d then PInf else Fin (exp d).

(** [min(1, y)]. *)
Definition fp_min1 (y : fp) : fp :=
  match y with
  | Fin r => Fin (Rmin 1 r)
  | PInf => Fin 1
  | NInf => NInf
  | NaN => NaN
  end.

(** Clipping into [[0, 1]]. *)
Definition fp_clip01 (y : fp) : fp :=
  match y with
  | Fin r => Fin (Rmax 0 (Rmin 1 r))
  | PInf => Fin 1
  | NInf => Fin 0
  | NaN => NaN
  end.

(** Modelled from the spec: the acceptance stage lives in the dynamics
    modules, which are not among the sources.  The spec: "Acceptance
    probability: p_accept = min(1, exp(H_init - H_prop + logdet)),
    clipped to [0,1] for numerical safety (exponent overflow must not
    produce NaN; saturate to 1 instead)", and "the acceptance stage
    treats any non-finite Hamiltonian as infinite energy (probability 0
    of acceptance)", the Hamiltonian change including the Jacobian
    correction. *)
Definition p_accept (ovf : R) (h_init h_prop logdet : fp) : fp :=
  match h_init, h_prop, logdet with
  | Fin hi, Fin hp, Fin ld =>
      fp_clip01 (fp_min1 (fp_exp ovf (hi - hp + ld)))
  | _, _, _ => Fin 0
  end.

(** Modelled from the spec: "accepts element i iff u_i < p_accept_i". *)
Definition accepts (u : R) (p : fp) : bool :=
  match p with
  | Fin r => if Rlt_dec u r then true else false
  | PInf => true
  | NInf | NaN => false
  end.

Lemma clip_min_exp_range (d : R) : 0 <= Rmax 0 (Rmin 1 (Rmin 1 (exp d))) <= 1.
Proof.
  pose proof (exp_pos d) as Hpos.
  unfold Rmax, Rmin. repeat destruct (Rle_dec _ _); lra.
Qed.

Lemma clip_one : Rmax 0 (Rmin 1 1) = 1.
Proof. unfold Rmax, Rmin. repeat destruct (Rle_dec _ _); lra. Qed.

Lemma p_accept_finite ovf hi hp ld :
  exists p, p_accept ovf hi hp ld = Fin p /\ 0 <= p <= 1.
Proof.
  destruct hi as [hi| | |]; try (exists 0; split; [reflexivity | lra]).
  destruct hp as [hp| | |]; try (exists 0; split; [reflexivity | lra]).
  destruct ld as [ld| | |]; try (exists 0; split; [reflexivity | lra]).
  unfold p_accept, fp_exp. destruct (Rlt_dec ovf (hi - hp + ld)); simpl.
  - exists 1. rewrite clip_one. split; [reflexivity | lra].
  - eexists. split; [reflexivity|]. apply clip_min_exp_range.
Qed.

Lemma p_accept_overflow ovf hi hp ld :
  ovf < hi - hp + ld ->
  p_accept ovf (Fin hi) (Fin hp) (Fin ld) = Fin 1.
Proof.
  intros H. unfold p_accept, fp_exp.
  destruct (Rlt_dec ovf (hi - hp + ld)); [|contradiction].
  simpl. by rewrite clip_one.
Qed.

(** C3. For all inputs of the acceptance stage, non-finite ones
    included, the acceptance probability is a number in [[0, 1]] (never
    [NaN]); and when the exponent [H_init - H_prop + logdet] is past the
    overflow threshold of the exponential, the probability is 1. *)
Theorem p_accept_in_unit_interval (ovf : R) (h_init h_prop logdet : fp) :
  (exists p, p_accept ovf h_init h_prop logdet = Fin p /\ 0 <= p <= 1)
  /\ (forall hi hp ld,
        h_init = Fin hi -> h_prop = Fin hp -> logdet = Fin ld ->
        ovf < hi - hp + ld ->
        p_accept ovf h_init h_prop logdet = Fin 1).
Proof.
  split; [apply p_accept_finite|].
  intros hi hp ld -> -> -> H. by apply p_accept_overflow.
Qed.

Lemma p_accept_in_unit_interval_witness :
  (exists p, p_accept 88 (Fin 1000) (Fin 0) (Fin 0) = Fin p /\ 0 <= p <= 1)
  /\ p_accept 88 (Fin 1000) (Fin 0) (Fin 0) = Fin 1.
Proof.
  destruct (p_accept_in_unit_interval 88 (Fin 1000) (Fin 0) (Fin 0)) as [H1 H2].
  split; [exact H1|].
  apply (H2 1000 0 0); [reflexivity | reflexivity | reflexivity | lra].
Defined.

(** The two scenarios of the spec: a favourable energy difference of 5
    with the draw 0.5 is accepted, an unfavourable one of -5 with the
    draw 0.99 is rejected. *)
Example accept_favourable :
  accepts (1 / 2) (p_accept 88 (Fin 5) (Fin 0) (Fin 0)) = true.
Proof.
  unfold p_accept, fp_exp.
  destruct (Rlt_dec 88 (5 - 0 + 0)) as [H|_]; [lra|]. simpl.
  assert (He : 1 < exp (5 - 0 + 0)).
  { rewrite <- exp_0. apply exp_increasing. lra. }
  unfold Rmin. repeat destruct (Rle_dec _ _); try lra.
  unfold Rmax. destruct (Rle_dec 0 1); [|lra].
  destruct (Rlt_dec (1 / 2) 1); [reflexivity | lra].
Qed.

Example reject_unfavourable :
  accepts (99 / 100) (p_accept 88 (Fin 0) (Fin 5) (Fin 0)) = false.
Proof.
  unfold p_accept, fp_exp.
  destruct (Rlt_dec 88 (0 - 5 + 0)) as [H|_]; [lra|]. simpl.
  assert (He : exp (0 - 5 + 0) < 1 / 6).
  { replace (0 - 5 + 0) with (- (5)) by lra. rewrite exp_Ropp.
    pose proof (exp_ineq1 5 ltac:(lra)) as H5.
    unfold Rdiv. rewrite Rmult_1_l. apply Rinv_lt_contravar; nra. }
  pose proof (exp_pos (0 - 5 + 0)) as Hpos.
  unfold Rmin, Rmax. repeat destruct (Rle_dec _ _); try lra;
    destruct (Rlt_dec _ _); try reflexivity; lra.
Qed.

End Acceptance.

(* ===================================================================== *)
(** * The drivers together                                                *)
(* ===================================================================== *)

Module Drivers.
Import Angles.
Local Open Scope R_scope.

(** ** The range of the configurations handed from step to step *)

(** A session whose output configuration has the single coordinate 4. *)
Definition four_session (k : nat) (x : list R) (beta : R) (nw : R * R * R)
  : Runner.outputs :=
  {| Runner.o_x_out := [4]; Runner.o_px := []; Runner.o_actions := [];
     Runner.o_plaqs := []; Runner.o_charges := [];
     Runner.o_charge_diffs := []; Runner.o_lf := [] |}.

(** C5 (as stated) fails in the inference runner: when the session
    returns the coordinate 4, [run_step] hands on the sample 4, which is
    not below [pi]. *)
Lemma run_step_sample_not_below_pi :
  Runner.d_samples
    (Runner.run_step_data four_session false (1 / 10) 0 [0] 5 (1, 1, 1)) = [4]
  /\ ~ (- PI <= 4 < PI).
Proof.
  split.
  - unfold Runner.run_step_data. simpl. f_equal.
    apply np_mod_small. pose proof PI2_3_2. lra.
  - pose proof PI_4. lra.
Qed.

(** C5 (amended). With floats modelled as reals (finite outputs, exact
    remainders): the inference runner reduces the configuration it
    hands to the next step modulo [2 pi], so that every coordinate lies
    in [[0, 2 pi)]; the PyTorch trainer passes the configuration it
    returns from an evaluation or training step through [to_u1], so
    that every coordinate lies in [[-pi, pi)]. *)
Theorem handed_configurations_wrapped :
  (forall sess_run save_lf eps step x beta nw,
      Forall (fun a => 0 <= a < 2 * PI)
             (Runner.d_samples
                (Runner.run_step_data sess_run save_lf eps step x beta nw)))
  /\ (forall Params OptState Loss Omega dynamics loss_fn
             (st : Trainer.state Params OptState) inputs w,
        Forall (fun a => - PI <= a < PI)
               (fst (fst (Trainer.eval_step Params OptState Loss Omega
                            dynamics loss_fn st inputs w))))
  /\ (forall Params OptState Grads Loss Omega dynamics loss_fn loss_scale
             loss_add loss_div backward optimizer_step aux_weight
             (st : Trainer.state Params OptState) inputs rnd,
        Forall (fun a => - PI <= a < PI)
               (fst (fst (Trainer.train_step Params OptState Grads Loss Omega
                            dynamics loss_fn loss_scale loss_add loss_div
                            backward optimizer_step aux_weight
                            st inputs rnd)))).
Proof.
  split; [|split]; intros.
  - apply Runner.run_step_samples_range.
  - apply Trainer.eval_step_x_range.
  - apply Trainer.train_step_x_range.
Qed.

(** ** The auxiliary trajectory *)

(** C6. In a training step of the PyTorch trainer a positive
    [aux_weight] makes the step run a second trajectory, started from
    the wrapped noise of [draw_x] (a draw of its own, not the batch),
    and return [(loss + aux_weight * aux_loss) / (1 + aux_weight)];
    with [aux_weight <= 0] only the trajectory from the batch runs and
    the loss is the main loss.  In the graph of the Gaussian-mixture
    model a positive [aux_weight] (1 when the attribute is missing) adds
    the transition from the normal draw [z]; with [aux_weight <= 0] no
    graph with an auxiliary transition is built. *)
Theorem auxiliary_trajectory
    (Params OptState Grads Loss Omega : Type)
    (dynamics : Params -> list R * R -> Omega -> Trainer.dyn_out)
    (loss_fn : list R -> list R -> list R -> Loss)
    (loss_scale : R -> Loss -> Loss) (loss_add : Loss -> Loss -> Loss)
    (loss_div : Loss -> R -> Loss)
    (backward : Params -> Loss -> Grads)
    (optimizer_step : Params * OptState -> Grads -> Params * OptState)
    (aux_weight : R)
    (st : Trainer.state Params OptState) (x_init : list R) (beta : R)
    (rnd : Trainer.draws Omega)
    (apply_transition : list R -> R -> (R * R * R) -> bool -> GMM.transition)
    (calc_loss gaussian_loss : GMM.LFdata -> GMM.LFdata -> Loss)
    (attr : option R) (hmc use_gaussian_loss : bool) (x z : list R)
    (nw : R * R * R) (tp : bool) :
  let res := Trainer.train_step Params OptState Grads Loss Omega dynamics
               loss_fn loss_scale loss_add loss_div backward optimizer_step
               aux_weight st (x_init, beta) rnd in
  let main := dynamics (Trainer.params st) (to_u1 x_init, beta)
                       (Trainer.omega_main rnd) in
  let yinit := to_u1 (Trainer.noise rnd) in
  let aux := dynamics (Trainer.params st) (yinit, beta)
                      (Trainer.omega_aux rnd) in
  let main_loss := loss_fn x_init (to_u1 (Trainer.proposed_x main))
                           (Trainer.acc main) in
  let aux_loss := loss_fn yinit (to_u1 (Trainer.proposed_x aux))
                          (Trainer.acc aux) in
  let graph := GMM.build Loss apply_transition calc_loss gaussian_loss attr
                 hmc use_gaussian_loss x z beta nw tp in
  (0 < aux_weight ->
     Trainer.trajectories (snd res)
     = Trainer.trajectories st ++ [to_u1 x_init; yinit]
     /\ fst (snd (fst res))
        = loss_div (loss_add main_loss (loss_scale aux_weight aux_loss))
                   (1 + aux_weight))
  /\ (aux_weight <= 0 ->
        Trainer.trajectories (snd res) = Trainer.trajectories st ++ [to_u1 x_init]
        /\ fst (snd (fst res)) = main_loss)
  /\ (0 < default 1 attr ->
        exists g, graph = GMM.Ok g
                  /\ GMM.g_z_dynamics g = Some (apply_transition z beta nw tp))
  /\ (forall w g, attr = Some w -> w <= 0 -> graph = GMM.Ok g ->
        GMM.g_z_dynamics g = None).
Proof.
  intros res main yinit aux main_loss aux_loss graph.
  split; [|split; [|split]].
  - intros Hw. by apply Trainer.train_step_aux.
  - intros Hw. by apply Trainer.train_step_no_aux.
  - intros Hw. by apply GMM.build_aux.
  - intros w g -> Hw Hg. by eapply GMM.build_no_aux.
Qed.

(** A transition that leaves the configuration where it is. *)
Definition still_transition (x : list R) (beta : R) (nw : R * R * R)
    (tp : bool) : GMM.transition :=
  {| GMM.t_x_in := x; GMM.t_x_proposed := x; GMM.t_accept_prob := [1];
     GMM.t_x_out := x |}.

Definition no_loss (a b : GMM.LFdata) : option R := None.

Lemma auxiliary_trajectory_witness :
  let train_step w :=
    Trainer.train_step (option R) unit (option R) (option R) unit
      Trainer.still_dynamics Trainer.inverse_jump_loss Trainer.opt_scale
      Trainer.opt_add Trainer.opt_div Trainer.toy_backward Trainer.sgd_step
      w Trainer.toy_state ([0], 1) Trainer.toy_draws in
  0 < 1 / 2
  /\ Trainer.trajectories (snd (train_step (1 / 2))) = [to_u1 [0]; to_u1 []]
  /\ 0 <= 0
  /\ Trainer.trajectories (snd (train_step 0)) = [to_u1 [0]]
  /\ 0 < default 1 (Some (1 / 2))
  /\ (exists g,
        GMM.build (option R) still_transition no_loss no_loss (Some (1 / 2))
                  false false [0] [3] 1 (1, 1, 1) false = GMM.Ok g
        /\ GMM.g_z_dynamics g = Some (still_transition [3] 1 (1, 1, 1) false)).
Proof.
  intros train_step.
  assert (Hpos : 0 < 1 / 2) by lra.
  assert (Hle : 0 <= 0) by lra.
  pose proof (auxiliary_trajectory (option R) unit (option R) (option R) unit
                Trainer.still_dynamics Trainer.inverse_jump_loss
                Trainer.opt_scale Trainer.opt_add Trainer.opt_div
                Trainer.toy_backward Trainer.sgd_step (1 / 2)
                Trainer.toy_state [0] 1 Trainer.toy_draws
                still_transition no_loss no_loss (Some (1 / 2))
                false false [0] [3] (1, 1, 1) false) as Hhalf.
  pose proof (auxiliary_trajectory (option R) unit (option R) (option R) unit
                Trainer.still_dynamics Trainer.inverse_jump_loss
                Trainer.opt_scale Trainer.opt_add Trainer.opt_div
                Trainer.toy_backward Trainer.sgd_step 0
                Trainer.toy_state [0] 1 Trainer.toy_draws
                still_transition no_loss no_loss (Some (1 / 2))
                false false [0] [3] (1, 1, 1) false) as Hzero.
  cbv zeta in Hhalf, Hzero.
  destruct Hhalf as (Haux & _ & Hbuild & _).
  destruct Hzero as (_ & Hnoaux & _ & _).
  split; [exact Hpos|]. split; [exact (proj1 (Haux Hpos))|].
  split; [exact Hle|]. split; [exact (proj1 (Hnoaux Hle))|].
  split; [exact Hpos|]. exact (Hbuild Hpos).
Defined.

End Drivers.
